(** * 3d-ct-viewer: DICOM decoding, volume assembly, atlas packing and the
    ray-casting fragment shader, embedded from the JavaScript/GLSL sources.

    - [Dicom]  : src/dicom_parser.js (DicomParser.parseDicom, processDicomFolder)
    - [Atlas]  : loadVolume of VolumeRenderer / VolumeRaycaster
    - [Shader] : the fragment shader of VolumeRaycaster (sampleVolume, main)

    Numbers.  JavaScript numbers and GLSL floats are modelled by exact
    rationals ([Q]); array indices, sizes and byte offsets by [nat]; typed
    array elements by [Z] with the wrap-around of the store written out. *)

From Stdlib Require Import ZArith QArith Qround Qminmax Lia Lqa List String Ascii.
From Stdlib.Strings Require Import Byte.
From Stdlib Require PrimFloat.
From Stdlib Require Import Sorted.
From stdpp Require Import base list gmap strings.
Import ListNotations.

(* ===================================================================== *)
(** ** Shared numeric helpers *)
(* ===================================================================== *)

(** [Math.round]: nearest integer, ties towards +infinity. *)
Definition js_round (q : Q) : Z := Qfloor (q + (1 # 2))%Q.

(** [Math.max(0, Math.min(255, v))] on integers. *)
Definition clamp255 (v : Z) : Z := Z.max 0 (Z.min 255 v).

(** A sequence of typed-array stores [buf[i] = v], executed left to right.
    A store outside the buffer is ignored, as for JS typed arrays. *)
Definition store {A} (buf : list A) (w : nat * A) : list A := <[w.1 := w.2]> buf.
Definition stores {A} (buf : list A) (ws : list (nat * A)) : list A := foldl store buf ws.

(* ===================================================================== *)
(** ** src/dicom_parser.js *)
(* ===================================================================== *)

Module Dicom.

(** *** DataView reads (little-endian flag [true] everywhere in the source).
    An out-of-bounds read throws a RangeError: [None]. *)

Definition byte_val (b : Byte.byte) : Z := Z.of_N (Byte.to_N b).

Definition getUint8 (view : list Byte.byte) (off : nat) : option Z :=
  byte_val <$> view !! off.

Definition getUint16 (view : list Byte.byte) (off : nat) : option Z :=
  b0 ← getUint8 view off;
  b1 ← getUint8 view (off + 1);
  Some (Z.lor b0 (Z.shiftl b1 8)).

Definition getUint32 (view : list Byte.byte) (off : nat) : option Z :=
  b0 ← getUint8 view off;
  b1 ← getUint8 view (off + 1);
  b2 ← getUint8 view (off + 2);
  b3 ← getUint8 view (off + 3);
  Some (Z.lor (Z.lor b0 (Z.shiftl b1 8)) (Z.lor (Z.shiftl b2 16) (Z.shiftl b3 24))).

(** [String.fromCharCode(c0, c1)] on two byte values. *)
Definition fromCharCode2 (c0 c1 : Z) : string :=
  String (ascii_of_N (Z.to_N c0)) (String (ascii_of_N (Z.to_N c1)) EmptyString).

(** The array literal of parseDicom lines 60 and 73. *)
Definition long_vrs : list string := ["OB"; "OW"; "OF"; "SQ"; "UT"; "UN"]%string.

Definition includes (l : list string) (s : string) : bool :=
  existsb (String.eqb s) l.

(** What the loop body of parseDicom knows about an element once its
    header (lines 53-83) has been read. *)
Record header := Header {
  h_group : Z;
  h_element : Z;
  h_vr : string;
  h_length : Z;
  h_valueOffset : nat
}.

(** Lines 53-83 of parseDicom, from the tag pair to [valueOffset].  The
    function is the source's control flow: the outer test on the VR list,
    the non-zero probe in its first branch, and the second branch with its
    own (repeated) test of the same list. *)
Definition read_header (view : list Byte.byte) (offset : nat) : option header :=
  group ← getUint16 view offset;
  element ← getUint16 view (offset + 2);
  c0 ← getUint8 view (offset + 4);
  c1 ← getUint8 view (offset + 5);
  let vr := fromCharCode2 c0 c1 in
  if includes long_vrs vr then
    let offset := offset + 6 in
    probe ← getUint32 view offset;
    let offset := if negb (probe =? 0)%Z then offset + 4 else offset in
    length ← getUint32 view offset;
    let offset := offset + 4 in
    Some (Header group element vr length offset)
  else
    let offset := offset + 6 in
    if includes long_vrs vr then
      let offset := offset + 2 in
      length ← getUint32 view offset;
      let offset := offset + 4 in
      Some (Header group element vr length offset)
    else
      length ← getUint16 view offset;
      let offset := offset + 2 in
      Some (Header group element vr length offset).

(** The layout the specification describes for an element header, written
    from its words: long-form VRs skip two reserved bytes and carry a
    4-byte length, the others a 2-byte length; the value follows. *)
Definition spec_header (view : list Byte.byte) (offset : nat) : option header :=
  group ← getUint16 view offset;
  element ← getUint16 view (offset + 2);
  c0 ← getUint8 view (offset + 4);
  c1 ← getUint8 view (offset + 5);
  let vr := fromCharCode2 c0 c1 in
  if includes long_vrs vr then
    length ← getUint32 view (offset + 6 + 2);
    Some (Header group element vr length (offset + 6 + 2 + 4))
  else
    length ← getUint16 view (offset + 6);
    Some (Header group element vr length (offset + 6 + 2)).

(** *** processDicomFolder *)

(** A pixel buffer is a [Uint8Array] or a [Uint16Array]. *)
Inductive pixels :=
  | U8 (elems : list Z)
  | U16 (elems : list Z).

Definition elems_of (p : pixels) : list Z :=
  match p with U8 l | U16 l => l end.

Definition is_Uint16Array (p : pixels) : bool :=
  match p with U16 _ => true | U8 _ => false end.

(** The object parseDicom returns; of [metadata] only key '00200013'
    (InstanceNumber) is read by processDicomFolder. *)
Record dicomData := DicomData {
  d_instanceNumber : option Z;
  d_pixelData : option pixels;
  d_rows : nat;
  d_columns : nat
}.

(** One file of the folder: reading or parsing it throws (caught at line
    158), or parseDicom returns. *)
Inductive parsed :=
  | Threw
  | Parsed (d : dicomData).

Record slice := Slice {
  s_data : pixels;
  s_rows : nat;
  s_columns : nat;
  s_instanceNumber : Z
}.

(** [x || 0] for a number or [undefined]. *)
Definition or_zero (o : option Z) : Z := default 0%Z o.

(** Lines 144-161: the slices pushed, in encounter order. *)
Fixpoint collect (files : list parsed) : list slice :=
  match files with
  | [] => []
  | Threw :: rest => collect rest
  | Parsed d :: rest =>
      match d_pixelData d with
      | Some px =>
          if (negb (d_rows d =? 0) && negb (d_columns d =? 0))%nat
          then Slice px (d_rows d) (d_columns d) (or_zero (d_instanceNumber d)) :: collect rest
          else collect rest
      | None => collect rest
      end
  end.

(** Line 168: [slices.sort((a, b) => (a.instanceNumber || 0) - (b.instanceNumber || 0))].
    Array.prototype.sort is stable, and the result of a stable sort by a
    key is determined by the list; it is given here as insertion from the
    right. *)
Fixpoint insert_slice (s : slice) (l : list slice) : list slice :=
  match l with
  | [] => [s]
  | t :: l' =>
      if (s_instanceNumber s <=? s_instanceNumber t)%Z then s :: t :: l'
      else t :: insert_slice s l'
  end.

Fixpoint sort_slices (l : list slice) : list slice :=
  match l with
  | [] => []
  | s :: l' => insert_slice s (sort_slices l')
  end.

(** The value that lands in a typed array of the given width when
    [sliceData[i]] is stored: [undefined] (index past the end) becomes 0,
    a number is reduced modulo 2^bits. *)
Definition stored_elem (is16Bit : bool) (sliceData : list Z) (i : nat) : Z :=
  (default 0 (sliceData !! i) mod (if is16Bit then 65536 else 256))%Z.

(** Lines 187-194: the writes of the fill loops, in program order. *)
Definition fill_writes (is16Bit : bool) (slices : list slice) (sliceSize : nat)
  : list (nat * Z) :=
  z ← seq 0 (List.length slices);
  i ← seq 0 sliceSize;
  [((z * sliceSize + i)%nat,
    stored_elem is16Bit (elems_of (s_data (default (Slice (U8 []) 0 0 0) (slices !! z)))) i)].

Definition fill (is16Bit : bool) (slices : list slice) (sliceSize volumeSize : nat)
  : list Z :=
  stores (replicate volumeSize 0%Z) (fill_writes is16Bit slices sliceSize).

(** [Math.max(...a)] and [Math.min(...a)] on a non-empty array. *)
Definition list_max (l : list Z) : Z := foldr Z.max (default 0%Z (head l)) l.
Definition list_min (l : list Z) : Z := foldr Z.min (default 0%Z (head l)) l.

(** Line 204: [Math.round(((v - minVal) / range) * 255)]. *)
Definition normalize_voxel (minVal range v : Z) : Z :=
  js_round ((inject_Z (v - minVal) / inject_Z range) * 255)%Q.

(** A spread call [f(...a)] passes every element of [a] as an argument of
    its own.  An engine accepts a bounded number of arguments in one call,
    [max_arguments] (a property of the engine and of the stack it has left,
    of the order of 10^5), and throws a RangeError when the array is
    longer: [None]. *)
Definition spread (max_arguments : N) (f : list Z → Z) (a : list Z) : option Z :=
  if (N.of_nat (List.length a) <=? max_arguments)%N then Some (f a) else None.

(** Lines 197-208; [None] is the RangeError of a spread call, which nothing
    in processDicomFolder catches. *)
Definition normalize (max_arguments : N) (volumeData : list Z) : option (list Z) :=
  maxVal ← spread max_arguments list_max volumeData;
  minVal ← spread max_arguments list_min volumeData;
  let range := if (maxVal - minVal =? 0)%Z then 1%Z else (maxVal - minVal)%Z in
  Some ((fun v => (normalize_voxel minVal range v mod 256)%Z) <$> volumeData).

Record volume := Volume {
  v_data : list Z;
  v_dimensions : nat * nat * nat
}.

(** What processDicomFolder does: it throws the error of line 164, it
    throws the RangeError of a spread call, or it returns a volume. *)
Inductive result :=
  | NoValidSlicesError
  | RangeError
  | Ok (v : volume).

(** Lines 163-213, on the slices collected. *)
Definition assemble (max_arguments : N) (slices : list slice) : result :=
  match sort_slices slices with
  | [] => NoValidSlicesError
  | (first :: _) as sorted =>
      let rows := s_rows first in
      let cols := s_columns first in
      let depth := List.length sorted in
      let is16Bit := is_Uint16Array (s_data first) in
      let volumeSize := (rows * cols * depth)%nat in
      let volumeData := fill is16Bit sorted (rows * cols) volumeSize in
      if is16Bit then
        match normalize max_arguments volumeData with
        | Some normalizedVolume => Ok (Volume normalizedVolume (cols, rows, depth))
        | None => RangeError
        end
      else Ok (Volume volumeData (cols, rows, depth))
  end.

Definition processDicomFolder (max_arguments : N) (files : list parsed) : result :=
  assemble max_arguments (collect files).

(** *** Statements and examples used below *)

(** The two-slice scenario of the specification: 16-bit slices of one row
    and two columns, instance numbers 1 and 2. *)
Definition scenario : list parsed :=
  [Parsed (DicomData (Some 1%Z) (Some (U16 [0; 1000]%Z)) 1 2);
   Parsed (DicomData (Some 2%Z) (Some (U16 [500; 2000]%Z)) 1 2)].

(** An explicit-VR pixel-data element as the specification lays it out:
    tag (7FE0,0010), VR "OW", two reserved bytes, the 4-byte length 4, and
    four value bytes (followed by padding). *)
Definition explicit_ow : list Byte.byte :=
  [xe0; x7f; x10; x00; x4f; x57; x00; x00; x04; x00; x00; x00;
   x0a; x0b; x0c; x0d; x00; x00; x00; x00; x00; x00; x00; x00]%byte.

(** A file counts for the volume when parsing returned pixel data and
    non-zero rows and columns. *)
Definition usable (p : parsed) : bool :=
  match p with
  | Threw => false
  | Parsed d =>
      match d_pixelData d with
      | Some _ => negb (d_rows d =? 0)%nat && negb (d_columns d =? 0)%nat
      | None => false
      end
  end.

Definition usable_count (files : list parsed) : nat :=
  List.length (List.filter usable files).

(** The order the comparator of line 168 sorts by. *)
Definition by_instanceNumber (s t : slice) : Prop :=
  (s_instanceNumber s <= s_instanceNumber t)%Z.





(** One 16-bit slice of 512 x 512 pixels, all of value 1000. *)
Definition ct_slice : slice := Slice (U16 (replicate (512 * 512) 1000%Z)) 512 512 1.

Definition ct_folder : list parsed :=
  [Parsed (DicomData (Some 1%Z) (Some (s_data ct_slice)) 512 512)].

End Dicom.

(** The argument of [Math.round] at line 204 as a JS engine computes it,
    in IEEE 754 binary64, to compare with the exact quotient used by
    [Dicom.normalize_voxel]. *)
Module Binary64.
Import PrimFloat.
Local Open Scope float_scope.

Definition normalize_arg (minVal range v : float) : float :=
  (v - minVal) / range * 255.

End Binary64.

(* ===================================================================== *)
(** ** parseDicom as a whole, and processDicomFolder on file contents *)
(* ===================================================================== *)

Module DicomParse.
Import Dicom.

(** [Number.prototype.toString(16)] on a non-negative integer: lower-case
    digits, no leading zeros, "0" for zero. *)
Definition hex_digit (d : Z) : ascii :=
  match d with
  | 0 => "0" | 1 => "1" | 2 => "2" | 3 => "3" | 4 => "4" | 5 => "5" | 6 => "6" | 7 => "7"
  | 8 => "8" | 9 => "9" | 10 => "a" | 11 => "b" | 12 => "c" | 13 => "d" | 14 => "e"
  | _ => "f"
  end%Z%char.

Fixpoint hex_of (fuel : nat) (n : Z) (acc : string) : string :=
  match fuel with
  | O => acc
  | S fuel' =>
      if (n =? 0)%Z then acc
      else hex_of fuel' (n / 16) (String (hex_digit (n mod 16)) acc)
  end.

Definition toString16 (n : Z) : string :=
  if (n =? 0)%Z then "0"%string else hex_of (S (Z.to_nat (Z.log2 n))) n EmptyString.

(** [s.padStart(4, '0')]. *)
Fixpoint zeros (k : nat) : string :=
  match k with O => EmptyString | S k' => String "0" (zeros k') end.

Definition padStart4 (s : string) : string :=
  (zeros (4 - String.length s) ++ s)%string.

(** Lines 53-55: the tag string of an element. *)
Definition tag_of (group element : Z) : string :=
  (padStart4 (toString16 group) ++ padStart4 (toString16 element))%string.

(** Signed DataView reads. *)
Definition getInt16 (view : list Byte.byte) (off : nat) : option Z :=
  u ← getUint16 view off; Some (if (u <? 32768)%Z then u else (u - 65536)%Z).

Definition getInt32 (view : list Byte.byte) (off : nat) : option Z :=
  u ← getUint32 view off; Some (if (u <? 2147483648)%Z then u else (u - 4294967296)%Z).

(** [arrayBuffer.slice(begin, end)] for non-negative arguments: both ends
    are clamped to the buffer. *)
Definition slice_bytes (view : list Byte.byte) (begin end_ : nat) : list Byte.byte :=
  take (end_ - begin) (drop begin view).

(** [new Uint8Array(buffer)] and [new Uint16Array(buffer)]; the latter
    throws a RangeError on a buffer of odd length and reads its elements in
    the byte order of the platform, taken to be little-endian. *)
Definition new_Uint8Array (buf : list Byte.byte) : list Z := byte_val <$> buf.

Fixpoint pairs_le (buf : list Byte.byte) : list Z :=
  match buf with
  | b0 :: b1 :: rest => Z.lor (byte_val b0) (Z.shiftl (byte_val b1) 8) :: pairs_le rest
  | _ => []
  end.

Definition new_Uint16Array (buf : list Byte.byte) : option (list Z) :=
  if Nat.even (List.length buf) then Some (pairs_le buf) else None.

(** The variables the loop of parseDicom updates besides [offset]; they are
    the object it returns (lines 131-136). *)
Record parse_state := ParseState {
  ps_metadata : gmap string Z;
  ps_pixelData : option pixels;
  ps_rows : Z;
  ps_columns : Z
}.

Definition set_metadata (tag : string) (v : Z) (st : parse_state) : parse_state :=
  ParseState (<[tag := v]> (ps_metadata st)) (ps_pixelData st) (ps_rows st) (ps_columns st).

(** Lines 85-116: what the loop body does with a decoded header.  [None]
    is an exception thrown by a read or by the typed-array constructor. *)
Definition dispatch (view : list Byte.byte) (h : header) (st : parse_state)
  : option parse_state :=
  let tag := tag_of (h_group h) (h_element h) in
  let vr := h_vr h in
  let length := h_length h in
  let valueOffset := h_valueOffset h in
  if String.eqb tag "7FE00010" then
    if String.eqb vr "OW" || String.eqb vr "OB" then
      let bytes := slice_bytes view valueOffset (valueOffset + Z.to_nat length) in
      if bool_decide (ps_metadata st !! "00280100"%string = Some 16%Z) then
        px ← new_Uint16Array bytes;
        Some (ParseState (ps_metadata st) (Some (U16 px)) (ps_rows st) (ps_columns st))
      else
        Some (ParseState (ps_metadata st) (Some (U8 (new_Uint8Array bytes)))
                         (ps_rows st) (ps_columns st))
    else Some st
  else if String.eqb tag "00280010" then
    v ← getUint16 view valueOffset;
    let st := set_metadata tag v st in
    Some (ParseState (ps_metadata st) (ps_pixelData st) v (ps_columns st))
  else if String.eqb tag "00280011" then
    v ← getUint16 view valueOffset;
    let st := set_metadata tag v st in
    Some (ParseState (ps_metadata st) (ps_pixelData st) (ps_rows st) v)
  else if String.eqb tag "00280100" then
    v ← getUint16 view valueOffset;
    Some (set_metadata tag v st)
  else if String.eqb tag "00281050" then
    if (length =? 2)%Z then v ← getInt16 view valueOffset; Some (set_metadata tag v st)
    else if (length =? 4)%Z then v ← getInt32 view valueOffset; Some (set_metadata tag v st)
    else Some st
  else if String.eqb tag "00281051" then
    if (length =? 2)%Z then v ← getUint16 view valueOffset; Some (set_metadata tag v st)
    else if (length =? 4)%Z then v ← getUint32 view valueOffset; Some (set_metadata tag v st)
    else Some st
  else if String.eqb tag "00200013" then
    v ← getUint16 view valueOffset;
    Some (set_metadata tag v st)
  else Some st.

(** Lines 118-124: the cursor after the element. *)
Definition next_offset (h : header) : nat :=
  let offset := h_valueOffset h + Z.to_nat (h_length h) in
  if (h_length h mod 2 =? 1)%Z && negb (String.eqb (h_vr h) "SQ")
     && negb (String.eqb (h_vr h) "UT")
  then offset + 1 else offset.

(** The body of the [try] block, lines 53-124; [None] is the [catch]. *)
Definition element_step (view : list Byte.byte) (offset : nat) (st : parse_state)
  : option (nat * parse_state) :=
  h ← read_header view offset;
  st' ← dispatch view h st;
  Some (next_offset h, st').

(** The [while] loop of lines 51-129, run for at most [fuel] iterations. *)
Fixpoint parse_loop (fuel : nat) (view : list Byte.byte) (offset : nat) (st : parse_state)
  : parse_state :=
  match fuel with
  | O => st
  | S fuel' =>
      if (Z.of_nat offset <? Z.of_nat (List.length view) - 8)%Z then
        match element_step view offset st with
        | Some (offset', st') => parse_loop fuel' view offset' st'
        | None => st
        end
      else st
  end.

(** [String.fromCharCode] on four byte values, and lines 27-43. *)
Definition fromCharCode4 (c0 c1 c2 c3 : Z) : string :=
  String (ascii_of_N (Z.to_N c0)) (fromCharCode2 c1 c2 ++ String (ascii_of_N (Z.to_N c3)) EmptyString).

Definition start_offset (view : list Byte.byte) : nat :=
  if (132 <? List.length view)%nat then
    match getUint8 view 128, getUint8 view 129, getUint8 view 130, getUint8 view 131 with
    | Some c0, Some c1, Some c2, Some c3 =>
        if String.eqb (fromCharCode4 c0 c1 c2 c3) "DICM" then 132 else 0
    | _, _, _, _ => 0
    end
  else 0.

Definition initial_state : parse_state := ParseState ∅ None 0 0.

(** parseDicom.  Every pass through the loop moves the cursor forward by at
    least eight bytes, so [length view] iterations are more than the loop
    can make (see [parseDicom_fuel] below). *)
Definition parse_from (view : list Byte.byte) (offset : nat) : parse_state :=
  parse_loop (List.length view) view offset initial_state.

Definition parseDicom (view : list Byte.byte) : parse_state :=
  parse_from view (start_offset view).

(** The fields of the returned object that processDicomFolder reads. *)
Definition dicomData_of (st : parse_state) : dicomData :=
  DicomData (ps_metadata st !! "00200013"%string) (ps_pixelData st)
            (Z.to_nat (ps_rows st)) (Z.to_nat (ps_columns st)).

(** processDicomFolder on the files themselves: [file.arrayBuffer()]
    rejects ([None]) or yields the bytes of the file. *)
Definition parse_file (file : option (list Byte.byte)) : parsed :=
  match file with
  | None => Threw
  | Some view => Parsed (dicomData_of (parseDicom view))
  end.

Definition processDicomFiles (max_arguments : N) (files : list (option (list Byte.byte)))
  : result :=
  processDicomFolder max_arguments (parse_file <$> files).

(** *** Names used below *)

(** The characters [toString(16)] can produce. *)
Definition is_lower_hex (c : ascii) : bool :=
  existsb (Ascii.eqb c) (list_ascii_of_string "0123456789abcdef").

Fixpoint all_chars (p : ascii → bool) (s : string) : bool :=
  match s with
  | EmptyString => true
  | String c s' => p c && all_chars p s'
  end.

(** A byte from its value, a 16-bit number as two little-endian bytes, and
    a short-form element: tag, two VR characters, 2-byte length 2, 2-byte
    value. *)
Definition byte_of (z : Z) : Byte.byte := byte_of_ascii (ascii_of_N (Z.to_N z)).

Definition u16le (v : Z) : list Byte.byte := [byte_of (v mod 256); byte_of (v / 256)].

Definition short_element (group element : Z) (vr0 vr1 : Byte.byte) (v : Z) : list Byte.byte :=
  u16le group ++ u16le element ++ [vr0; vr1] ++ u16le 2 ++ u16le v.

(** A header whose value lies [k] bytes further on. *)
Definition shift_header (k : nat) (h : header) : header :=
  Header (h_group h) (h_element h) (h_vr h) (h_length h) (k + h_valueOffset h).

(** The four bytes of the magic word. *)
Definition magic : list Byte.byte := [x44; x49; x43; x4d]%byte.

End DicomParse.

(* ===================================================================== *)
(** ** loadVolume (VolumeRenderer, src/volumerenderer.js lines 303-337;
       VolumeRaycaster lines 338-368: the same statements) *)
(* ===================================================================== *)

Module Atlas.

(** The argument of loadVolume.  [data] holds JS numbers; [dimensions] is
    [[width, height, depth]]. *)
Record volumeData := VolumeData {
  data : list Q;
  dimensions : nat * nat * nat
}.

(** [Math.ceil(Math.sqrt(depth))] and [Math.ceil(depth / slicesPerRow)] on
    array sizes (exact for every size a JS array can have).  For
    [depth = 0] both are 0 here and the texture is empty, as in the source
    ([new Uint8Array(NaN)] has length 0). *)
Definition ceil_sqrt (depth : nat) : nat := Nat.sqrt_up depth.
Definition ceil_div (depth slicesPerRow : nat) : nat :=
  (depth + slicesPerRow - 1) / slicesPerRow.

(** The body of the innermost loop: one store into [textureData]. *)
Definition pack_write (vd : list Q) (width height slicesPerRow texWidth : nat)
  (z y x : nat) : nat * Z :=
  let sliceRow := z / slicesPerRow in
  let sliceCol := z mod slicesPerRow in
  let volumeIdx := z * width * height + y * width + x in
  let texX := sliceCol * width + x in
  let texY := sliceRow * height + y in
  let texIdx := texY * texWidth + texX in
  (texIdx, clamp255 (js_round (default 0%Q (vd !! volumeIdx)))).

(** The three nested loops, as the stores they perform in program order. *)
Definition pack_writes (vd : list Q) (width height depth slicesPerRow texWidth : nat)
  : list (nat * Z) :=
  z ← seq 0 depth;
  y ← seq 0 height;
  x ← seq 0 width;
  [pack_write vd width height slicesPerRow texWidth z y x].

(** [this.textureLayout]. *)
Record textureLayout := TextureLayout {
  tl_width : nat;
  tl_height : nat;
  tl_slices : nat;
  tl_volumeSize : nat * nat * nat
}.

(** loadVolume up to the texture upload: the [Uint8Array] handed to
    [texImage2D] and the layout recorded. *)
Definition loadVolume (v : volumeData) : list Z * textureLayout :=
  let '(width, height, depth) := dimensions v in
  let slicesPerRow := ceil_sqrt depth in
  let rows := ceil_div depth slicesPerRow in
  let texWidth := slicesPerRow * width in
  let texHeight := rows * height in
  let textureData :=
    stores (replicate (texWidth * texHeight) 0%Z)
           (pack_writes (data v) width height depth slicesPerRow texWidth) in
  (textureData, TextureLayout texWidth texHeight depth (width, height, depth)).

(** The atlas pixel of a voxel and the voxel of an atlas pixel, in the
    words of the specification ([tileCol = z mod tileCountPerRow],
    [tileRow = floor(z / tileCountPerRow)]). *)
Definition atlas_pixel (width height tileCountPerRow : nat) (x y z : nat) : nat * nat :=
  ((z mod tileCountPerRow) * width + x, (z / tileCountPerRow) * height + y).

Definition voxel_of_pixel (width height tileCountPerRow : nat) (px py : nat)
  : nat * nat * nat :=
  (px mod width, py mod height, (py / height) * tileCountPerRow + px / width).

(** Row-major addressing of the two buffers. *)
Definition texel (textureData : list Z) (texWidth : nat) (p : nat * nat) : option Z :=
  textureData !! (p.2 * texWidth + p.1).

Definition voxel (v : volumeData) (x y z : nat) : option Q :=
  let '(width, height, _) := dimensions v in
  data v !! (z * width * height + y * width + x).

(** The Volume invariant of the data model: one unsigned 8-bit sample per
    voxel. *)
Definition is_volume (v : volumeData) : Prop :=
  let '(width, height, depth) := dimensions v in
  List.length (data v) = width * height * depth ∧
  Forall (fun q => ∃ b : Z, (0 <= b <= 255)%Z ∧ q = inject_Z b) (data v).

(** *** Statements used below *)

(** Three nested counting loops [for z < d, for y < h, for x < w], as the
    list of what the body yields. *)
Definition loop3 {B} (f : nat → nat → nat → B) (d h w : nat) : list B :=
  z ← seq 0 d; y ← seq 0 h; x ← seq 0 w; [f z y x].

(** What C1 says of a volume: the layout recorded is the tiling of the data
    model; every voxel sits at its atlas pixel, from which the inverse
    mapping leads back to it; and every atlas pixel whose inverse image is
    a voxel of the volume holds that voxel's value. *)
Definition tiling_recovers (vd : list Q) (width height depth : nat) : Prop :=
  let v := VolumeData vd (width, height, depth) in
  let tileCountPerRow := ceil_sqrt depth in
  let tileRows := ceil_div depth tileCountPerRow in
  let atlas := (loadVolume v).1 in
  let atlasWidth := tl_width (loadVolume v).2 in
  let atlasHeight := tl_height (loadVolume v).2 in
  atlasWidth = tileCountPerRow * width ∧ atlasHeight = tileRows * height ∧
  (∀ x y z, x < width → y < height → z < depth →
     let p := atlas_pixel width height tileCountPerRow x y z in
     p.1 < atlasWidth ∧ p.2 < atlasHeight ∧
     is_Some (voxel v x y z) ∧
     inject_Z <$> texel atlas atlasWidth p = voxel v x y z ∧
     voxel_of_pixel width height tileCountPerRow p.1 p.2 = (x, y, z)) ∧
  (∀ px py, px < atlasWidth → py < atlasHeight →
     let '(x, y, z) := voxel_of_pixel width height tileCountPerRow px py in
     z < depth →
     x < width ∧ y < height ∧
     atlas_pixel width height tileCountPerRow x y z = (px, py) ∧
     inject_Z <$> texel atlas atlasWidth (px, py) = voxel v x y z).

End Atlas.

(* ===================================================================== *)
(** ** The fragment shader of VolumeRaycaster (GLSL, part_000 lines 53-223;
       sampleVolume is repeated verbatim in src/volumerenderer.js) *)
(* ===================================================================== *)

Module Shader.

Local Open Scope Q_scope.

Record vec2 := Vec2 { v2_x : Q; v2_y : Q }.
Record vec3 := Vec3 { v_x : Q; v_y : Q; v_z : Q }.
Record vec4 := Vec4 { c_r : Q; c_g : Q; c_b : Q; c_a : Q }.

(** GLSL built-ins, componentwise where the shader uses them on vectors. *)
Definition clamp (x lo hi : Q) : Q := Qmin (Qmax x lo) hi.
Definition floor (x : Q) : Q := inject_Z (Qfloor x).
Definition fract (x : Q) : Q := x - floor x.
Definition mod_ (x y : Q) : Q := x - y * floor (x / y).
Definition mix (a b t : Q) : Q := a * (1 - t) + b * t.
Definition ltb (x y : Q) : bool := negb (Qle_bool y x).
Definition leb (x y : Q) : bool := Qle_bool x y.

Definition clamp3 (p : vec3) (lo hi : Q) : vec3 :=
  Vec3 (clamp (v_x p) lo hi) (clamp (v_y p) lo hi) (clamp (v_z p) lo hi).
Definition clamp4 (c : vec4) (lo hi : Q) : vec4 :=
  Vec4 (clamp (c_r c) lo hi) (clamp (c_g c) lo hi) (clamp (c_b c) lo hi) (clamp (c_a c) lo hi).
Definition add3 (p q : vec3) : vec3 := Vec3 (v_x p + v_x q) (v_y p + v_y q) (v_z p + v_z q).
Definition sub3 (p q : vec3) : vec3 := Vec3 (v_x p - v_x q) (v_y p - v_y q) (v_z p - v_z q).
Definition div3 (p q : vec3) : vec3 := Vec3 (v_x p / v_x q) (v_y p / v_y q) (v_z p / v_z q).
Definition scale3 (p : vec3) (k : Q) : vec3 := Vec3 (v_x p * k) (v_y p * k) (v_z p * k).
Definition min3 (p q : vec3) : vec3 := Vec3 (Qmin (v_x p) (v_x q)) (Qmin (v_y p) (v_y q)) (Qmin (v_z p) (v_z q)).
Definition max3 (p q : vec3) : vec3 := Vec3 (Qmax (v_x p) (v_x q)) (Qmax (v_y p) (v_y q)) (Qmax (v_z p) (v_z q)).
Definition splat3 (k : Q) : vec3 := Vec3 k k k.
Definition splat4 (k : Q) : vec4 := Vec4 k k k k.
Definition add4 (c d : vec4) : vec4 := Vec4 (c_r c + c_r d) (c_g c + c_g d) (c_b c + c_b d) (c_a c + c_a d).
Definition scale4 (k : Q) (c : vec4) : vec4 := Vec4 (k * c_r c) (k * c_g c) (k * c_b c) (k * c_a c).

(** [mat3] is column-major: three column vectors. *)
Record mat3 := Mat3 { col0 : vec3; col1 : vec3; col2 : vec3 }.
Definition mulMV (m : mat3) (v : vec3) : vec3 :=
  add3 (add3 (scale3 (col0 m) (v_x v)) (scale3 (col1 m) (v_y v))) (scale3 (col2 m) (v_z v)).

(** The uniforms the shader reads.  The two rotation angles enter only
    through their cosine and sine, which are carried as given values. *)
Record uniforms := Uniforms {
  u_textureWidth : Q;
  u_textureHeight : Q;
  u_slices : Q;
  u_threshold : Q;
  u_opacity : Q;
  u_windowLevel : Q;
  u_windowWidth : Q;
  u_volumeSize : vec3;
  u_zoom : Q;
  cos_rotationX : Q;
  sin_rotationX : Q;
  cos_rotationY : Q;
  sin_rotationY : Q
}.

(** [texture2D(u_volumeTexture, uv).r]: the texture unit, with whatever
    filtering it applies, as a function of the coordinate. *)
Definition sampler2D := vec2 → Q.

(** sampleVolume, lines 71-110. *)
Definition sampleVolume (U : uniforms) (u_volumeTexture : sampler2D) (pos : vec3) : Q :=
  let pos := clamp3 pos (1 # 1000) (999 # 1000) in
  let sliceF := v_z pos * u_slices U in
  let sliceIdx := floor sliceF in
  let sliceFrac := fract sliceF in
  let uv := Vec2 (v_x pos) (v_y pos) in
  let slicesPerRow := u_textureWidth U / v_x (u_volumeSize U) in
  let row := floor (sliceIdx / slicesPerRow) in
  let col := mod_ sliceIdx slicesPerRow in
  let sliceSize := Vec2 (v_x (u_volumeSize U) / u_textureWidth U)
                        (v_y (u_volumeSize U) / u_textureHeight U) in
  let sliceOffset := Vec2 (col * v_x (u_volumeSize U) / u_textureWidth U)
                          (row * v_y (u_volumeSize U) / u_textureHeight U) in
  let uv := Vec2 (v2_x uv * v2_x sliceSize + v2_x sliceOffset)
                 (v2_y uv * v2_y sliceSize + v2_y sliceOffset) in
  let value1 := u_volumeTexture uv in
  if ltb 0 sliceFrac && ltb sliceIdx (u_slices U - 1) then
    let nextSliceIdx := sliceIdx + 1 in
    let nextRow := floor (nextSliceIdx / slicesPerRow) in
    let nextCol := mod_ nextSliceIdx slicesPerRow in
    let nextSliceOffset := Vec2 (nextCol * v_x (u_volumeSize U) / u_textureWidth U)
                                (nextRow * v_y (u_volumeSize U) / u_textureHeight U) in
    let nextUv := Vec2 (v2_x uv - v2_x sliceOffset + v2_x nextSliceOffset)
                       (v2_y uv - v2_y sliceOffset + v2_y nextSliceOffset) in
    let value2 := u_volumeTexture nextUv in
    mix value1 value2 sliceFrac
  else value1.

(** The uniforms that [render] sets from the layout recorded by loadVolume
    (lines 441-447); the transfer-function and camera uniforms are free. *)
Definition layout_ok (U : uniforms) (width height depth : nat) : Prop :=
  let slicesPerRow := Atlas.ceil_sqrt depth in
  let rows := Atlas.ceil_div depth slicesPerRow in
  u_textureWidth U = inject_Z (Z.of_nat (slicesPerRow * width)) ∧
  u_textureHeight U = inject_Z (Z.of_nat (rows * height)) ∧
  u_slices U = inject_Z (Z.of_nat depth) ∧
  u_volumeSize U = Vec3 (inject_Z (Z.of_nat width)) (inject_Z (Z.of_nat height))
                        (inject_Z (Z.of_nat depth)).


Section Main.

Variable U : uniforms.
Variable u_volumeTexture : sampler2D.

(** [0.3 + 0.7 * max(dot(normalize(vec3(dx, dy, dz)), normalize(vec3(1.0,
    1.0, -1.0))), 0.0)] (lines 204-208): [normalize] takes a square root,
    so the value is carried as a function of the three differences. *)
Variable lighting : Q → Q → Q → Q.

(** The colour of the no-volume test pattern (lines 115-118, sines and
    cosines of the texture coordinate). *)
Variable pattern : vec2 → vec4.

(** The state of the marching loop; [m_samples] records every call of
    sampleVolume, in order. *)
Record march_state := MarchState {
  m_tNear : Q;
  m_colorAccum : vec4;
  m_samples : list vec3
}.

Definition stepSize : Q := 1 # 100.

(** One iteration of the loop at lines 176-220; [None] is [break]. *)
Definition march_body (rayOrigin rayDir : vec3) (tFar : Q) (st : march_state)
  : option march_state :=
  let tNear := m_tNear st in
  let colorAccum := m_colorAccum st in
  if leb tFar tNear || leb (95 # 100) (c_a colorAccum) then None
  else
    let currentPos := add3 rayOrigin (scale3 rayDir tNear) in
    let volCoord := add3 currentPos (splat3 (1 # 2)) in
    let density := sampleVolume U u_volumeTexture volCoord in
    let windowMin := u_windowLevel U - u_windowWidth U * (1 # 2) in
    let windowMax := u_windowLevel U + u_windowWidth U * (1 # 2) in
    let normalizedDensity := (density - windowMin) / (windowMax - windowMin) in
    let normalizedDensity := clamp normalizedDensity 0 1 in
    if ltb (u_threshold U / 255) normalizedDensity then
      let intensity := normalizedDensity in
      let px := add3 volCoord (Vec3 (1 # 100) 0 0) in
      let mx := sub3 volCoord (Vec3 (1 # 100) 0 0) in
      let py := add3 volCoord (Vec3 0 (1 # 100) 0) in
      let my := sub3 volCoord (Vec3 0 (1 # 100) 0) in
      let pz := add3 volCoord (Vec3 0 0 (1 # 100)) in
      let mz := sub3 volCoord (Vec3 0 0 (1 # 100)) in
      let dx := sampleVolume U u_volumeTexture px - sampleVolume U u_volumeTexture mx in
      let dy := sampleVolume U u_volumeTexture py - sampleVolume U u_volumeTexture my in
      let dz := sampleVolume U u_volumeTexture pz - sampleVolume U u_volumeTexture mz in
      let light := lighting dx dy dz in
      let voxelColor := Vec4 (intensity * light) (intensity * light) (intensity * light)
                             (intensity * u_opacity U) in
      let voxelColor := Vec4 (c_r voxelColor * c_a voxelColor) (c_g voxelColor * c_a voxelColor)
                             (c_b voxelColor * c_a voxelColor) (c_a voxelColor) in
      let colorAccum := add4 colorAccum (scale4 (1 - c_a colorAccum) voxelColor) in
      Some (MarchState (tNear + stepSize) colorAccum
                       (m_samples st ++ [volCoord; px; mx; py; my; pz; mz]))
    else
      Some (MarchState (tNear + stepSize) colorAccum (m_samples st ++ [volCoord])).

(** [n] iterations of the loop, stopping at a [break]. *)
Fixpoint march (n : nat) (rayOrigin rayDir : vec3) (tFar : Q) (st : march_state)
  : march_state :=
  match n with
  | O => st
  | S n' =>
      match march_body rayOrigin rayDir tFar st with
      | None => st
      | Some st' => march n' rayOrigin rayDir tFar st'
      end
  end.

(** Lines 150-161: the slab test against [-0.5, 0.5]^3.  A zero component
    of [rayDir] divides by zero in the shader.  GLSL ES 1.00 (4.5.1) leaves
    the result unspecified, and GPUs yield an infinity or a NaN, none of
    which is a rational: [slab] gives [tNear] and [tFar] for the rays with
    no zero direction component and [None] for the others. *)
Definition slab (rayOrigin rayDir : vec3) : option (Q * Q) :=
  if Qeq_bool (v_x rayDir) 0 || Qeq_bool (v_y rayDir) 0 || Qeq_bool (v_z rayDir) 0 then None
  else
    let volumeMin := splat3 (- (1 # 2)) in
    let volumeMax := splat3 (1 # 2) in
    let tMin := div3 (sub3 volumeMin rayOrigin) rayDir in
    let tMax := div3 (sub3 volumeMax rayOrigin) rayDir in
    let t1 := min3 tMin tMax in
    let t2 := max3 tMin tMax in
    let tNear := Qmax (Qmax (v_x t1) (v_y t1)) (v_z t1) in
    let tFar := Qmin (Qmin (v_x t2) (v_y t2)) (v_z t2) in
    Some (tNear, tFar).

(** Lines 163-222: what the shader does once [tNear] and [tFar] are known,
    for any two finite values of them.  The result is [gl_FragColor] and
    the sampleVolume calls made. *)
Definition shade (rayOrigin rayDir : vec3) (tNear tFar : Q) : vec4 * list vec3 :=
  if ltb tFar tNear || ltb tFar 0 then (splat4 0, [])
  else
    let tNear := Qmax 0 tNear in
    let st := march 200 rayOrigin rayDir tFar (MarchState tNear (splat4 0) []) in
    (clamp4 (m_colorAccum st) 0 1, m_samples st).

(** Lines 123-147: the ray of the pixel at [v_texCoord]. *)
Definition pixel_ray (v_texCoord : vec2) : vec3 * vec3 :=
  let rayOrigin := scale3 (Vec3 (v2_x v_texCoord - (1 # 2)) (v2_y v_texCoord - (1 # 2)) (- 2))
                          (u_zoom U) in
  let rayDir := Vec3 0 0 1 in
  let cosX := cos_rotationX U in
  let sinX := sin_rotationX U in
  let cosY := cos_rotationY U in
  let sinY := sin_rotationY U in
  let rotY := Mat3 (Vec3 cosY 0 (- sinY)) (Vec3 0 1 0) (Vec3 sinY 0 cosY) in
  let rotX := Mat3 (Vec3 1 0 0) (Vec3 0 cosX (- sinX)) (Vec3 0 sinX cosX) in
  (mulMV rotY (mulMV rotX rayOrigin), mulMV rotY (mulMV rotX rayDir)).

(** main, lines 112-223; [None] where [slab] is: on a ray with a zero
    direction component (every ray of the unrotated camera is one) the
    shader goes on with the infinities of the GPU, which [shade] does not
    take. *)
Definition main (v_texCoord : vec2) : option (vec4 * list vec3) :=
  if leb (u_slices U) 0 then Some (pattern v_texCoord, [])
  else
    let '(rayOrigin, rayDir) := pixel_ray v_texCoord in
    match slab rayOrigin rayDir with
    | Some (tNear, tFar) => Some (shade rayOrigin rayDir tNear tFar)
    | None => None
    end.

End Main.

(** *** Names and examples used below *)

Abbreviation iz n := (inject_Z (Z.of_nat n)).

(** The pieces of sampleVolume by name: the slice coordinate, the two
    texture coordinates it may fetch, and whether it blends. *)
Definition slice_coord (U : uniforms) (pos : vec3) : Q :=
  v_z (clamp3 pos (1 # 1000) (999 # 1000)) * u_slices U.

Definition tile_offset (U : uniforms) (idx : Q) : vec2 :=
  let slicesPerRow := u_textureWidth U / v_x (u_volumeSize U) in
  Vec2 (mod_ idx slicesPerRow * v_x (u_volumeSize U) / u_textureWidth U)
       (floor (idx / slicesPerRow) * v_y (u_volumeSize U) / u_textureHeight U).

Definition first_uv (U : uniforms) (pos : vec3) : vec2 :=
  let p := clamp3 pos (1 # 1000) (999 # 1000) in
  let off := tile_offset U (floor (slice_coord U pos)) in
  Vec2 (v_x p * (v_x (u_volumeSize U) / u_textureWidth U) + v2_x off)
       (v_y p * (v_y (u_volumeSize U) / u_textureHeight U) + v2_y off).

Definition next_uv (U : uniforms) (pos : vec3) : vec2 :=
  let off := tile_offset U (floor (slice_coord U pos)) in
  let noff := tile_offset U (floor (slice_coord U pos) + 1) in
  Vec2 (v2_x (first_uv U pos) - v2_x off + v2_x noff)
       (v2_y (first_uv U pos) - v2_y off + v2_y noff).

Definition blends (U : uniforms) (pos : vec3) : bool :=
  ltb 0 (fract (slice_coord U pos)) && ltb (floor (slice_coord U pos)) (u_slices U - 1).

(** *** Example uniforms *)

(** A 1 x 1 x 2 volume (two tiles side by side), the window [0,1], no
    threshold, opacity 0.8, zoom 1, and a camera turned by the angles whose
    cosine and sine are 3/5 and 4/5. *)
Definition demo_uniforms : uniforms :=
  Uniforms 2 1 2 0 (4 # 5) (1 # 2) 1 (Vec3 1 1 2) 1 (3 # 5) (4 # 5) (3 # 5) (4 # 5).

(** Tile 0 is empty, tile 1 is full. *)
Definition demo_texture : sampler2D :=
  λ uv, if leb (v2_x uv) (1 # 2) then 0 else 1.

Definition demo_lighting : Q → Q → Q → Q := λ _ _ _, 1.
Definition demo_pattern : vec2 → vec4 := λ _, Vec4 1 1 1 1.

End Shader.

(* ===================================================================== *)
(** ** Statements about colours and positions, and the uniforms of a
       frame *)
(* ===================================================================== *)

Module ShaderNames.
Import Shader.
Local Open Scope Q_scope.
(** A premultiplied colour: each colour channel between 0 and alpha, alpha
    at most 1. *)
Definition premultiplied (c : vec4) : Prop :=
  0 <= c_r c <= c_a c ∧ 0 <= c_g c <= c_a c ∧ 0 <= c_b c <= c_a c ∧ c_a c <= 1.

(** A volume coordinate within one gradient offset (0.01) of the unit
    cube. *)
Definition near_cube (p : vec3) : Prop :=
  - (1 # 100) <= v_x p <= 101 # 100 ∧ - (1 # 100) <= v_y p <= 101 # 100 ∧
  - (1 # 100) <= v_z p <= 101 # 100.

(** VolumeRaycaster.render, lines 436-462: the uniforms set for a frame
    when a volume has been loaded, from the layout loadVolume recorded and
    the renderer's transfer-function and camera fields. *)
Definition render_uniforms (layout : Atlas.textureLayout)
    (threshold opacity windowLevel windowWidth zoom cosX sinX cosY sinY : Q) : uniforms :=
  let '(width, height, depth) := Atlas.tl_volumeSize layout in
  Uniforms (iz (Atlas.tl_width layout)) (iz (Atlas.tl_height layout))
           (iz (Atlas.tl_slices layout)) threshold opacity windowLevel windowWidth
           (Vec3 (iz width) (iz height) (iz depth)) zoom cosX sinX cosY sinY.

End ShaderNames.
Export ShaderNames.

(* ===================================================================== *)
(** ** The texture of the atlas: upload and filtering as loadVolume sets
       them up (WebGL 1 / OpenGL ES 2.0) *)
(* ===================================================================== *)

Module Texture.
Import Atlas Shader.
Local Open Scope Q_scope.

(** The image of a texture: its size and the luminance of texel (i, j),
    for i < width and j < height. *)
Record image := Image {
  i_width : nat;
  i_height : nat;
  i_texel : nat → nat → Q
}.

(** [gl.texImage2D(gl.TEXTURE_2D, 0, gl.LUMINANCE, width, height, 0,
    gl.LUMINANCE, gl.UNSIGNED_BYTE, pixels)].  No source file calls
    [pixelStorei], so UNPACK_ALIGNMENT has its initial value 4: every row
    of [pixels] is taken to start at a multiple of 4 bytes, and the call
    needs [row_stride * (height - 1) + width] bytes.  With fewer bytes it
    generates INVALID_OPERATION, with a side longer than MAX_TEXTURE_SIZE
    (a limit of the device) INVALID_VALUE; either way no image is defined:
    [None].  A byte [b] is the luminance [b / 255]. *)
Definition row_stride (width : nat) : nat := ((width + 3) / 4 * 4)%nat.

Definition required_size (width height : nat) : nat :=
  match height with
  | O => 0%nat
  | S h => (row_stride width * h + width)%nat
  end.

Definition texImage2D (max_texture_size width height : nat) (pixels : list Z)
  : option image :=
  if (width <=? max_texture_size)%nat && (height <=? max_texture_size)%nat
     && (required_size width height <=? List.length pixels)%nat
  then Some (Image width height
               (λ i j, inject_Z (default 0%Z (pixels !! (j * row_stride width + i)%nat)) / 255))
  else None.

(** TEXTURE_WRAP_S and TEXTURE_WRAP_T are CLAMP_TO_EDGE in every
    loadVolume: a texel index beyond the image is moved to its edge (the
    wording of OpenGL ES 3.0; that of ES 2.0 follows below and gives the
    same values, lemma [TextureSpec.filters_es2]). *)
Definition edge (size : nat) (i : Z) : nat :=
  Z.to_nat (Z.max 0 (Z.min (Z.of_nat size - 1) i)).

Definition fetch (img : image) (i j : Z) : Q :=
  i_texel img (edge (i_width img) i) (edge (i_height img) j).

(** The filter NEAREST: the texel whose cell holds the coordinate. *)
Definition nearest (img : image) : sampler2D :=
  λ uv, fetch img (Qfloor (v2_x uv * iz (i_width img)))
                  (Qfloor (v2_y uv * iz (i_height img))).

(** The filter LINEAR (OpenGL ES 2.0, 3.7.7): the four texels around the
    coordinate, weighted by its distances from their centres. *)
Definition linear (img : image) : sampler2D :=
  λ uv,
    let u := v2_x uv * iz (i_width img) - (1 # 2) in
    let v := v2_y uv * iz (i_height img) - (1 # 2) in
    let i0 := Qfloor u in
    let j0 := Qfloor v in
    let alpha := u - inject_Z i0 in
    let beta := v - inject_Z j0 in
    (1 - alpha) * (1 - beta) * fetch img i0 j0
    + alpha * (1 - beta) * fetch img (i0 + 1) j0
    + (1 - alpha) * beta * fetch img i0 (j0 + 1)
    + alpha * beta * fetch img (i0 + 1) (j0 + 1).

(** The two filters in the words of OpenGL ES 2.0 (3.7.6 and 3.7.7), where
    CLAMP_TO_EDGE clamps the coordinate to [1/2N, 1 - 1/2N] before the
    texels are chosen, instead of moving the texels chosen to the edge.
    In units of texels the range is [1/2, N - 1/2]. *)
Definition clamp_to_edge (size : nat) (u : Q) : Q :=
  Qmax (1 # 2) (Qmin (iz size - (1 # 2)) u).

Definition nearest_es2 (img : image) : sampler2D :=
  λ uv,
    let u := clamp_to_edge (i_width img) (v2_x uv * iz (i_width img)) in
    let v := clamp_to_edge (i_height img) (v2_y uv * iz (i_height img)) in
    i_texel img (Z.to_nat (Qfloor u)) (Z.to_nat (Qfloor v)).

Definition linear_es2 (img : image) : sampler2D :=
  λ uv,
    let u := clamp_to_edge (i_width img) (v2_x uv * iz (i_width img)) - (1 # 2) in
    let v := clamp_to_edge (i_height img) (v2_y uv * iz (i_height img)) - (1 # 2) in
    let i0 := Qfloor u in
    let j0 := Qfloor v in
    let alpha := u - inject_Z i0 in
    let beta := v - inject_Z j0 in
    (1 - alpha) * (1 - beta) * i_texel img (Z.to_nat i0) (Z.to_nat j0)
    + alpha * (1 - beta) * i_texel img (Z.to_nat (i0 + 1)) (Z.to_nat j0)
    + (1 - alpha) * beta * i_texel img (Z.to_nat i0) (Z.to_nat (j0 + 1))
    + alpha * beta * i_texel img (Z.to_nat (i0 + 1)) (Z.to_nat (j0 + 1)).

(** [texture2D(u_volumeTexture, uv).r] on the texture bound to the unit.
    A texture for which no image has been defined is incomplete and is
    sampled as (0, 0, 0, 1). *)
Definition texture2D (filter : image → sampler2D) (bound : option image) : sampler2D :=
  match bound with
  | Some img => filter img
  | None => λ _, 0
  end.

(** The texture unit the fragment shader of VolumeRaycaster reads, after
    loadVolume (lines 370-402: createTexture, LINEAR, CLAMP_TO_EDGE,
    texImage2D) on a renderer that has loaded no volume before. *)
Definition raycaster_unit (max_texture_size : nat) (v : volumeData) : sampler2D :=
  texture2D linear
    (texImage2D max_texture_size (tl_width (loadVolume v).2) (tl_height (loadVolume v).2)
                (loadVolume v).1).

(** The same for SimpleSliceRenderer (src/volumerenderer.js lines
    1096-1161) and BasicVolumeRenderer (src/basic_renderer.js lines
    152-217), whose loadVolume packs the same atlas and sets NEAREST. *)
Definition nearest_unit (max_texture_size : nat) (v : volumeData) : sampler2D :=
  texture2D nearest
    (texImage2D max_texture_size (tl_width (loadVolume v).2) (tl_height (loadVolume v).2)
                (loadVolume v).1).

(** *** Statements used below *)

(** The sizes for which the upload of [width * height] bytes goes
    through: within the limit of the device, and with rows that end on a
    multiple of 4 bytes unless there is but one row. *)
Definition uploads (max_texture_size width height : nat) : Prop :=
  (width ≤ max_texture_size)%nat ∧ (height ≤ max_texture_size)%nat ∧
  (height ≤ 1 ∨ width mod 4 = 0)%nat.

(** The luminance of a voxel that holds a byte. *)
Definition luminance (v : volumeData) (x y z : nat) : Q :=
  default 0 (voxel v x y z) / 255.

(** A texture that holds slice [z] of a volume alone, a texel per voxel. *)
Definition slice_image (v : volumeData) (z : nat) : image :=
  let '(width, height, _) := dimensions v in
  Image width height (λ x y, luminance v x y z).

(** In a [width] x [height] image, the points (x, y) of the unit square
    that lie at least half a texel away from the border: those between
    the centres of the outermost texels. *)
Definition between_centres (width height : nat) (x y : Q) : Prop :=
  1 # 2 <= x * iz width <= iz width - (1 # 2) ∧
  1 # 2 <= y * iz height <= iz height - (1 # 2).


(** *** Example volumes *)


(** Three slices of 2 x 1 voxels, constant [a], [b] and [c].  The atlas is
    4 x 2, with slices 0 and 1 in its first row, slice 2 and a padding
    tile in its second. *)
Definition three_slices (a b c : Z) : volumeData :=
  VolumeData (inject_Z <$> [a; a; b; b; c; c]) (2, 1, 3)%nat.

End Texture.

(* ===================================================================== *)
(** ** The fragment shader of VolumeRenderer (src/volumerenderer.js lines
       63-166); its sampleVolume is the one above *)
(* ===================================================================== *)

Module Renderer.
Import Shader.
Local Open Scope Q_scope.

Section Main.

(** Of the uniforms this shader declares, [Shader.uniforms] carries the
    texture layout, [u_threshold] and [u_opacity]; [u_lightPos] enters
    through [lighting] only. *)
Variable U : uniforms.
Variable u_volumeTexture : sampler2D.

(** [0.2 + 0.8 * max(dot(normalize(rayDir), normalize(u_lightPos -
    currentPos)), 0.0)] (lines 149-151), a function of the position:
    [normalize] takes a square root. *)
Variable lighting : vec3 → Q.

Definition stepSize : Q := 1 # 100.

(** [currentPos.x < 0.0 || currentPos.x > 1.0 || ...], lines 135-137. *)
Definition out_of_bounds (p : vec3) : bool :=
  ltb (v_x p) 0 || ltb 1 (v_x p) || ltb (v_y p) 0 || ltb 1 (v_y p)
  || ltb (v_z p) 0 || ltb 1 (v_z p).

(** Iterations [i, i+1, ...] of the loop of lines 131-162, at most [n] of
    them, from the accumulated colour and the log of sampleVolume calls.
    [rayDir] is [normalize(vec3(v_texCoord, 1.0) - vec3(v_texCoord, 0.0))],
    the unit vector along z. *)
Fixpoint march (n : nat) (v_texCoord : vec2) (i : nat) (colorAccum : vec4)
  (samples : list vec3) : vec4 * list vec3 :=
  match n with
  | O => (colorAccum, samples)
  | S n' =>
      let rayStart := Vec3 (v2_x v_texCoord) (v2_y v_texCoord) 0 in
      let rayDir := Vec3 0 0 1 in
      let currentPos := add3 rayStart (scale3 (scale3 rayDir (iz i)) stepSize) in
      if out_of_bounds currentPos then (colorAccum, samples)
      else
        let density := sampleVolume U u_volumeTexture currentPos in
        let samples := samples ++ [currentPos] in
        if ltb (u_threshold U / 255) density then
          let intensity := (density - u_threshold U / 255) / (1 - u_threshold U / 255) in
          let light := lighting currentPos in
          let voxelColor := Vec4 (intensity * light) (intensity * light) (intensity * light)
                                 (intensity * u_opacity U) in
          let voxelColor := Vec4 (c_r voxelColor) (c_g voxelColor) (c_b voxelColor)
                                 (c_a voxelColor * intensity) in
          let colorAccum := add4 colorAccum (scale4 (1 - c_a colorAccum) voxelColor) in
          if ltb (95 # 100) (c_a colorAccum) then (colorAccum, samples)
          else march n' v_texCoord (S i) colorAccum samples
        else march n' v_texCoord (S i) colorAccum samples
  end.

(** main: gl_FragColor and the sampleVolume calls made. *)
Definition main (v_texCoord : vec2) : vec4 * list vec3 :=
  let r := march 200 v_texCoord 0 (splat4 0) [] in
  (clamp4 r.1 0 1, r.2).

End Main.

End Renderer.

(* ===================================================================== *)
(** ** The settings a renderer starts with *)
(* ===================================================================== *)

Module Settings.
Import Shader.
Local Open Scope Q_scope.

(** VolumeRaycaster.init, lines 20-28, as render hands them to the shader
    once a volume is loaded: threshold 100, opacity 0.8, window level 128
    and width 256, zoom 1 and no rotation (cosine 1, sine 0). *)
Definition init_uniforms (layout : Atlas.textureLayout) : uniforms :=
  render_uniforms layout 100 (8 # 10) 128 256 1 1 0 1 0.

End Settings.

(* ===================================================================== *)
(** ** The slice views: SimpleSliceRenderer (src/volumerenderer.js),
       SimpleVolumeRenderer (src/unnamed/part_001) and BasicVolumeRenderer
       (src/basic_renderer.js) *)
(* ===================================================================== *)

(** Each fragment shader fetches one texel of the atlas; [main] yields
    gl_FragColor and the coordinate fetched (none for the test pattern,
    whose sines and cosines are carried as [pattern]).  Of [uniforms] the
    shaders read the layout, the threshold, the opacity and the window. *)

Module SimpleSliceRenderer.
Import Shader.
Local Open Scope Q_scope.

(** init, line 898. *)
Definition init_currentSlice : Q := 5 # 10.



(** The wheel handler, line 1092. *)
Definition wheel (currentSlice deltaY : Q) : Q :=
  Qmax 0 (Qmin 1 (currentSlice + (if ltb 0 deltaY then - (5 # 100) else 5 # 100))).


(** The fragment shader's main, lines 945-988. *)
Definition main (U : uniforms) (u_currentSlice : Q) (u_volumeTexture : sampler2D)
    (pattern : vec2 → vec4) (v_texCoord : vec2) : vec4 * list vec2 :=
  if leb (u_slices U) 0 then (pattern v_texCoord, [])
  else
    let sliceIndex := u_currentSlice * u_slices U in
    let sliceFloor := floor sliceIndex in
    let slicesPerRow := u_textureWidth U / v_x (u_volumeSize U) in
    let row := floor (sliceFloor / slicesPerRow) in
    let col := mod_ sliceFloor slicesPerRow in
    let sliceSize := Vec2 (v_x (u_volumeSize U) / u_textureWidth U)
                          (v_y (u_volumeSize U) / u_textureHeight U) in
    let sliceOffset := Vec2 (col * v_x (u_volumeSize U) / u_textureWidth U)
                            (row * v_y (u_volumeSize U) / u_textureHeight U) in
    let uv := Vec2 (v2_x v_texCoord * v2_x sliceSize + v2_x sliceOffset)
                   (v2_y v_texCoord * v2_y sliceSize + v2_y sliceOffset) in
    let density := u_volumeTexture uv in
    let windowMin := u_windowLevel U - u_windowWidth U * (1 # 2) in
    let windowMax := u_windowLevel U + u_windowWidth U * (1 # 2) in
    let normalizedDensity := (density - windowMin) / (windowMax - windowMin) in
    let normalizedDensity := clamp normalizedDensity 0 1 in
    let intensity :=
      if ltb normalizedDensity (u_threshold U / 255) then 0 else normalizedDensity in
    (Vec4 intensity intensity intensity 1, [uv]).

End SimpleSliceRenderer.

Module SimpleVolumeRenderer.
Import Shader.
Local Open Scope Q_scope.

(** The fields of the renderer that render reads: whether
    [this.volumeTexture] holds a texture (it is a WebGLTexture or null),
    [this.textureLayout] (undefined until loadVolume sets it), and the four
    settings. *)
Record renderer := Renderer {
  volumeTexture : bool;
  textureLayout : option Atlas.textureLayout;
  threshold : Q;
  opacity : Q;
  windowLevel : Q;
  windowWidth : Q
}.

(** init, lines 14-37.  setupTextures (lines 155-157) creates a texture;
    line 29 then sets [this.volumeTexture = null]. *)
Definition init : renderer := Renderer false None 100 (8 # 10) 128 256.

(** loadVolume, lines 208-265.  It binds [this.volumeTexture] as it finds
    it, uploads, and records the layout; it does not assign
    [this.volumeTexture]. *)
Definition loadVolume (r : renderer) (v : Atlas.volumeData) : renderer :=
  Renderer (volumeTexture r) (Some (Atlas.loadVolume v).2)
           (threshold r) (opacity r) (windowLevel r) (windowWidth r).

(** The setters, lines 267-281. *)
Definition setThreshold (r : renderer) (value : Q) : renderer :=
  Renderer (volumeTexture r) (textureLayout r) value (opacity r) (windowLevel r) (windowWidth r).
Definition setOpacity (r : renderer) (value : Q) : renderer :=
  Renderer (volumeTexture r) (textureLayout r) (threshold r) value (windowLevel r) (windowWidth r).
Definition setWindowLevel (r : renderer) (value : Q) : renderer :=
  Renderer (volumeTexture r) (textureLayout r) (threshold r) (opacity r) value (windowWidth r).
Definition setWindowWidth (r : renderer) (value : Q) : renderer :=
  Renderer (volumeTexture r) (textureLayout r) (threshold r) (opacity r) (windowLevel r) value.

(** A call of one of the methods that change these fields. *)
Inductive call :=
  | LoadVolume (v : Atlas.volumeData)
  | SetThreshold (value : Q)
  | SetOpacity (value : Q)
  | SetWindowLevel (value : Q)
  | SetWindowWidth (value : Q).

Definition perform (r : renderer) (c : call) : renderer :=
  match c with
  | LoadVolume v => loadVolume r v
  | SetThreshold value => setThreshold r value
  | SetOpacity value => setOpacity r value
  | SetWindowLevel value => setWindowLevel r value
  | SetWindowWidth value => setWindowWidth r value
  end.

(** render, lines 283-311: the uniforms of the draw call.  The layout
    uniforms are set under [if (this.volumeTexture && this.textureLayout)];
    otherwise only [u_slices] is set, to 0, and the others keep the 0 a
    uniform starts with.  (The camera uniforms of [Shader.uniforms] are not
    uniforms of this shader.) *)
Definition render (r : renderer) : uniforms :=
  match volumeTexture r, textureLayout r with
  | true, Some layout =>
      let '(width, height, depth) := Atlas.tl_volumeSize layout in
      Uniforms (iz (Atlas.tl_width layout)) (iz (Atlas.tl_height layout))
               (iz (Atlas.tl_slices layout))
               (threshold r) (opacity r) (windowLevel r) (windowWidth r)
               (Vec3 (iz width) (iz height) (iz depth)) 0 0 0 0 0
  | _, _ =>
      Uniforms 0 0 0 (threshold r) (opacity r) (windowLevel r) (windowWidth r)
               (Vec3 0 0 0) 0 0 0 0 0
  end.

(** GLSL [step(edge, x)]. *)
Definition step (edge x : Q) : Q := if ltb x edge then 0 else 1.

(** The fragment shader's main, lines 66-103. *)
Definition main (U : uniforms) (u_volumeTexture : sampler2D)
    (pattern : vec2 → vec4) (v_texCoord : vec2) : vec4 * list vec2 :=
  if leb (u_slices U) 0 then (pattern v_texCoord, [])
  else
    let sliceCenter := u_slices U * (1 # 2) in
    let uv := v_texCoord in
    let slicesPerRow := u_textureWidth U / v_x (u_volumeSize U) in
    let row := floor (sliceCenter / slicesPerRow) in
    let col := mod_ sliceCenter slicesPerRow in
    let sliceSize := Vec2 (v_x (u_volumeSize U) / u_textureWidth U)
                          (v_y (u_volumeSize U) / u_textureHeight U) in
    let sliceOffset := Vec2 (col * v_x (u_volumeSize U) / u_textureWidth U)
                            (row * v_y (u_volumeSize U) / u_textureHeight U) in
    let uv := Vec2 (v2_x uv * v2_x sliceSize + v2_x sliceOffset)
                   (v2_y uv * v2_y sliceSize + v2_y sliceOffset) in
    let density := u_volumeTexture uv in
    let windowMin := u_windowLevel U - u_windowWidth U * (1 # 2) in
    let windowMax := u_windowLevel U + u_windowWidth U * (1 # 2) in
    let normalizedDensity := (density - windowMin) / (windowMax - windowMin) in
    let normalizedDensity := clamp normalizedDensity 0 1 in
    let intensity := step (u_threshold U / 255) normalizedDensity * normalizedDensity in
    (Vec4 intensity intensity intensity (intensity * u_opacity U), [uv]).

End SimpleVolumeRenderer.

Module BasicVolumeRenderer.
Import Shader.
Local Open Scope Q_scope.

(** GLSL [int(x)] followed by [float(...)]: the fraction is dropped,
    towards zero. *)
Definition int (x : Q) : Q := inject_Z (Z.quot (Qnum x) (Z.pos (Qden x))).


(** The fragment shader's main, lines 54-83. *)
Definition main (U : uniforms) (u_currentSlice : Q) (u_volumeTexture : sampler2D)
    (pattern : vec2 → vec4) (v_texCoord : vec2) : vec4 * list vec2 :=
  if leb (u_slices U) 0 then (pattern v_texCoord, [])
  else
    let sliceIndex := u_currentSlice * u_slices U in
    let sliceInt := int sliceIndex in
    let slicesPerRow := u_textureWidth U / v_x (u_volumeSize U) in
    let row := floor (sliceInt / slicesPerRow) in
    let col := mod_ sliceInt slicesPerRow in
    let sliceSize := Vec2 (v_x (u_volumeSize U) / u_textureWidth U)
                          (v_y (u_volumeSize U) / u_textureHeight U) in
    let sliceOffset := Vec2 (col * v_x (u_volumeSize U) / u_textureWidth U)
                            (row * v_y (u_volumeSize U) / u_textureHeight U) in
    let uv := Vec2 (v2_x v_texCoord * v2_x sliceSize + v2_x sliceOffset)
                   (v2_y v_texCoord * v2_y sliceSize + v2_y sliceOffset) in
    let value := u_volumeTexture uv in
    (Vec4 value value value 1, [uv]).

End BasicVolumeRenderer.

(* ===================================================================== *)
(** ** Facts about sequences of stores *)
(* ===================================================================== *)

Section Stores.
Context {A : Type}.
Implicit Types (buf : list A) (ws : list (nat * A)).

Lemma stores_cons buf w ws : stores buf (w :: ws) = stores (store buf w) ws.
Proof. reflexivity. Qed.

Lemma stores_length buf ws : List.length (stores buf ws) = List.length buf.
Proof.
  revert buf. induction ws as [|w ws IH]; intros buf; [done|].
  rewrite stores_cons, IH. unfold store. apply length_insert.
Qed.

(** A cell no store addresses keeps its content. *)
Lemma stores_lookup_other buf ws i :
  i ∉ ws.*1 → stores buf ws !! i = buf !! i.
Proof.
  revert buf. induction ws as [|[j v] ws IH]; intros buf Hi; [done|].
  rewrite fmap_cons in Hi. apply not_elem_of_cons in Hi as [Hne Hi].
  rewrite stores_cons, IH by done. unfold store. cbn in *.
  by rewrite list_lookup_insert_ne.
Qed.

(** When no two stores address the same cell, each in-range store is
    visible in the final buffer. *)
Lemma stores_lookup_written buf ws i v :
  NoDup ws.*1 → (i, v) ∈ ws → i < List.length buf → stores buf ws !! i = Some v.
Proof.
  revert buf. induction ws as [|[j w] ws IH]; intros buf Hnd Hin Hlt.
  - by apply elem_of_nil in Hin.
  - rewrite fmap_cons in Hnd. apply NoDup_cons in Hnd as [Hj Hnd].
    rewrite stores_cons.
    apply elem_of_cons in Hin as [Heq|Hin].
    + inversion Heq; subst j w.
      rewrite stores_lookup_other by done.
      unfold store. cbn. by apply list_lookup_insert_eq.
    + apply IH; [done|done|]. unfold store. by rewrite length_insert.
Qed.

End Stores.

(* ===================================================================== *)
(** ** Facts about rounding *)
(* ===================================================================== *)

Lemma js_round_bounds (q : Q) (lo hi : Z) :
  (inject_Z lo <= q)%Q → (q <= inject_Z hi)%Q → (lo <= js_round q <= hi)%Z.
Proof.
  intros Hlo Hhi. unfold js_round. split.
  - rewrite <- (Qfloor_Z lo). apply Qfloor_resp_le. lra.
  - assert (q + (1 # 2) < inject_Z (hi + 1))%Q as Hlt.
    { rewrite inject_Z_plus. change (inject_Z 1) with 1%Q. lra. }
    pose proof (Qfloor_le (q + (1 # 2))) as Hfl.
    assert (inject_Z (Qfloor (q + (1 # 2))) < inject_Z (hi + 1))%Q as H by lra.
    rewrite <- Zlt_Qlt in H. lia.
Qed.

Lemma js_round_inject_Z (b : Z) : js_round (inject_Z b) = b.
Proof.
  assert (b <= js_round (inject_Z b) <= b)%Z by (apply js_round_bounds; lra). lia.
Qed.

Lemma clamp255_bounds (v : Z) : (0 <= clamp255 v <= 255)%Z.
Proof. unfold clamp255. lia. Qed.

Lemma clamp255_id (v : Z) : (0 <= v <= 255)%Z → clamp255 v = v.
Proof. unfold clamp255. lia. Qed.

(** On the voxels of the two-slice scenario the binary64 computation is
    exact: it yields 0, 127.5, 63.75 and 255, the values the rational model
    rounds. *)
Module Binary64Spec.
Import PrimFloat Binary64.
Local Open Scope float_scope.

Lemma normalize_arg_scenario :
  normalize_arg 0 2000 0 = 0 ∧ normalize_arg 0 2000 1000 = 127.5 ∧
  normalize_arg 0 2000 500 = 63.75 ∧ normalize_arg 0 2000 2000 = 255.
Proof. repeat split; reflexivity. Qed.

End Binary64Spec.

(* ===================================================================== *)
(** ** Properties of the DICOM decoder and the volume assembler *)
(* ===================================================================== *)

Module DicomSpec.
Import Dicom.

(** *** Element headers *)

(** The second test of the VR list (line 73) sits in the branch where the
    first one (line 60) failed: its padding-skipping arm cannot run. *)
Lemma read_header_short view offset c0 c1 :
  getUint8 view (offset + 4) = Some c0 →
  getUint8 view (offset + 5) = Some c1 →
  includes long_vrs (fromCharCode2 c0 c1) = false →
  read_header view offset = spec_header view offset.
Proof.
  intros H0 H1 Hvr. unfold read_header, spec_header.
  destruct (getUint16 view offset) as [g|]; [|done].
  destruct (getUint16 view (offset + 2)) as [e|]; [|done].
  cbn [mbind option_bind]. rewrite H0. cbn [mbind option_bind].
  rewrite H1. cbn [mbind option_bind]. by rewrite Hvr.
Qed.

(** For a long-form VR the value never starts 12 bytes after the tag: the
    live branch puts it at +10 (zero probe) or +14 (non-zero probe). *)
Lemma read_header_long view offset h :
  read_header view offset = Some h →
  includes long_vrs (h_vr h) = true →
  h_valueOffset h = offset + 10 ∨ h_valueOffset h = offset + 14.
Proof.
  unfold read_header. intros H Hvr.
  destruct (getUint16 view offset) as [g|]; [|done].
  destruct (getUint16 view (offset + 2)) as [e|]; [|done].
  destruct (getUint8 view (offset + 4)) as [c0|]; [|done].
  destruct (getUint8 view (offset + 5)) as [c1|]; [|done].
  cbn [mbind option_bind] in H.
  destruct (includes long_vrs (fromCharCode2 c0 c1)) eqn:E.
  - destruct (getUint32 view (offset + 6)) as [probe|] eqn:Ep; [|done].
    cbn [mbind option_bind] in H.
    destruct (probe =? 0)%Z; cbn [negb] in H.
    + rewrite Ep in H. cbn [mbind option_bind] in H.
      inversion H; subst h; cbn. left. lia.
    + destruct (getUint32 view (offset + 6 + 4)) as [len|]; [|done].
      inversion H; subst h; cbn. right. lia.
  - destruct (getUint16 view (offset + 6)) as [len|]; [|done].
    inversion H; subst h. cbn [h_vr] in Hvr. congruence.
Qed.

(** *** Sorting *)



(** The sort yields a permutation of its input, ascending by instance
    number, in which slices with the same instance number keep their
    encounter order: the three properties that define a stable sort. *)
Lemma insert_slice_Permutation s l : insert_slice s l ≡ₚ s :: l.
Proof.
  induction l as [|t l IH]; [done|]. cbn.
  destruct (s_instanceNumber s <=? s_instanceNumber t)%Z; [done|].
  rewrite IH. apply perm_swap.
Qed.

Lemma sort_slices_Permutation l : sort_slices l ≡ₚ l.
Proof.
  induction l as [|s l IH]; [done|]. cbn. by rewrite insert_slice_Permutation, IH.
Qed.

Lemma insert_slice_Sorted s l :
  Sorted by_instanceNumber l → Sorted by_instanceNumber (insert_slice s l).
Proof.
  induction 1 as [|t l Hl IH Hhd]; cbn; [by repeat constructor|].
  destruct (Z.leb_spec (s_instanceNumber s) (s_instanceNumber t)).
  - by repeat constructor.
  - constructor; [done|]. destruct Hhd as [|u l Htu]; cbn.
    + constructor. unfold by_instanceNumber. lia.
    + destruct (s_instanceNumber s <=? s_instanceNumber u)%Z;
        constructor; unfold by_instanceNumber in *; lia.
Qed.

Lemma sort_slices_Sorted l : Sorted by_instanceNumber (sort_slices l).
Proof. induction l; cbn; [constructor|by apply insert_slice_Sorted]. Qed.

Lemma insert_slice_stable (k : Z) s l :
  filter (λ t, s_instanceNumber t = k) (insert_slice s l)
  = filter (λ t, s_instanceNumber t = k) (s :: l).
Proof.
  induction l as [|t l IH]; [done|]. cbn [insert_slice].
  destruct (Z.leb_spec (s_instanceNumber s) (s_instanceNumber t)); [done|].
  rewrite filter_cons, IH, !filter_cons.
  repeat case_decide; (done || lia).
Qed.

Lemma sort_slices_stable (k : Z) l :
  filter (λ t, s_instanceNumber t = k) (sort_slices l)
  = filter (λ t, s_instanceNumber t = k) l.
Proof.
  induction l as [|s l IH]; [done|]. cbn [sort_slices].
  by rewrite insert_slice_stable, !filter_cons, IH.
Qed.
(** Insertions of slices with different instance numbers commute, in any
    list. *)
Lemma insert_slice_comm s t l :
  s_instanceNumber s ≠ s_instanceNumber t →
  insert_slice s (insert_slice t l) = insert_slice t (insert_slice s l).
Proof.
  intros Hne. induction l as [|u l IH]; cbn.
  - destruct (Z.leb_spec (s_instanceNumber s) (s_instanceNumber t));
    destruct (Z.leb_spec (s_instanceNumber t) (s_instanceNumber s)); (done || lia).
  - destruct (Z.leb_spec (s_instanceNumber t) (s_instanceNumber u));
    destruct (Z.leb_spec (s_instanceNumber s) (s_instanceNumber u)); cbn;
    repeat (match goal with
            | |- context [(?a <=? ?b)%Z] => destruct (Z.leb_spec a b)
            end; cbn); try done; try lia.
    by rewrite IH.
Qed.

Lemma sort_slices_perm l l' :
  l ≡ₚ l' → NoDup (s_instanceNumber <$> l) → sort_slices l = sort_slices l'.
Proof.
  induction 1 as [|s l l' Hp IH|s t l|l l' l'' Hp IH Hp' IH']; intros Hnd.
  - done.
  - cbn. rewrite fmap_cons in Hnd. apply NoDup_cons in Hnd as [_ Hnd]. by rewrite IH.
  - cbn. rewrite !fmap_cons in Hnd.
    apply NoDup_cons in Hnd as [Hts _].
    apply insert_slice_comm. intros Heq. apply Hts. rewrite Heq. left.
  - rewrite IH by done. apply IH'. by rewrite <- Hp.
Qed.

(** *** The fill loops *)




Lemma fill_length is16Bit slices sliceSize volumeSize :
  List.length (fill is16Bit slices sliceSize volumeSize) = volumeSize.
Proof. unfold fill. by rewrite stores_length, length_replicate. Qed.


(** *** Minimum and maximum *)

Lemma list_min_le l v : v ∈ l → (list_min l <= v)%Z.
Proof.
  unfold list_min. generalize (default 0%Z (head l)). intros d.
  induction l as [|a l IH]; intros Hin; [by apply elem_of_nil in Hin|].
  cbn. apply elem_of_cons in Hin as [->|Hin]; [lia|]. specialize (IH Hin). lia.
Qed.

Lemma list_max_ge l v : v ∈ l → (v <= list_max l)%Z.
Proof.
  unfold list_max. generalize (default 0%Z (head l)). intros d.
  induction l as [|a l IH]; intros Hin; [by apply elem_of_nil in Hin|].
  cbn. apply elem_of_cons in Hin as [->|Hin]; [lia|]. specialize (IH Hin). lia.
Qed.





(** *** Range of the normalised values *)

Lemma normalize_voxel_bounds minVal range v :
  (0 <= v - minVal <= range)%Z → (0 < range)%Z →
  (0 <= normalize_voxel minVal range v <= 255)%Z.
Proof.
  intros [H0 H1] Hr. unfold normalize_voxel.
  assert (0 < inject_Z range)%Q as Hr' by (change 0%Q with (inject_Z 0); by rewrite <- Zlt_Qlt).
  assert (0 <= inject_Z (v - minVal))%Q as H0' by (change 0%Q with (inject_Z 0); by rewrite <- Zle_Qle).
  assert (inject_Z (v - minVal) <= inject_Z range)%Q as H1' by (by rewrite <- Zle_Qle).
  assert (0 <= inject_Z (v - minVal) / inject_Z range)%Q as Hq0.
  { apply Qle_shift_div_l; [done|]. lra. }
  assert (inject_Z (v - minVal) / inject_Z range <= 1)%Q as Hq1.
  { apply Qle_shift_div_r; [done|]. lra. }
  apply js_round_bounds.
  - change (inject_Z 0) with 0%Q. lra.
  - change (inject_Z 255) with 255%Q. lra.
Qed.

(** *** The claims *)


(** The spread calls of normalize succeed exactly on buffers that are not
    longer than a call takes arguments. *)
Lemma normalize_Some max_arguments volumeData :
  (N.of_nat (List.length volumeData) <= max_arguments)%N →
  normalize max_arguments volumeData
  = Some ((λ v, (normalize_voxel (list_min volumeData)
                   (if (list_max volumeData - list_min volumeData =? 0)%Z then 1%Z
                    else (list_max volumeData - list_min volumeData)%Z) v mod 256)%Z)
          <$> volumeData).
Proof.
  intros H. unfold normalize, spread.
  by replace (N.of_nat (List.length volumeData) <=? max_arguments)%N with true
    by (symmetry; by apply N.leb_le).
Qed.

Lemma normalize_None max_arguments volumeData :
  (max_arguments < N.of_nat (List.length volumeData))%N →
  normalize max_arguments volumeData = None.
Proof.
  intros H. unfold normalize, spread.
  by replace (N.of_nat (List.length volumeData) <=? max_arguments)%N with false
    by (symmetry; by apply N.leb_gt).
Qed.

(** C2, as stated, fails: in no engine does the assembler produce the
    values {0,127} and {64,255} for the two-slice scenario (whatever
    dimensions go with them). *)
Lemma scenario_not_127 :
  ¬ ∃ max_arguments dims,
      processDicomFolder max_arguments scenario = Ok (Volume [0; 127; 64; 255]%Z dims).
Proof.
  intros (max_arguments & dims & H).
  destruct (N.le_gt_cases 4 max_arguments) as [Hle|Hgt].
  - unfold processDicomFolder, assemble in H. cbn [collect scenario] in H.
    change (sort_slices _) with [Slice (U16 [0; 1000]%Z) 1 2 1; Slice (U16 [500; 2000]%Z) 1 2 2] in H.
    cbv zeta in H. cbn [s_data is_Uint16Array s_rows s_columns] in H.
    rewrite normalize_Some in H.
    + vm_compute in H. discriminate H.
    + rewrite fill_length. cbn. lia.
  - unfold processDicomFolder, assemble in H. cbn [collect scenario] in H.
    change (sort_slices _) with [Slice (U16 [0; 1000]%Z) 1 2 1; Slice (U16 [500; 2000]%Z) 1 2 2] in H.
    cbv zeta in H. cbn [s_data is_Uint16Array s_rows s_columns] in H.
    rewrite normalize_None in H; [discriminate H|].
    rewrite fill_length. cbn. lia.
Qed.

(** C2, amended: for the two 16-bit slices {0,1000} and {500,2000} the
    global minimum and maximum are 0 and 2000, and the one-pass
    normalisation [Math.round((v - min) / range * 255)] yields {0,128} and
    {64,255}: the tie 127.5 is rounded upwards by [Math.round].  (The four
    voxels are spread into [Math.max] and [Math.min], which every engine
    that takes four arguments accepts.) *)
Theorem scenario_normalized (max_arguments : N) :
  (4 <= max_arguments)%N →
  list_min [0; 1000; 500; 2000]%Z = 0%Z ∧
  list_max [0; 1000; 500; 2000]%Z = 2000%Z ∧
  normalize max_arguments [0; 1000; 500; 2000]%Z = Some [0; 128; 64; 255]%Z ∧
  processDicomFolder max_arguments scenario = Ok (Volume [0; 128; 64; 255]%Z (2, 1, 2)).
Proof.
  intros H. split; [reflexivity|]. split; [reflexivity|].
  assert (normalize max_arguments [0; 1000; 500; 2000]%Z = Some [0; 128; 64; 255]%Z) as Hn.
  { rewrite normalize_Some by (cbn; lia). vm_compute. reflexivity. }
  split; [done|].
  unfold processDicomFolder, assemble. cbn [collect scenario].
  change (sort_slices _) with [Slice (U16 [0; 1000]%Z) 1 2 1; Slice (U16 [500; 2000]%Z) 1 2 2].
  cbv zeta. cbn [s_data is_Uint16Array s_rows s_columns].
  change (fill true _ _ _) with [0; 1000; 500; 2000]%Z.
  by rewrite Hn.
Qed.

Lemma scenario_normalized_witness :
  list_min [0; 1000; 500; 2000]%Z = 0%Z ∧
  list_max [0; 1000; 500; 2000]%Z = 2000%Z ∧
  normalize 65536 [0; 1000; 500; 2000]%Z = Some [0; 128; 64; 255]%Z ∧
  processDicomFolder 65536 scenario = Ok (Volume [0; 128; 64; 255]%Z (2, 1, 2)).
Proof. apply scenario_normalized. lia. Defined.

(** C4, as stated, fails, in every engine: two slices with the same
    instance number keep their encounter order, so swapping them changes
    the volume. *)
Lemma assemble_order_dependent :
  ¬ ∃ max_arguments,
      ∀ l l' : list slice, l ≡ₚ l' → assemble max_arguments l = assemble max_arguments l'.
Proof.
  intros [max_arguments H].
  specialize (H [Slice (U8 [1%Z]) 1 1 0; Slice (U8 [2%Z]) 1 1 0]
                [Slice (U8 [2%Z]) 1 1 0; Slice (U8 [1%Z]) 1 1 0]
                (perm_swap _ _ _)).
  vm_compute in H. discriminate H.
Qed.

(** C4, amended: assemble is order-independent on slices whose instance
    numbers are pairwise distinct: every permutation of such a list is
    assembled into the same Volume (or fails in the same way). *)
Theorem assemble_order_independent (max_arguments : N) (l l' : list slice) :
  l ≡ₚ l' → NoDup (s_instanceNumber <$> l) →
  assemble max_arguments l = assemble max_arguments l'.
Proof.
  intros Hp Hnd. unfold assemble. by rewrite (sort_slices_perm l l' Hp Hnd).
Qed.

Lemma assemble_order_independent_witness :
  assemble 65536 [Slice (U8 [1%Z]) 1 1 7; Slice (U8 [2%Z]) 1 1 3]
  = assemble 65536 [Slice (U8 [2%Z]) 1 1 3; Slice (U8 [1%Z]) 1 1 7].
Proof.
  apply assemble_order_independent.
  - apply perm_swap.
  - apply NoDup_ListNoDup. repeat constructor; cbn; intuition discriminate.
Defined.


(** C5 at [explicit_ow]: the layout of the claim gives length 4 and a value
    starting at offset 12; parseDicom reads the reserved bytes as part of a
    32-bit probe, skips four bytes and takes the length from offset 10,
    giving length 0x0B0A0000 and a value starting at offset 14. *)
Theorem read_header_explicit_ow :
  spec_header explicit_ow 0 = Some (Header 32736 16 "OW" 4 12) ∧
  read_header explicit_ow 0 = Some (Header 32736 16 "OW" 185204736 14).
Proof. split; vm_compute; reflexivity. Qed.






(** The outcome of assemble on slices that sort to [first :: rest], by the
    element type of [first] and the size of the buffer. *)
Lemma assemble_sorted max_arguments slices first rest :
  sort_slices slices = first :: rest →
  let sliceSize := s_rows first * s_columns first in
  let depth := S (List.length rest) in
  let dimensions := (s_columns first, s_rows first, depth) in
  assemble max_arguments slices =
  match s_data first with
  | U8 _ => Ok (Volume (fill false (first :: rest) sliceSize (sliceSize * depth)) dimensions)
  | U16 _ =>
      let raw := fill true (first :: rest) sliceSize (sliceSize * depth) in
      if (N.of_nat (sliceSize * depth) <=? max_arguments)%N
      then Ok (Volume ((λ v, (normalize_voxel (list_min raw)
                                (if (list_max raw - list_min raw =? 0)%Z then 1%Z
                                 else (list_max raw - list_min raw)%Z) v mod 256)%Z) <$> raw)
                      dimensions)
      else RangeError
  end.
Proof.
  intros Hs. cbv zeta. unfold assemble. rewrite Hs. cbv zeta. cbn [List.length].
  destruct (s_data first) as [px|px]; cbn [is_Uint16Array]; [done|].
  destruct (N.leb_spec (N.of_nat (s_rows first * s_columns first * S (List.length rest)))
              max_arguments) as [Hle|Hgt].
  - by rewrite normalize_Some by (by rewrite fill_length).
  - by rewrite normalize_None by (by rewrite fill_length).
Qed.



Lemma ct_folder_throws max_arguments :
  (max_arguments < 262144)%N → processDicomFolder max_arguments ct_folder = RangeError.
Proof.
  intros H. unfold processDicomFolder.
  rewrite (assemble_sorted max_arguments (collect ct_folder) ct_slice [] eq_refl).
  cbv zeta. cbn [s_data ct_slice s_rows s_columns List.length].
  replace (N.of_nat (512 * 512 * 1) <=? max_arguments)%N with false; [done|].
  symmetry. apply N.leb_gt. lia.
Qed.

(** The code's deviation from C8 at a concrete input: one usable 16-bit
    slice of 512 x 512 pixels is assembled into no Volume by any engine
    whose calls take fewer than 262 144 arguments. *)
Lemma ct_folder_RangeError :
  usable_count ct_folder = 1 ∧
  ∀ max_arguments, (max_arguments < 262144)%N →
    processDicomFolder max_arguments ct_folder = RangeError.
Proof. split; [reflexivity|]. apply ct_folder_throws. Qed.

(** The code's deviation from C9 at the same input: a 16-bit first slice
    does not always lead to a normalised buffer.  The buffer of one 16-bit
    slice of 512 x 512 pixels is not normalised but dropped, with a
    RangeError, by every engine whose calls take fewer than 262 144
    arguments. *)
Lemma ct_folder_not_normalized :
  sort_slices (collect ct_folder) = [ct_slice] ∧
  is_Uint16Array (s_data ct_slice) = true ∧
  ∀ max_arguments, (max_arguments < 262144)%N →
    ¬ ∃ v, processDicomFolder max_arguments ct_folder = Ok v.
Proof.
  split; [reflexivity|]. split; [reflexivity|]. intros max_arguments H [v Hv].
  assert (RangeError = Ok v) as E; [|discriminate E].
  rewrite <- Hv. symmetry. by apply ct_folder_throws.
Qed.



End DicomSpec.

(* ===================================================================== *)
(** ** Properties of the atlas packer *)
(* ===================================================================== *)

Module AtlasSpec.
Import Atlas.

(** *** Three nested counting loops *)

Section Loop3.
Context {B : Type} (f : nat → nat → nat → B).

Local Abbreviation loop3 := (loop3 f).

Lemma elem_of_loop3 d h w b :
  b ∈ loop3 d h w ↔ ∃ z y x, z < d ∧ y < h ∧ x < w ∧ b = f z y x.
Proof.
  unfold loop3. split.
  - intros (z & (y & (x & Hb & Hx)%list_elem_of_bind & Hy)%list_elem_of_bind & Hz)%list_elem_of_bind.
    apply elem_of_seq in Hx, Hy, Hz. apply list_elem_of_singleton in Hb.
    exists z, y, x. repeat split; (lia || done).
  - intros (z & y & x & Hz & Hy & Hx & ->).
    apply list_elem_of_bind. exists z. split; [|apply elem_of_seq; lia].
    apply list_elem_of_bind. exists y. split; [|apply elem_of_seq; lia].
    apply list_elem_of_bind. exists x. split; [|apply elem_of_seq; lia].
    by apply list_elem_of_singleton.
Qed.

Lemma NoDup_loop3 d h w :
  (∀ z y x z' y' x', z < d → y < h → x < w → z' < d → y' < h → x' < w →
     f z y x = f z' y' x' → z = z' ∧ y = y' ∧ x = x') →
  NoDup (loop3 d h w).
Proof.
  intros Hinj. unfold loop3.
  apply NoDup_bind; [| |apply NoDup_seq].
  - intros z z' b Hz Hz'
      (y & (x & Hb & Hx)%list_elem_of_bind & Hy)%list_elem_of_bind
      (y' & (x' & Hb' & Hx')%list_elem_of_bind & Hy')%list_elem_of_bind.
    apply elem_of_seq in Hx, Hy, Hz, Hx', Hy', Hz'.
    apply list_elem_of_singleton in Hb, Hb'. subst b.
    apply Hinj in Hb'; [intuition | lia..].
  - intros z Hz. apply elem_of_seq in Hz.
    apply NoDup_bind; [| |apply NoDup_seq].
    + intros y y' b Hy Hy' (x & Hb & Hx)%list_elem_of_bind (x' & Hb' & Hx')%list_elem_of_bind.
      apply elem_of_seq in Hx, Hy, Hx', Hy'.
      apply list_elem_of_singleton in Hb, Hb'. subst b.
      apply Hinj in Hb'; [intuition | lia..].
    + intros y Hy. apply elem_of_seq in Hy.
      apply NoDup_bind; [| |apply NoDup_seq].
      * intros x x' b Hx Hx' Hb Hb'. apply elem_of_seq in Hx, Hx'.
        apply list_elem_of_singleton in Hb, Hb'. subst b.
        apply Hinj in Hb'; [intuition | lia..].
      * intros x _. apply NoDup_singleton.
Qed.

End Loop3.

Lemma loop3_fmap {B C} (g : B → C) (f : nat → nat → nat → B) d h w :
  g <$> loop3 f d h w = loop3 (λ z y x, g (f z y x)) d h w.
Proof.
  unfold loop3.
  induction (seq 0 d) as [|z zs IHz]; [done|].
  rewrite !bind_cons, fmap_app, IHz. f_equal. clear.
  induction (seq 0 h) as [|y ys IHy]; [done|].
  rewrite !bind_cons, fmap_app, IHy. f_equal. clear.
  induction (seq 0 w) as [|x xs IHx]; [done|].
  rewrite !bind_cons, fmap_app, IHx. done.
Qed.

(** *** Arithmetic of the tiling *)

(** [ceil_sqrt] and [ceil_div] are the ceilings of the square root and of
    the quotient. *)
Lemma ceil_sqrt_spec depth :
  0 < depth → (ceil_sqrt depth - 1) * (ceil_sqrt depth - 1) < depth ≤ ceil_sqrt depth * ceil_sqrt depth.
Proof.
  intros H. unfold ceil_sqrt. pose proof (Nat.sqrt_up_spec depth H) as Hs.
  rewrite <- Nat.sub_1_r in Hs. cbn beta in Hs. lia.
Qed.

Lemma ceil_div_spec depth s :
  0 < depth → 0 < s → (ceil_div depth s - 1) * s < depth ≤ ceil_div depth s * s.
Proof.
  intros Hd Hs. unfold ceil_div.
  pose proof (Nat.div_mod (depth + s - 1) s ltac:(lia)) as Hdm.
  pose proof (Nat.mod_upper_bound (depth + s - 1) s ltac:(lia)). nia.
Qed.

(** The depth-5 scenario of the specification: three tiles per row, two
    rows, slice 4 in tile row 1, tile column 1. *)
Lemma depth_5_layout :
  ceil_sqrt 5 = 3 ∧ ceil_div 5 3 = 2 ∧ 4 / ceil_sqrt 5 = 1 ∧ 4 mod ceil_sqrt 5 = 1.
Proof. by repeat split. Qed.

Lemma ceil_sqrt_pos depth : 0 < depth → 0 < ceil_sqrt depth.
Proof. intros H. unfold ceil_sqrt. by apply Nat.sqrt_up_pos. Qed.

Lemma ceil_div_covers depth s : 0 < s → depth ≤ ceil_div depth s * s.
Proof.
  intros Hs. unfold ceil_div.
  pose proof (Nat.div_mod (depth + s - 1) s ltac:(lia)) as Hdm.
  pose proof (Nat.mod_upper_bound (depth + s - 1) s ltac:(lia)). nia.
Qed.

Lemma tile_row_bound depth s z :
  0 < s → z < depth → z / s < ceil_div depth s.
Proof.
  intros Hs Hz. pose proof (ceil_div_covers depth s Hs).
  apply Nat.Div0.div_lt_upper_bound. nia.
Qed.

(** Positional notation: digits below the base determine the number. *)
Lemma digits_unique n a b a' b' :
  b < n → b' < n → a * n + b = a' * n + b' → a = a' ∧ b = b'.
Proof. intros. assert (a = a') by nia. subst. lia. Qed.

Lemma div_mod_digits n a b :
  b < n → (a * n + b) / n = a ∧ (a * n + b) mod n = b.
Proof.
  intros Hb.
  pose proof (Nat.div_mod (a * n + b) n ltac:(lia)) as Hdm.
  pose proof (Nat.mod_upper_bound (a * n + b) n ltac:(lia)) as Hr.
  apply (digits_unique n); [done..|lia].
Qed.

Lemma atlas_pixel_bound width height depth x y z :
  let s := ceil_sqrt depth in
  x < width → y < height → z < depth →
  (atlas_pixel width height s x y z).1 < s * width ∧
  (atlas_pixel width height s x y z).2 < ceil_div depth s * height.
Proof.
  intros s Hx Hy Hz. cbn.
  assert (0 < s) by (apply ceil_sqrt_pos; lia).
  pose proof (Nat.mod_upper_bound z s ltac:(lia)).
  pose proof (tile_row_bound depth s z ltac:(lia) Hz). split; nia.
Qed.

Lemma voxel_of_atlas_pixel width height s x y z :
  0 < s → x < width → y < height →
  voxel_of_pixel width height s (atlas_pixel width height s x y z).1
                 (atlas_pixel width height s x y z).2 = (x, y, z).
Proof.
  intros Hs Hx Hy. unfold voxel_of_pixel, atlas_pixel. cbn [fst snd].
  destruct (div_mod_digits width (z mod s) x Hx) as [-> ->].
  destruct (div_mod_digits height (z / s) y Hy) as [-> ->].
  repeat f_equal. pose proof (Nat.div_mod z s ltac:(lia)). lia.
Qed.

Lemma atlas_pixel_of_voxel width height s px py :
  0 < width → 0 < height → px < s * width →
  let '(x, y, z) := voxel_of_pixel width height s px py in
  x < width ∧ y < height ∧ atlas_pixel width height s x y z = (px, py).
Proof.
  intros Hw Hh Hpx. unfold voxel_of_pixel, atlas_pixel.
  split; [by apply Nat.mod_upper_bound; lia|].
  split; [by apply Nat.mod_upper_bound; lia|].
  assert (px / width < s) as Hc by (apply Nat.Div0.div_lt_upper_bound; lia).
  destruct (div_mod_digits s (py / height) (px / width) Hc) as [-> ->].
  f_equal.
  - pose proof (Nat.div_mod px width ltac:(lia)). lia.
  - pose proof (Nat.div_mod py height ltac:(lia)). lia.
Qed.

(** The index the packing loop writes for a voxel is the row-major index
    of its atlas pixel, and different voxels are written to different
    cells. *)
Lemma pack_write_index vd width height s z y x :
  (pack_write vd width height s (s * width) z y x).1
  = (atlas_pixel width height s x y z).2 * (s * width) + (atlas_pixel width height s x y z).1.
Proof. reflexivity. Qed.

Lemma pack_write_inj vd width height s z y x z' y' x' :
  0 < s → x < width → y < height → x' < width → y' < height →
  (pack_write vd width height s (s * width) z y x).1
  = (pack_write vd width height s (s * width) z' y' x').1 →
  z = z' ∧ y = y' ∧ x = x'.
Proof.
  intros Hs Hx Hy Hx' Hy' Heq. rewrite !pack_write_index in Heq.
  unfold atlas_pixel in Heq. cbn [fst snd] in Heq.
  pose proof (Nat.mod_upper_bound z s ltac:(lia)).
  pose proof (Nat.mod_upper_bound z' s ltac:(lia)).
  apply digits_unique in Heq as [Hrow Hcol]; [|nia..].
  apply digits_unique in Hrow as [Hr ->]; [|done..].
  apply digits_unique in Hcol as [Hc ->]; [|done..].
  pose proof (Nat.div_mod z s ltac:(lia)). pose proof (Nat.div_mod z' s ltac:(lia)).
  split; [lia|done].
Qed.

(** *** The packed buffer *)

Lemma stores_Forall {A} (P : A → Prop) (buf : list A) (ws : list (nat * A)) :
  Forall P buf → Forall P ws.*2 → Forall P (stores buf ws).
Proof.
  revert buf. induction ws as [|[j w] ws IH]; intros buf Hbuf Hws; [done|].
  rewrite fmap_cons in Hws. apply Forall_cons in Hws as [Hw Hws].
  rewrite stores_cons. apply IH; [|done]. unfold store. by apply Forall_insert.
Qed.

Section Packed.
Variables (vd : list Q) (width height depth : nat).

Let s := ceil_sqrt depth.
Let rows := ceil_div depth s.
Let v := VolumeData vd (width, height, depth).

Lemma loadVolume_unfold :
  loadVolume v =
  (stores (replicate (s * width * (rows * height)) 0%Z)
          (pack_writes vd width height depth s (s * width)),
   TextureLayout (s * width) (rows * height) depth (width, height, depth)).
Proof. reflexivity. Qed.

Lemma pack_writes_NoDup : NoDup (pack_writes vd width height depth s (s * width)).*1.
Proof.
  change (pack_writes vd width height depth s (s * width))
    with (loop3 (pack_write vd width height s (s * width)) depth height width).
  rewrite loop3_fmap. apply NoDup_loop3.
  intros z y x z' y' x' Hz Hy Hx Hz' Hy' Hx' Heq.
  apply (pack_write_inj vd width height s); try done.
  apply ceil_sqrt_pos. lia.
Qed.

Lemma packed_length : List.length (loadVolume v).1 = s * width * (rows * height).
Proof. rewrite loadVolume_unfold. cbn [fst]. by rewrite stores_length, length_replicate. Qed.

(** A voxel's cell holds the voxel, rounded and clamped. *)
Lemma packed_voxel x y z :
  x < width → y < height → z < depth →
  texel (loadVolume v).1 (s * width) (atlas_pixel width height s x y z)
  = Some (clamp255 (js_round (default 0%Q (voxel v x y z)))).
Proof.
  intros Hx Hy Hz. rewrite loadVolume_unfold. unfold texel. cbn [fst].
  rewrite <- (pack_write_index vd).
  apply stores_lookup_written.
  - apply pack_writes_NoDup.
  - change (pack_writes vd width height depth s (s * width))
      with (loop3 (pack_write vd width height s (s * width)) depth height width).
    apply elem_of_loop3. exists z, y, x. repeat split; try done.
  - rewrite length_replicate, pack_write_index.
    destruct (atlas_pixel_bound width height depth x y z Hx Hy Hz) as [H1 H2].
    fold s in H1, H2. fold rows in H2. nia.
Qed.


Lemma packed_range : Forall (λ b, (0 <= b <= 255)%Z) (loadVolume v).1.
Proof.
  rewrite loadVolume_unfold. cbn [fst].
  apply stores_Forall.
  - apply Forall_replicate. lia.
  - change (pack_writes vd width height depth s (s * width))
      with (loop3 (pack_write vd width height s (s * width)) depth height width).
    rewrite loop3_fmap. apply Forall_forall.
    intros b (z & y & x & _ & _ & _ & ->)%elem_of_loop3. apply clamp255_bounds.
Qed.

End Packed.

(** *** The claims *)


Lemma voxel_is_byte vd width height depth x y z :
  is_volume (VolumeData vd (width, height, depth)) →
  x < width → y < height → z < depth →
  ∃ b, (0 <= b <= 255)%Z ∧ voxel (VolumeData vd (width, height, depth)) x y z = Some (inject_Z b).
Proof.
  intros [Hlen Hall] Hx Hy Hz. cbn in Hlen, Hall. unfold voxel. cbn.
  assert (y * width + x < width * height) by nia.
  assert (z * width * height + width * height ≤ width * height * depth) by nia.
  destruct (lookup_lt_is_Some_2 vd (z * width * height + y * width + x)) as [q Hq]; [lia|].
  rewrite Hq. rewrite Forall_forall in Hall.
  destruct (Hall q) as (b & Hb & ->); [by eapply list_elem_of_lookup_2|]. by exists b.
Qed.

(** C1: for a Volume with positive dimensions, pack stores every voxel
    (x,y,z) at the atlas pixel (tileCol(z)*width + x, tileRow(z)*height + y)
    with tileCol(z) = z mod tileCountPerRow and tileRow(z) = z /
    tileCountPerRow, and mapping an atlas pixel back to its voxel recovers
    the voxel's value exactly. *)
Theorem pack_tiling_bijective (vd : list Q) (width height depth : nat) :
  0 < width → 0 < height → 0 < depth →
  is_volume (VolumeData vd (width, height, depth)) →
  tiling_recovers vd width height depth.
Proof.
  intros Hw Hh Hd Hvol. unfold tiling_recovers. cbn zeta.
  set (s := ceil_sqrt depth). set (v := VolumeData vd (width, height, depth)).
  assert (0 < s) as Hs by (by apply ceil_sqrt_pos).
  assert (∀ x y z, x < width → y < height → z < depth →
            inject_Z <$> texel (loadVolume v).1 (s * width) (atlas_pixel width height s x y z)
            = voxel v x y z) as Hval.
  { intros x y z Hx Hy Hz. subst s v. rewrite packed_voxel by done.
    destruct (voxel_is_byte vd width height depth x y z Hvol Hx Hy Hz) as (b & Hb & Hv).
    rewrite Hv. change (default 0%Q (Some (inject_Z b))) with (inject_Z b).
    by rewrite js_round_inject_Z, clamp255_id. }
  split; [done|]. split; [done|]. split.
  - intros x y z Hx Hy Hz. cbn zeta.
    destruct (atlas_pixel_bound width height depth x y z Hx Hy Hz) as [H1 H2].
    split; [done|]. split; [done|]. split.
    { destruct (voxel_is_byte vd width height depth x y z Hvol Hx Hy Hz) as (b & _ & Hv).
      fold v in Hv. by rewrite Hv. }
    split; [by apply Hval|]. by apply voxel_of_atlas_pixel.
  - intros px py Hpx Hpy.
    pose proof (atlas_pixel_of_voxel width height s px py Hw Hh Hpx) as Hinv.
    destruct (voxel_of_pixel width height s px py) as [[x y] z].
    destruct Hinv as (Hx & Hy & Hp). intros Hz.
    split; [done|]. split; [done|]. split; [done|].
    rewrite <- Hp. by apply Hval.
Qed.

(** The volume of the specification's depth-5 scenario, with slices of a
    single voxel: three tiles per row, two rows. *)
Lemma pack_tiling_bijective_witness :
  tiling_recovers (inject_Z <$> [10; 20; 30; 40; 50]%Z) 1 1 5.
Proof.
  apply pack_tiling_bijective; [lia..|].
  split; [reflexivity|].
  repeat (constructor; [eexists; split; [|reflexivity]; lia|]). constructor.
Defined.

End AtlasSpec.

(* ===================================================================== *)
(** ** Properties of the fragment shader *)
(* ===================================================================== *)

Module ShaderSpec.
Import Shader.
Local Open Scope Q_scope.

(** *** Comparisons and clamping *)

Lemma ltb_lt x y : ltb x y = true ↔ x < y.
Proof.
  unfold ltb. rewrite negb_true_iff, <- not_true_iff_false, Qle_bool_iff.
  split; [apply Qnot_le_lt | apply Qlt_not_le].
Qed.

Lemma leb_le x y : leb x y = true ↔ x <= y.
Proof. apply Qle_bool_iff. Qed.

Lemma clamp_bounds x lo hi : lo <= hi → lo <= clamp x lo hi <= hi.
Proof.
  intros H. unfold clamp.
  destruct (Q.max_spec x lo) as [[? Hm]|[? Hm]];
  destruct (Q.min_spec (Qmax x lo) hi) as [[? Hn]|[? Hn]];
  rewrite Hn, ?Hm; lra.
Qed.

(** *** The marching loop *)

Section Marching.
Variables (U : uniforms) (tex : sampler2D) (lighting : Q → Q → Q → Q).
Variables (rayOrigin rayDir : vec3) (tFar : Q).

Local Abbreviation body := (march_body U tex lighting rayOrigin rayDir tFar).
Local Abbreviation run n := (march U tex lighting n rayOrigin rayDir tFar).
Local Abbreviation alpha st := (c_a (m_colorAccum st)).

(** The loop after [n + 1] iterations is the loop after [n] iterations
    followed by one more pass through the body (or a [break]). *)
Lemma march_succ n st :
  run (S n) st = match body (run n st) with
                 | None => run n st
                 | Some st' => st'
                 end.
Proof.
  revert st. induction n as [|n IH]; intros st.
  - cbn. by destruct (body st).
  - change (run (S (S n)) st)
      with (match body st with None => st | Some st' => run (S n) st' end).
    change (run (S n) st)
      with (match body st with None => st | Some st' => run n st' end).
    destruct (body st) as [st'|] eqn:Hb; [apply IH|]. by rewrite Hb.
Qed.

(** One pass through the body: alpha does not decrease and stays within
    [0,1]. *)
Lemma march_body_alpha st st' :
  0 <= u_opacity U <= 1 → 0 <= alpha st <= 1 →
  body st = Some st' → alpha st <= alpha st' ∧ alpha st' <= 1.
Proof.
  intros Hop Ha. unfold march_body.
  destruct (leb tFar (m_tNear st) || leb (95 # 100) (alpha st)); [done|].
  match goal with
  | |- context [ltb _ (clamp ?d 0 1)] =>
      pose proof (clamp_bounds d 0 1 ltac:(lra)) as Hn; generalize dependent (clamp d 0 1)
  end.
  intros nd Hnd. destruct (ltb (u_threshold U / 255) nd).
  - intros [= <-]. cbn.
    assert (0 <= nd * u_opacity U <= 1) as Hp by nra.
    generalize dependent (nd * u_opacity U). intros p Hp. nra.
  - intros [= <-]. cbn. lra.
Qed.

Lemma march_alpha_bounds n st :
  0 <= u_opacity U <= 1 → 0 <= alpha st <= 1 → 0 <= alpha (run n st) <= 1.
Proof.
  intros Hop. revert st. induction n as [|n IH]; intros st Ha; [done|].
  cbn. destruct (body st) as [st'|] eqn:Hb; [|done].
  apply IH. destruct (march_body_alpha st st' Hop Ha Hb). lra.
Qed.

End Marching.


(** *** Rays that miss the box *)

Lemma shade_miss U tex lighting rayOrigin rayDir tNear tFar :
  tFar < tNear ∨ tFar < 0 →
  shade U tex lighting rayOrigin rayDir tNear tFar = (Vec4 0 0 0 0, []).
Proof.
  intros H. unfold shade.
  assert (ltb tFar tNear || ltb tFar 0 = true) as ->; [|done].
  apply orb_true_iff. by rewrite !ltb_lt.
Qed.

(** C6: a ray that misses the box [-0.5,0.5]^3 (tNear > tFar or
    tFar < 0) gets gl_FragColor = vec4(0.0), and sampleVolume is not called
    for it.  This holds of the lines that follow the slab test, whatever
    the two values, and so of main for a pixel whose slab test yields
    them, with a volume loaded (without one the shader returns the test
    pattern before it casts a ray). *)
Theorem miss_is_transparent U tex lighting pattern (rayOrigin rayDir : vec3)
    (tNear tFar : Q) (v_texCoord : vec2) :
  tNear > tFar ∨ tFar < 0 →
  shade U tex lighting rayOrigin rayDir tNear tFar = (Vec4 0 0 0 0, []) ∧
  (0 < u_slices U →
   slab (pixel_ray U v_texCoord).1 (pixel_ray U v_texCoord).2 = Some (tNear, tFar) →
   main U tex lighting pattern v_texCoord = Some (Vec4 0 0 0 0, [])).
Proof.
  intros Hmiss. split; [by apply shade_miss|]. intros Hs Hslab. unfold main.
  assert (leb (u_slices U) 0 = false) as ->.
  { apply not_true_iff_false. rewrite leb_le. lra. }
  destruct (pixel_ray U v_texCoord) as [o d]. cbn [fst snd] in Hslab.
  rewrite Hslab. f_equal. by apply shade_miss.
Qed.

(** The corner pixel of the example camera: its ray passes the box, the
    slab test giving tNear = 2.388... and tFar = 2.25. *)
Lemma miss_is_transparent_witness :
  let ray := pixel_ray demo_uniforms (Vec2 1 1) in
  shade demo_uniforms demo_texture demo_lighting ray.1 ray.2
        (26875000000 # 11250000000) (90000000 # 40000000) = (Vec4 0 0 0 0, []) ∧
  main demo_uniforms demo_texture demo_lighting demo_pattern (Vec2 1 1)
  = Some (Vec4 0 0 0 0, []).
Proof.
  intros ray.
  destruct (miss_is_transparent demo_uniforms demo_texture demo_lighting demo_pattern
              ray.1 ray.2 (26875000000 # 11250000000) (90000000 # 40000000) (Vec2 1 1))
    as [Hshade Hmain].
  - left. reflexivity.
  - split; [exact Hshade|]. apply Hmain; reflexivity.
Defined.

(** *** Accumulated alpha *)

(** C7: for opacity in [0,1] (the windowed density is clamped to [0,1] by
    the shader itself), the alpha accumulated by colorAccum = colorAccum +
    (1 - colorAccum.a) * voxelColor, started from vec4(0.0), never
    decreases from one marching step to the next and never exceeds 1. *)
Theorem alpha_monotone_bounded U tex lighting rayOrigin rayDir tNear tFar (n : nat) :
  let alpha k :=
    c_a (m_colorAccum (march U tex lighting k rayOrigin rayDir tFar
                             (MarchState tNear (splat4 0) []))) in
  0 <= u_opacity U <= 1 →
  0 <= alpha n ∧ alpha n <= alpha (S n) ∧ alpha (S n) <= 1.
Proof.
  intros alpha Hop. subst alpha. cbn beta.
  set (st0 := MarchState tNear (splat4 0) []).
  assert (0 <= c_a (m_colorAccum st0) <= 1) as H0 by (cbn; lra).
  pose proof (march_alpha_bounds U tex lighting rayOrigin rayDir tFar n st0 Hop H0) as Hn.
  rewrite march_succ.
  destruct (march_body U tex lighting rayOrigin rayDir tFar
              (march U tex lighting n rayOrigin rayDir tFar st0)) as [st'|] eqn:Hb.
  - destruct (march_body_alpha U tex lighting rayOrigin rayDir tFar _ st' Hop Hn Hb).
    split; [lra|]. split; [done|done].
  - split; [lra|]. split; lra.
Qed.

(** The centre pixel of the example camera, whose ray enters the box at
    t = 1.375 and leaves it at t = 2.625, after three and four steps. *)
Lemma alpha_monotone_bounded_witness :
  let ray := pixel_ray demo_uniforms (Vec2 (1 # 2) (1 # 2)) in
  let alpha k :=
    c_a (m_colorAccum (march demo_uniforms demo_texture demo_lighting k ray.1 ray.2 (21 # 8)
                             (MarchState (11 # 8) (splat4 0) []))) in
  0 <= alpha 3%nat ∧ alpha 3%nat <= alpha 4%nat ∧ alpha 4%nat <= 1.
Proof.
  intros ray.
  apply (alpha_monotone_bounded demo_uniforms demo_texture demo_lighting ray.1 ray.2
           (11 # 8) (21 # 8) 3).
  split; [discriminate|discriminate].
Defined.


(** *** The texture fetches of sampleVolume *)


Lemma sampleVolume_fetches U t pos :
  sampleVolume U t pos =
  if blends U pos
  then mix (t (first_uv U pos)) (t (next_uv U pos)) (fract (slice_coord U pos))
  else t (first_uv U pos).
Proof. reflexivity. Qed.

Lemma Qfloor_unique (q : Q) (k : Z) :
  inject_Z k <= q → q < inject_Z (k + 1) → Qfloor q = k.
Proof.
  intros Hlo Hhi. pose proof (Qfloor_le q) as H1. pose proof (Qlt_floor q) as H2.
  assert (inject_Z (Qfloor q) < inject_Z (k + 1)) as H3 by lra.
  assert (inject_Z k < inject_Z (Qfloor q + 1)) as H4 by lra.
  rewrite <- Zlt_Qlt in H3, H4. lia.
Qed.

#[local] Instance floor_proper : Proper (Qeq ==> Qeq) floor.
Proof. intros x y Hxy. unfold floor. by rewrite Hxy. Qed.

#[local] Instance mix_proper : Proper (Qeq ==> Qeq ==> Qeq ==> Qeq) mix.
Proof. intros a a' Ha b b' Hb f f' Hf. unfold mix. by rewrite Ha, Hb, Hf. Qed.


(** [lra] and [nra] take an injected natural for an unknown rational. *)
Ltac hide_iz :=
  repeat match goal with
         | |- context [inject_Z (Z.of_nat ?n)] =>
             let q := fresh "q" in set (q := inject_Z (Z.of_nat n)) in *; clearbody q
         end.

Lemma iz_pos n : (0 < n)%nat → 0 < iz n.
Proof. intros H. change 0 with (inject_Z 0). rewrite <- Zlt_Qlt. lia. Qed.

Lemma iz_pred n : (0 < n)%nat → iz (n - 1) == iz n - 1.
Proof.
  intros H. rewrite Nat2Z.inj_sub by lia. unfold Z.sub.
  rewrite inject_Z_plus, inject_Z_opp. reflexivity.
Qed.

Lemma iz_mul a b : iz (a * b) == iz a * iz b.
Proof. by rewrite Nat2Z.inj_mul, inject_Z_mult. Qed.

(** Row and column of tile [k] as the shader computes them from a slice
    index equal to [k]. *)
Lemma tile_row_col (s w k : nat) (idx : Q) :
  (0 < s)%nat → (0 < w)%nat → idx == iz k →
  floor (idx / (iz (s * w) / iz w)) == iz (k / s) ∧
  mod_ idx (iz (s * w) / iz w) == iz (k mod s).
Proof.
  intros Hs Hw Hidx.
  pose proof (iz_pos _ Hs) as Hs'. pose proof (iz_pos _ Hw) as Hw'.
  assert (iz (s * w) / iz w == iz s) as Hspr.
  { rewrite iz_mul. field. lra. }
  assert (floor (idx / (iz (s * w) / iz w)) == iz (k / s)) as Hrow.
  { rewrite Hspr, Hidx. unfold floor. rewrite <- Zdiv_Qdiv.
    by rewrite Nat2Z.inj_div. }
  split; [done|]. unfold mod_. rewrite Hrow, Hspr, Hidx.
  rewrite (Nat.div_mod k s) at 1 by lia.
  rewrite Nat2Z.inj_add, Nat2Z.inj_mul, inject_Z_plus, inject_Z_mult. ring.
Qed.

Section Tiles.
Variables (U : uniforms) (width height depth : nat).
Hypothesis Hlayout : layout_ok U width height depth.
Hypothesis Hw : (0 < width)%nat.
Hypothesis Hh : (0 < height)%nat.
Hypothesis Hd : (0 < depth)%nat.

Lemma slice_coord_eq (x y z : Q) :
  slice_coord U (Vec3 x y z) = clamp z (1 # 1000) (999 # 1000) * iz depth.
Proof. destruct Hlayout as (_ & _ & Hsl & _). unfold slice_coord. by rewrite Hsl. Qed.

End Tiles.

End ShaderSpec.

(* ===================================================================== *)
(** ** Properties of parseDicom *)
(* ===================================================================== *)

Module DicomParseSpec.
Import Dicom DicomParse.

(** *** The tag string *)

Lemma hex_digit_lower d : is_lower_hex (hex_digit d) = true.
Proof.
  destruct d as [|p|p]; [reflexivity| |reflexivity].
  do 5 (try destruct p as [p|p|]; try reflexivity).
Qed.

Lemma all_chars_app p s t : all_chars p (s ++ t) = all_chars p s && all_chars p t.
Proof. induction s as [|c s IH]; simpl; [done|]. by rewrite IH, andb_assoc. Qed.

Lemma hex_of_lower fuel n acc :
  all_chars is_lower_hex acc = true → all_chars is_lower_hex (hex_of fuel n acc) = true.
Proof.
  revert n acc. induction fuel as [|fuel IH]; intros n acc Hacc; simpl; [done|].
  destruct (n =? 0)%Z; [done|]. apply IH.
  change (is_lower_hex (hex_digit (n mod 16)) && all_chars is_lower_hex acc = true).
  by rewrite hex_digit_lower, Hacc.
Qed.

Lemma padStart4_lower n : all_chars is_lower_hex (padStart4 (toString16 n)) = true.
Proof.
  unfold padStart4. rewrite all_chars_app.
  apply andb_true_intro. split.
  - induction (4 - String.length (toString16 n)) as [|k IH]; [done|]. simpl. by rewrite IH.
  - unfold toString16. destruct (n =? 0)%Z; [done|]. by apply hex_of_lower.
Qed.

(** A tag string consists of lower-case hexadecimal digits, so it is never
    equal to a literal with capital letters. *)
Lemma tag_of_not_pixel group element :
  String.eqb (tag_of group element) "7FE00010" = false.
Proof.
  apply String.eqb_neq. intros H.
  assert (all_chars is_lower_hex (tag_of group element) = true) as Hl.
  { unfold tag_of. by rewrite all_chars_app, !padStart4_lower. }
  rewrite H in Hl. discriminate Hl.
Qed.

(** *** Pixel data *)

Lemma dispatch_pixelData view h st st' :
  dispatch view h st = Some st' → ps_pixelData st' = ps_pixelData st.
Proof.
  unfold dispatch. rewrite tag_of_not_pixel. intros H.
  repeat (case_match; simplify_option_eq); try done.
Qed.

Lemma parse_loop_pixelData fuel view offset st :
  ps_pixelData (parse_loop fuel view offset st) = ps_pixelData st.
Proof.
  revert offset st. induction fuel as [|fuel IH]; intros offset st; cbn; [done|].
  case_match; [|done].
  destruct (element_step view offset st) as [[offset' st']|] eqn:Hs; [|done].
  rewrite IH. unfold element_step in Hs.
  destruct (read_header view offset) as [h|]; [|done]. cbn in Hs.
  destruct (dispatch view h st) as [st''|] eqn:Hd; [|done]. cbn in Hs.
  inversion Hs; subst. by eapply dispatch_pixelData.
Qed.

(** parseDicom never returns pixel data: it compares the tag string, whose
    hexadecimal digits are lower-case, with the literal '7FE00010', so the
    pixel-data branch (lines 85-93) is not taken for any file. *)
Theorem parseDicom_no_pixelData (view : list Byte.byte) :
  ps_pixelData (parseDicom view) = None.
Proof. unfold parseDicom, parse_from. by rewrite parse_loop_pixelData. Qed.

(** Consequently processDicomFolder finds no valid slice in any folder:
    whatever the files contain, it throws 'No valid DICOM files found'. *)
Theorem processDicomFiles_no_volume (max_arguments : N)
    (files : list (option (list Byte.byte))) :
  processDicomFiles max_arguments files = NoValidSlicesError.
Proof.
  unfold processDicomFiles, processDicomFolder.
  assert (collect (parse_file <$> files) = []) as ->; [|done].
  induction files as [|[view|] files IH]; cbn; [done| |done].
  unfold parseDicom, parse_from. by rewrite parse_loop_pixelData.
Qed.

(** *** Termination of the element loop *)

(** Inversion of a chain of reads that did not throw. *)
Ltac bind_inv H :=
  repeat match type of H with
         | (?m ≫= _) = Some _ =>
             let E := fresh "E" in
             destruct m eqn:E; cbn [mbind option_bind] in H; [|discriminate H]
         | (if ?b then _ else _) = Some _ => destruct b eqn:?
         end.

Lemma read_header_advances view offset h :
  read_header view offset = Some h → offset + 8 ≤ h_valueOffset h.
Proof.
  unfold read_header. intros H.
  bind_inv H; inversion H; subst h; cbn; repeat case_match; lia.
Qed.

Lemma element_step_advances view offset st offset' st' :
  element_step view offset st = Some (offset', st') → offset + 8 ≤ offset'.
Proof.
  unfold element_step. intros H.
  destruct (read_header view offset) as [h|] eqn:Hh; [|done]. cbn in H.
  destruct (dispatch view h st) as [st''|]; [|done]. cbn in H. inversion H; subst.
  apply read_header_advances in Hh. unfold next_offset. cbn zeta. case_match; lia.
Qed.

Lemma parse_loop_enough n m view offset st :
  List.length view ≤ offset + 8 * n + 8 → n ≤ m →
  parse_loop m view offset st = parse_loop n view offset st.
Proof.
  revert m offset st. induction n as [|n IH]; intros m offset st Hlen Hm.
  - destruct m as [|m]; [done|]. cbn.
    destruct (Z.ltb_spec (Z.of_nat offset) (Z.of_nat (List.length view) - 8)); [lia|done].
  - destruct m as [|m]; [lia|]. cbn. case_match; [|done].
    destruct (element_step view offset st) as [[offset' st']|] eqn:Hs; [|done].
    apply element_step_advances in Hs. apply IH; lia.
Qed.

(** Every pass through the loop of parseDicom moves the cursor forward by
    at least 8 bytes, so the loop exits after at most byteLength/8 passes:
    allowing it any larger number of passes gives the result of
    parseDicom. *)
Theorem parseDicom_fuel (view : list Byte.byte) (fuel : nat) :
  List.length view / 8 ≤ fuel →
  parse_loop fuel view (start_offset view) initial_state = parseDicom view.
Proof.
  intros Hf. unfold parseDicom, parse_from.
  pose proof (Nat.div_mod (List.length view) 8 ltac:(lia)) as Hdm.
  pose proof (Nat.mod_upper_bound (List.length view) 8 ltac:(lia)) as Hr.
  rewrite (parse_loop_enough (List.length view / 8) fuel) by lia.
  symmetry. apply parse_loop_enough; lia.
Qed.

(** *** Reading behind a prefix *)

Section Shift.
Variables (pre rest : list Byte.byte).

Lemma getUint8_shift n : getUint8 (pre ++ rest) (List.length pre + n) = getUint8 rest n.
Proof.
  unfold getUint8. rewrite lookup_app_r by lia. do 2 f_equal. lia.
Qed.

Lemma getUint16_shift n : getUint16 (pre ++ rest) (List.length pre + n) = getUint16 rest n.
Proof. unfold getUint16. by rewrite <- !Nat.add_assoc, !getUint8_shift. Qed.

Lemma getUint32_shift n : getUint32 (pre ++ rest) (List.length pre + n) = getUint32 rest n.
Proof. unfold getUint32. by rewrite <- !Nat.add_assoc, !getUint8_shift. Qed.

Lemma getInt16_shift n : getInt16 (pre ++ rest) (List.length pre + n) = getInt16 rest n.
Proof. unfold getInt16. by rewrite getUint16_shift. Qed.

Lemma getInt32_shift n : getInt32 (pre ++ rest) (List.length pre + n) = getInt32 rest n.
Proof. unfold getInt32. by rewrite getUint32_shift. Qed.

Lemma read_header_shift offset :
  read_header (pre ++ rest) (List.length pre + offset)
  = shift_header (List.length pre) <$> read_header rest offset.
Proof.
  unfold read_header. rewrite <- !Nat.add_assoc.
  rewrite ?getUint16_shift, ?getUint8_shift, ?getUint32_shift.
  destruct (getUint16 rest offset) as [g|]; [|done]. cbn [mbind option_bind].
  destruct (getUint16 rest (offset + 2)) as [e|]; [|done]. cbn [mbind option_bind].
  destruct (getUint8 rest (offset + 4)) as [c0|]; [|done]. cbn [mbind option_bind].
  destruct (getUint8 rest (offset + 5)) as [c1|]; [|done]. cbn [mbind option_bind].
  destruct (includes long_vrs (fromCharCode2 c0 c1)).
  - destruct (getUint32 rest (offset + 6)) as [probe|] eqn:Ep; [|done].
    cbn [mbind option_bind].
    destruct (negb (probe =? 0)%Z).
    + rewrite <- !Nat.add_assoc, getUint32_shift.
      by destruct (getUint32 rest (offset + (6 + 4))).
    + by rewrite <- ?Nat.add_assoc, getUint32_shift, Ep.
  - rewrite <- ?Nat.add_assoc. by destruct (getUint16 rest (offset + 6)).
Qed.

Lemma dispatch_shift h st :
  dispatch (pre ++ rest) (shift_header (List.length pre) h) st = dispatch rest h st.
Proof.
  unfold dispatch. cbn [shift_header h_group h_element h_vr h_length h_valueOffset].
  rewrite tag_of_not_pixel.
  by rewrite !getUint16_shift, !getUint32_shift, !getInt16_shift, !getInt32_shift.
Qed.

Lemma next_offset_shift h :
  next_offset (shift_header (List.length pre) h) = List.length pre + next_offset h.
Proof. unfold next_offset. cbn. case_match; lia. Qed.

Lemma parse_loop_shift fuel offset st :
  parse_loop fuel (pre ++ rest) (List.length pre + offset) st = parse_loop fuel rest offset st.
Proof.
  revert offset st. induction fuel as [|fuel IH]; intros offset st; [done|].
  cbn [parse_loop]. rewrite length_app.
  replace (Z.of_nat (List.length pre + offset) <? Z.of_nat (List.length pre + List.length rest) - 8)%Z
    with (Z.of_nat offset <? Z.of_nat (List.length rest) - 8)%Z
    by (destruct (Z.ltb_spec (Z.of_nat offset) (Z.of_nat (List.length rest) - 8));
        destruct (Z.ltb_spec (Z.of_nat (List.length pre + offset))
                    (Z.of_nat (List.length pre + List.length rest) - 8)); (done || lia)).
  case_match; [|done].
  unfold element_step. rewrite read_header_shift.
  destruct (read_header rest offset) as [h|]; [|done].
  cbn [fmap option_fmap option_map mbind option_bind]. rewrite dispatch_shift.
  destruct (dispatch rest h st) as [st'|]; [|done].
  cbn [mbind option_bind]. rewrite next_offset_shift. apply IH.
Qed.

End Shift.

(** A file that starts with a 128-byte preamble and the magic word 'DICM',
    followed by at least one more byte, is parsed as the stream after the
    magic word would be parsed from its first byte. *)
Theorem parseDicom_preamble (preamble rest : list Byte.byte) :
  List.length preamble = 128 → rest ≠ [] →
  parseDicom (preamble ++ magic ++ rest) = parse_from rest 0.
Proof.
  intros Hp Hr. unfold parseDicom.
  assert (start_offset (preamble ++ magic ++ rest) = 132) as ->.
  { assert (∀ i, i < 4 →
              getUint8 (preamble ++ magic ++ rest) (128 + i) = getUint8 magic i) as Hm.
    { intros i Hi. unfold getUint8. rewrite lookup_app_r by lia.
      rewrite Hp, lookup_app_l by (cbn; lia). do 2 f_equal. lia. }
    destruct rest as [|b rest']; [done|].
    unfold start_offset. rewrite !length_app, Hp.
    replace (132 <? 128 + (List.length magic + List.length (b :: rest'))) with true
      by (symmetry; apply Nat.ltb_lt; cbn; lia).
    pose proof (Hm 0 ltac:(lia)) as H0. pose proof (Hm 1 ltac:(lia)) as H1.
    pose proof (Hm 2 ltac:(lia)) as H2. pose proof (Hm 3 ltac:(lia)) as H3.
    cbn [Nat.add] in H0, H1, H2, H3. rewrite H0, H1, H2, H3. reflexivity. }
  unfold parse_from. rewrite (app_assoc preamble magic rest).
  replace 132 with (List.length (preamble ++ magic) + 0) by (rewrite length_app, Hp; done).
  rewrite parse_loop_shift. apply parse_loop_enough; [lia|].
  rewrite !length_app. lia.
Qed.

(** *** Decoding what was encoded *)

Lemma byte_val_byte_of z : (0 <= z < 256)%Z → byte_val (byte_of z) = z.
Proof.
  intros Hz. unfold byte_val, byte_of.
  set (b := byte_of_ascii (ascii_of_N (Z.to_N z))).
  pose proof (ascii_of_byte_via_N b) as H. subst b.
  rewrite ascii_of_byte_of_ascii in H.
  set (b := byte_of_ascii (ascii_of_N (Z.to_N z))) in *.
  pose proof (Byte.to_N_bounded b) as Hb.
  apply (f_equal N_of_ascii) in H.
  rewrite (N_ascii_embedding (Z.to_N z)), (N_ascii_embedding (Byte.to_N b)) in H by lia.
  rewrite <- H. lia.
Qed.

Lemma lor_bytes lo hi :
  (0 <= lo < 256)%Z → (0 <= hi)%Z → Z.lor lo (Z.shiftl hi 8) = (lo + 256 * hi)%Z.
Proof.
  intros Hlo Hhi. rewrite Z.shiftl_mul_pow2 by lia.
  rewrite <- Z.add_nocarry_lor. { change (2 ^ 8)%Z with 256%Z. lia. }
  apply Z.bits_inj'. intros n Hn. rewrite Z.land_spec, Z.bits_0.
  destruct (Z.lt_ge_cases n 8).
  - rewrite Z.mul_pow2_bits_low by lia. apply andb_false_r.
  - assert (Z.log2 lo < 8)%Z as Hl.
    { destruct (Z.eq_dec lo 0%Z) as [E|E]; [by rewrite E|]. apply Z.log2_lt_pow2; lia. }
    by rewrite (Z.bits_above_log2 lo n) by lia.
Qed.

Lemma getUint16_u16le v l : (0 <= v < 65536)%Z → getUint16 (u16le v ++ l) 0 = Some v.
Proof.
  intros Hv. unfold getUint16, getUint8, u16le. cbn.
  rewrite !byte_val_byte_of by (try apply Z.mod_pos_bound; try split;
                                try apply Z.div_pos; try apply Z.div_lt_upper_bound; lia).
  rewrite lor_bytes by (try apply Z.mod_pos_bound; try apply Z.div_pos; lia).
  f_equal. pose proof (Z.div_mod v 256). lia.
Qed.

Lemma read_short_element g e vr0 vr1 v rest :
  (0 <= g < 65536)%Z → (0 <= e < 65536)%Z → (0 <= v < 65536)%Z →
  includes long_vrs (fromCharCode2 (byte_val vr0) (byte_val vr1)) = false →
  read_header (short_element g e vr0 vr1 v ++ rest) 0
  = Some (Header g e (fromCharCode2 (byte_val vr0) (byte_val vr1)) 2 8) ∧
  getUint16 (short_element g e vr0 vr1 v ++ rest) 8 = Some v.
Proof.
  intros Hg He Hv Hvr. unfold short_element. rewrite <- !app_assoc.
  set (tl3 := u16le v ++ rest). set (tl2 := u16le 2 ++ tl3).
  set (tl1 := [vr0; vr1] ++ tl2). set (tl0 := u16le e ++ tl1).
  assert (getUint16 (u16le g ++ tl0) 0 = Some g) as H0 by (by apply getUint16_u16le).
  assert (getUint16 (u16le g ++ tl0) 2 = Some e) as H2.
  { etrans; [exact (getUint16_shift (u16le g) tl0 0)|]. by apply getUint16_u16le. }
  assert (getUint8 (u16le g ++ tl0) 4 = Some (byte_val vr0)) as H4 by reflexivity.
  assert (getUint8 (u16le g ++ tl0) 5 = Some (byte_val vr1)) as H5 by reflexivity.
  assert (getUint16 (u16le g ++ tl0) 6 = Some 2%Z) as H6.
  { etrans; [exact (getUint16_shift (u16le g) tl0 4)|].
    etrans; [exact (getUint16_shift (u16le e) tl1 2)|].
    etrans; [exact (getUint16_shift [vr0; vr1] tl2 0)|]. by apply getUint16_u16le. }
  assert (getUint16 (u16le g ++ tl0) 8 = Some v) as H8.
  { etrans; [exact (getUint16_shift (u16le g) tl0 6)|].
    etrans; [exact (getUint16_shift (u16le e) tl1 4)|].
    etrans; [exact (getUint16_shift [vr0; vr1] tl2 2)|].
    etrans; [exact (getUint16_shift (u16le 2) tl3 0)|]. by apply getUint16_u16le. }
  split; [|done]. unfold read_header.
  change (0 + 2) with 2. change (0 + 4) with 4. change (0 + 5) with 5. change (0 + 6) with 6.
  rewrite H0. cbn [mbind option_bind]. rewrite H2. cbn [mbind option_bind].
  rewrite H4. cbn [mbind option_bind]. rewrite H5. cbn [mbind option_bind].
  rewrite Hvr, H6. reflexivity.
Qed.

Lemma dispatch_Rows view vr len off st v :
  getUint16 view off = Some v →
  dispatch view (Header 40 16 vr len off) st
  = Some (ParseState (<["00280010"%string := v]> (ps_metadata st)) (ps_pixelData st)
                     v (ps_columns st)).
Proof. intros H. unfold dispatch. cbn. by rewrite H. Qed.

Lemma dispatch_Columns view vr len off st v :
  getUint16 view off = Some v →
  dispatch view (Header 40 17 vr len off) st
  = Some (ParseState (<["00280011"%string := v]> (ps_metadata st)) (ps_pixelData st)
                     (ps_rows st) v).
Proof. intros H. unfold dispatch. cbn. by rewrite H. Qed.

Lemma dispatch_InstanceNumber view vr len off st v :
  getUint16 view off = Some v →
  dispatch view (Header 32 19 vr len off) st
  = Some (set_metadata "00200013" v st).
Proof. intros H. unfold dispatch. cbn. by rewrite H. Qed.

(** One pass of the loop over a short-form element at the start of the
    stream. *)
Lemma parse_loop_short_element fuel g e vr0 vr1 v rest st st' :
  (0 <= g < 65536)%Z → (0 <= e < 65536)%Z → (0 <= v < 65536)%Z →
  includes long_vrs (fromCharCode2 (byte_val vr0) (byte_val vr1)) = false →
  (∀ view, getUint16 view 8 = Some v →
     dispatch view (Header g e (fromCharCode2 (byte_val vr0) (byte_val vr1)) 2 8) st
     = Some st') →
  parse_loop (S fuel) (short_element g e vr0 vr1 v ++ rest) 0 st = parse_loop fuel rest 0 st'.
Proof.
  intros Hg He Hv Hvr Hd.
  destruct (read_short_element g e vr0 vr1 v rest Hg He Hv Hvr) as [Hh H8].
  cbn [parse_loop].
  replace (Z.of_nat 0 <? Z.of_nat (List.length (short_element g e vr0 vr1 v ++ rest)) - 8)%Z
    with true by (symmetry; apply Z.ltb_lt; rewrite length_app; cbn; lia).
  unfold element_step. rewrite Hh. cbn [mbind option_bind].
  rewrite (Hd _ H8). cbn [mbind option_bind].
  change (next_offset _) with (List.length (short_element g e vr0 vr1 v) + 0).
  apply parse_loop_shift.
Qed.

(** Round trip of the recognised numbers: a stream of three short-form
    elements (any VR outside the long-form list) encoding Rows, Columns and
    InstanceNumber as 16-bit little-endian values, followed by at most 8
    further bytes, is decoded to exactly those numbers; the trailing bytes
    are not parsed. *)
Theorem parseDicom_round_trip (rows columns instanceNumber : Z) (vr0 vr1 : Byte.byte)
    (tail : list Byte.byte) :
  (0 <= rows < 65536)%Z → (0 <= columns < 65536)%Z → (0 <= instanceNumber < 65536)%Z →
  includes long_vrs (fromCharCode2 (byte_val vr0) (byte_val vr1)) = false →
  List.length tail ≤ 8 →
  parseDicom (short_element 40 16 vr0 vr1 rows ++ short_element 40 17 vr0 vr1 columns
              ++ short_element 32 19 vr0 vr1 instanceNumber ++ tail)
  = ParseState (<["00200013"%string := instanceNumber]>
                  (<["00280011"%string := columns]> (<["00280010"%string := rows]> ∅)))
               None rows columns.
Proof.
  intros Hr Hc Hn Hvr Ht.
  set (view := short_element 40 16 vr0 vr1 rows ++ _).
  assert (List.length view = 30 + List.length tail) as Hlen
    by (subst view; rewrite !length_app; cbn; lia).
  unfold parseDicom, parse_from.
  assert (start_offset view = 0) as ->.
  { unfold start_offset. rewrite Hlen.
    by destruct (Nat.ltb_spec 132 (30 + List.length tail)); [lia|]. }
  rewrite (parse_loop_enough 4 (List.length view)) by lia. subst view.
  rewrite (parse_loop_short_element 3 40 16 vr0 vr1 rows _ initial_state _
             ltac:(lia) ltac:(lia) Hr Hvr (λ view, dispatch_Rows view _ _ _ _ _)).
  rewrite (parse_loop_short_element 2 40 17 vr0 vr1 columns _ _ _
             ltac:(lia) ltac:(lia) Hc Hvr (λ view, dispatch_Columns view _ _ _ _ _)).
  rewrite (parse_loop_short_element 1 32 19 vr0 vr1 instanceNumber _ _ _
             ltac:(lia) ltac:(lia) Hn Hvr (λ view, dispatch_InstanceNumber view _ _ _ _ _)).
  cbn [parse_loop].
  by destruct (Z.ltb_spec (Z.of_nat 0) (Z.of_nat (List.length tail) - 8)); [lia|].
Qed.

(** A 512 x 256 slice with instance number 7, VR "US", two trailing bytes. *)
Lemma parseDicom_round_trip_witness :
  parseDicom (short_element 40 16 "U" "S" 512 ++ short_element 40 17 "U" "S" 256
              ++ short_element 32 19 "U" "S" 7 ++ [x00; x00]%byte)
  = ParseState (<["00200013"%string := 7%Z]>
                  (<["00280011"%string := 256%Z]> (<["00280010"%string := 512%Z]> ∅)))
               None 512 256.
Proof.
  apply parseDicom_round_trip; [lia | lia | lia | reflexivity | cbn; lia].
Defined.

Lemma parseDicom_fuel_witness :
  parse_loop 3 explicit_ow (start_offset explicit_ow) initial_state = parseDicom explicit_ow.
Proof. apply parseDicom_fuel. cbn. lia. Defined.

Lemma parseDicom_preamble_witness :
  parseDicom (replicate 128 x00%byte ++ magic ++ short_element 40 16 "U" "S" 512)
  = parse_from (short_element 40 16 "U" "S" 512) 0.
Proof. apply parseDicom_preamble; [reflexivity | discriminate]. Defined.

End DicomParseSpec.

(* ===================================================================== *)
(** ** Further facts about the GLSL built-ins and sampleVolume *)
(* ===================================================================== *)

Module ShaderFacts.
Import Shader ShaderSpec.
Local Open Scope Q_scope.

Lemma clamp_inside x lo hi : lo <= x <= hi → clamp x lo hi == x.
Proof.
  intros H. unfold clamp.
  destruct (Q.max_spec x lo) as [[? Hm]|[? Hm]];
  destruct (Q.min_spec (Qmax x lo) hi) as [[? Hn]|[? Hn]];
  rewrite Hn, ?Hm; lra.
Qed.

Lemma fract_bounds x : 0 <= fract x ∧ fract x < 1.
Proof.
  unfold fract, floor. pose proof (Qfloor_le x) as Hle. pose proof (Qlt_floor x) as Hlt.
  rewrite inject_Z_plus in Hlt. change (inject_Z 1) with 1 in Hlt. split; lra.
Qed.

Lemma mix_between a b f lo hi :
  lo <= a <= hi → lo <= b <= hi → 0 <= f <= 1 → lo <= mix a b f <= hi.
Proof. intros Ha Hb Hf. unfold mix. split; nra. Qed.

Lemma sampleVolume_between U (t : sampler2D) (pos : vec3) (lo hi : Q) :
  (∀ uv, lo <= t uv <= hi) → lo <= sampleVolume U t pos <= hi.
Proof.
  intros Ht. rewrite sampleVolume_fetches.
  destruct (blends U pos); [|apply Ht].
  apply mix_between; [apply Ht..|].
  destruct (fract_bounds (slice_coord U pos)). split; lra.
Qed.

Lemma iz_add a b : iz (a + b) == iz a + iz b.
Proof. by rewrite Nat2Z.inj_add, inject_Z_plus. Qed.

Lemma iz_le a b : (a ≤ b)%nat → iz a <= iz b.
Proof. intros H. rewrite <- Zle_Qle. lia. Qed.

End ShaderFacts.

(* ===================================================================== *)
(** ** Further properties of the assembler and the atlas layout *)
(* ===================================================================== *)

Module AssembleSpec.
Import Dicom DicomSpec.

Lemma js_round_mono (p q : Q) : (p <= q)%Q → (js_round p <= js_round q)%Z.
Proof. intros H. unfold js_round. apply Qfloor_resp_le. lra. Qed.

Lemma inject_Z_pos (r : Z) : (0 < r)%Z → (0 < inject_Z r)%Q.
Proof. intros H. change 0%Q with (inject_Z 0). by rewrite <- Zlt_Qlt. Qed.

Lemma normalize_voxel_min minVal range : normalize_voxel minVal range minVal = 0%Z.
Proof.
  unfold normalize_voxel. rewrite Z.sub_diag.
  assert (0 <= js_round (inject_Z 0 / inject_Z range * 255) <= 0)%Z; [|lia].
  apply js_round_bounds; change (inject_Z 0) with 0%Q; unfold Qdiv; lra.
Qed.

Lemma normalize_voxel_max minVal maxVal :
  (minVal < maxVal)%Z → normalize_voxel minVal (maxVal - minVal) maxVal = 255%Z.
Proof.
  intros H. unfold normalize_voxel.
  pose proof (inject_Z_pos (maxVal - minVal) ltac:(lia)) as Hr.
  assert (inject_Z (maxVal - minVal) / inject_Z (maxVal - minVal) * 255 == 255)%Q as Hq
    by (field; lra).
  assert (255 <= js_round (inject_Z (maxVal - minVal) / inject_Z (maxVal - minVal) * 255) <= 255)%Z;
    [|lia].
  apply js_round_bounds; change (inject_Z 255) with 255%Q; rewrite Hq; lra.
Qed.

Lemma normalize_voxel_mono minVal range v w :
  (0 < range)%Z → (v <= w)%Z →
  (normalize_voxel minVal range v <= normalize_voxel minVal range w)%Z.
Proof.
  intros Hr Hvw. unfold normalize_voxel. apply js_round_mono.
  pose proof (inject_Z_pos range Hr) as Hr'.
  assert (inject_Z (v - minVal) <= inject_Z (w - minVal))%Q as Hle
    by (rewrite <- Zle_Qle; lia).
  apply Qmult_le_compat_r; [|lra]. unfold Qdiv.
  apply Qmult_le_compat_r; [done|]. apply Qlt_le_weak. by apply Qinv_lt_0_compat.
Qed.

(** The 16-bit normalisation throws on a buffer with more voxels than a
    call takes arguments.  On any other buffer it uses the whole 8-bit
    range and keeps the order of the voxels: every voxel is mapped into
    [0,255], a voxel equal to the minimum to 0, a voxel equal to the
    maximum to 255 (when the buffer is not constant), and a voxel that is
    not larger than another is not mapped to a larger value. *)
Theorem normalize_spreads (max_arguments : N) (volumeData : list Z) :
  ((max_arguments < N.of_nat (List.length volumeData))%N →
   normalize max_arguments volumeData = None) ∧
  ((N.of_nat (List.length volumeData) <= max_arguments)%N →
   ∃ normalized,
     normalize max_arguments volumeData = Some normalized ∧
     List.length normalized = List.length volumeData ∧
     (∀ i v, volumeData !! i = Some v →
        ∃ b, normalized !! i = Some b ∧ (0 <= b <= 255)%Z ∧
             (v = list_min volumeData → b = 0%Z) ∧
             (v = list_max volumeData → (list_min volumeData < list_max volumeData)%Z →
              b = 255%Z)) ∧
     (∀ i j v w b c,
        volumeData !! i = Some v → volumeData !! j = Some w →
        normalized !! i = Some b → normalized !! j = Some c →
        (v <= w)%Z → (b <= c)%Z)).
Proof.
  split; [apply normalize_None|]. intros Hlen.
  eexists. split; [by apply normalize_Some|].
  set (minVal := list_min volumeData). set (maxVal := list_max volumeData).
  set (range := if (maxVal - minVal =? 0)%Z then 1%Z else (maxVal - minVal)%Z).
  assert (∀ i v, volumeData !! i = Some v → (minVal <= v <= maxVal)%Z) as Hb.
  { intros i v Hv. apply list_elem_of_lookup_2 in Hv.
    split; [by apply list_min_le | by apply list_max_ge]. }
  assert (∀ i v, volumeData !! i = Some v →
            (0 < range)%Z ∧ (0 <= normalize_voxel minVal range v <= 255)%Z) as Hn.
  { intros i v Hv. apply Hb in Hv.
    assert ((0 < range)%Z ∧ (maxVal - minVal <= range)%Z) as [Hr Hr'].
    { subst range. destruct (Z.eqb_spec (maxVal - minVal) 0); lia. }
    split; [done|]. apply normalize_voxel_bounds; lia. }
  split; [by rewrite length_fmap|]. split.
  - intros i v Hv. destruct (Hn i v Hv) as [Hr Hbd].
    exists (normalize_voxel minVal range v).
    rewrite list_lookup_fmap, Hv. cbn [fmap option_fmap option_map].
    rewrite Z.mod_small by lia.
    split; [done|]. split; [done|]. split.
    + intros ->. apply normalize_voxel_min.
    + intros -> Hlt. subst range.
      destruct (Z.eqb_spec (maxVal - minVal) 0); [lia|]. by apply normalize_voxel_max.
  - intros i j v w b c Hv Hw Hbv Hcw Hvw.
    destruct (Hn i v Hv) as [Hr Hbd]. destruct (Hn j w Hw) as [_ Hbd'].
    rewrite list_lookup_fmap, Hv in Hbv. rewrite list_lookup_fmap, Hw in Hcw.
    cbn [fmap option_fmap option_map] in Hbv, Hcw.
    rewrite Z.mod_small in Hbv, Hcw by lia.
    inversion Hbv; inversion Hcw; subst. by apply normalize_voxel_mono.
Qed.

End AssembleSpec.

Module LayoutSpec.
Import Atlas AtlasSpec.

(** The atlas grid is never taller than wide, has no empty tile row, and
    has fewer padding tiles than one full row: for depth > 0,
    tileRows <= tileCountPerRow and
    depth <= tileCountPerRow * tileRows < depth + tileCountPerRow. *)
Theorem loadVolume_grid (vd : list Q) (width height depth : nat) :
  0 < depth →
  let layout := (loadVolume (VolumeData vd (width, height, depth))).2 in
  let tileCountPerRow := ceil_sqrt depth in
  let tileRows := ceil_div depth tileCountPerRow in
  tl_width layout = tileCountPerRow * width ∧
  tl_height layout = tileRows * height ∧
  tileRows ≤ tileCountPerRow ∧
  depth ≤ tileCountPerRow * tileRows ∧
  tileCountPerRow * tileRows < depth + tileCountPerRow.
Proof.
  intros Hd. cbn zeta.
  pose proof (ceil_sqrt_spec depth Hd) as [_ Hsq].
  pose proof (ceil_sqrt_pos depth Hd) as Hs.
  pose proof (ceil_div_spec depth (ceil_sqrt depth) Hd Hs) as [Hlo Hhi].
  split; [done|]. split; [done|]. split; [|split; nia].
  unfold ceil_div. apply Nat.lt_succ_r, Nat.Div0.div_lt_upper_bound. nia.
Qed.

Lemma loadVolume_grid_witness :
  let layout := (loadVolume (VolumeData [] (2, 3, 5))).2 in
  tl_width layout = ceil_sqrt 5 * 2 ∧
  tl_height layout = ceil_div 5 (ceil_sqrt 5) * 3 ∧
  ceil_div 5 (ceil_sqrt 5) ≤ ceil_sqrt 5 ∧
  5 ≤ ceil_sqrt 5 * ceil_div 5 (ceil_sqrt 5) ∧
  ceil_sqrt 5 * ceil_div 5 (ceil_sqrt 5) < 5 + ceil_sqrt 5.
Proof. apply (loadVolume_grid [] 2 3 5). lia. Defined.

End LayoutSpec.

(* ===================================================================== *)
(** ** Further properties of the fragment shader of VolumeRaycaster *)
(* ===================================================================== *)

Module SamplerSpec.
Import Shader ShaderSpec ShaderFacts.
Local Open Scope Q_scope.
#[local] Existing Instances floor_proper mix_proper.

(** sampleVolume stays within the range of the texture: if every texel
    fetch yields a value in [lo,hi], so does the sample (the blend between
    two slices is a convex combination). *)
Theorem sampleVolume_range U (t : sampler2D) (pos : vec3) (lo hi : Q) :
  (∀ uv, lo <= t uv <= hi) → lo <= sampleVolume U t pos <= hi.
Proof.
  apply sampleVolume_between.
Qed.

Lemma sampleVolume_range_witness :
  0 <= sampleVolume demo_uniforms demo_texture (Vec3 (1 # 2) (1 # 2) (1 # 3)) <= 1.
Proof.
  apply sampleVolume_range. intros uv. unfold demo_texture.
  destruct (leb (v2_x uv) (1 # 2)); split; discriminate.
Defined.

End SamplerSpec.

Module IntegratorSpec.
Import Shader ShaderSpec ShaderFacts.
Local Open Scope Q_scope.

(** *** Premultiplied colour *)

Section Premultiplied.
Variables (U : uniforms) (tex : sampler2D) (lighting : Q → Q → Q → Q).
Variables (rayOrigin rayDir : vec3) (tFar : Q).
Hypothesis Hop : 0 <= u_opacity U <= 1.
Hypothesis Hlight : ∀ dx dy dz, 0 <= lighting dx dy dz <= 1.

Lemma march_body_premultiplied st st' :
  premultiplied (m_colorAccum st) →
  march_body U tex lighting rayOrigin rayDir tFar st = Some st' →
  premultiplied (m_colorAccum st').
Proof.
  unfold premultiplied. intros (Hr & Hg & Hb & Ha). unfold march_body.
  destruct (leb tFar (m_tNear st) || leb (95 # 100) (c_a (m_colorAccum st))); [done|].
  match goal with
  | |- context [ltb _ (clamp ?d 0 1)] =>
      pose proof (clamp_bounds d 0 1 ltac:(lra)) as Hn; generalize dependent (clamp d 0 1)
  end.
  intros nd Hnd. destruct (ltb (u_threshold U / 255) nd); [|by intros [= <-]].
  match goal with
  | |- context [lighting ?dx ?dy ?dz] =>
      pose proof (Hlight dx dy dz) as Hl; generalize dependent (lighting dx dy dz)
  end.
  intros l Hl [= <-]. cbn.
  assert (0 <= nd * u_opacity U <= 1) as Hp by nra.
  assert (0 <= nd * l <= 1) as Hq by nra.
  generalize dependent (nd * u_opacity U). intros p Hp.
  generalize dependent (nd * l). intros q Hq.
  assert (0 <= q * p <= p) as Hqp by nra.
  generalize dependent (q * p). intros c Hc.
  repeat split; nra.
Qed.

Lemma march_premultiplied n st :
  premultiplied (m_colorAccum st) →
  premultiplied (m_colorAccum (march U tex lighting n rayOrigin rayDir tFar st)).
Proof.
  revert st. induction n as [|n IH]; intros st Hst; [done|]. cbn.
  destruct (march_body U tex lighting rayOrigin rayDir tFar st) as [st'|] eqn:Hb; [|done].
  apply IH. by eapply march_body_premultiplied.
Qed.

End Premultiplied.

(** With opacity and the lighting term in [0,1], the colour the shader
    writes for a ray is premultiplied: each of red, green and blue lies
    between 0 and the alpha written, and alpha is at most 1. *)
Theorem shade_premultiplied U tex lighting (rayOrigin rayDir : vec3) (tNear tFar : Q) :
  0 <= u_opacity U <= 1 →
  (∀ dx dy dz, 0 <= lighting dx dy dz <= 1) →
  premultiplied (shade U tex lighting rayOrigin rayDir tNear tFar).1.
Proof.
  intros Hop Hl. unfold shade.
  destruct (ltb tFar tNear || ltb tFar 0); [cbn; unfold premultiplied; cbn; lra|].
  cbn [fst].
  pose proof (march_premultiplied U tex lighting rayOrigin rayDir tFar Hop Hl 200
                (MarchState (Qmax 0 tNear) (splat4 0) [])
                ltac:(unfold premultiplied; cbn; lra)) as H.
  unfold premultiplied in *. destruct H as (Hr & Hg & Hb & Ha).
  set (c := m_colorAccum _) in *. cbn [clamp4 c_r c_g c_b c_a].
  rewrite !clamp_inside by lra. lra.
Qed.

Lemma shade_premultiplied_witness :
  premultiplied
    (shade demo_uniforms demo_texture demo_lighting
           (pixel_ray demo_uniforms (Vec2 (1 # 2) (1 # 2))).1
           (pixel_ray demo_uniforms (Vec2 (1 # 2) (1 # 2))).2 (11 # 8) (21 # 8)).1.
Proof.
  apply shade_premultiplied.
  - split; discriminate.
  - intros dx dy dz. split; discriminate.
Defined.

End IntegratorSpec.

Module RayBoxSpec.
Import Shader ShaderSpec.
Local Open Scope Q_scope.

(** *** Samples stay at the box *)

(** One axis of the slab test: between the entry and the exit parameter the
    ray is between the two planes. *)
Lemma slab_axis (o d t : Q) :
  ¬ d == 0 →
  Qmin ((- (1 # 2) - o) / d) (((1 # 2) - o) / d) <= t →
  t <= Qmax ((- (1 # 2) - o) / d) (((1 # 2) - o) / d) →
  - (1 # 2) <= o + d * t <= 1 # 2.
Proof.
  intros Hd.
  assert ((- (1 # 2) - o) / d * d == - (1 # 2) - o) as Ha by (field; done).
  assert (((1 # 2) - o) / d * d == (1 # 2) - o) as Hb by (field; done).
  generalize dependent ((- (1 # 2) - o) / d). intros a Ha.
  generalize dependent (((1 # 2) - o) / d). intros b Hb.
  destruct (Q.min_spec a b) as [[? ->]|[? ->]];
  destruct (Q.max_spec a b) as [[? ->]|[? ->]]; intros H1 H2;
  (destruct (Qlt_le_dec 0 d); [|assert (d < 0) by (destruct (Qlt_le_dec d 0); [done|]; exfalso; apply Hd; lra)]);
  split; nra.
Qed.

Lemma slab_defined (o d : vec3) :
  ¬ v_x d == 0 → ¬ v_y d == 0 → ¬ v_z d == 0 →
  ∃ tNear tFar, slab o d = Some (tNear, tFar).
Proof.
  intros Hx Hy Hz. unfold slab.
  destruct (Qeq_bool (v_x d) 0) eqn:Ex; [by apply Qeq_bool_iff in Ex|].
  destruct (Qeq_bool (v_y d) 0) eqn:Ey; [by apply Qeq_bool_iff in Ey|].
  destruct (Qeq_bool (v_z d) 0) eqn:Ez; [by apply Qeq_bool_iff in Ez|].
  cbn [orb]. by eexists _, _.
Qed.

Lemma slab_inside (o d : vec3) (tNear tFar t : Q) :
  slab o d = Some (tNear, tFar) →
  tNear <= t → t <= tFar →
  let p := add3 (add3 o (scale3 d t)) (splat3 (1 # 2)) in
  0 <= v_x p <= 1 ∧ 0 <= v_y p <= 1 ∧ 0 <= v_z p <= 1.
Proof.
  unfold slab.
  destruct (Qeq_bool (v_x d) 0) eqn:Ex; [done|].
  destruct (Qeq_bool (v_y d) 0) eqn:Ey; [done|].
  destruct (Qeq_bool (v_z d) 0) eqn:Ez; [done|].
  assert (¬ v_x d == 0) as Hx by (intros E; apply Qeq_bool_iff in E; congruence).
  assert (¬ v_y d == 0) as Hy by (intros E; apply Qeq_bool_iff in E; congruence).
  assert (¬ v_z d == 0) as Hz by (intros E; apply Qeq_bool_iff in E; congruence).
  cbn. intros [= <- <-] Hn Hf.
  pose proof (Q.le_max_l (Qmax (Qmin ((- (1 # 2) - v_x o) / v_x d) (((1 # 2) - v_x o) / v_x d))
                               (Qmin ((- (1 # 2) - v_y o) / v_y d) (((1 # 2) - v_y o) / v_y d)))
                         (Qmin ((- (1 # 2) - v_z o) / v_z d) (((1 # 2) - v_z o) / v_z d))).
  pose proof (Q.le_max_r (Qmax (Qmin ((- (1 # 2) - v_x o) / v_x d) (((1 # 2) - v_x o) / v_x d))
                               (Qmin ((- (1 # 2) - v_y o) / v_y d) (((1 # 2) - v_y o) / v_y d)))
                         (Qmin ((- (1 # 2) - v_z o) / v_z d) (((1 # 2) - v_z o) / v_z d))).
  pose proof (Q.le_max_l (Qmin ((- (1 # 2) - v_x o) / v_x d) (((1 # 2) - v_x o) / v_x d))
                         (Qmin ((- (1 # 2) - v_y o) / v_y d) (((1 # 2) - v_y o) / v_y d))).
  pose proof (Q.le_max_r (Qmin ((- (1 # 2) - v_x o) / v_x d) (((1 # 2) - v_x o) / v_x d))
                         (Qmin ((- (1 # 2) - v_y o) / v_y d) (((1 # 2) - v_y o) / v_y d))).
  pose proof (Q.le_min_l (Qmin (Qmax ((- (1 # 2) - v_x o) / v_x d) (((1 # 2) - v_x o) / v_x d))
                               (Qmax ((- (1 # 2) - v_y o) / v_y d) (((1 # 2) - v_y o) / v_y d)))
                         (Qmax ((- (1 # 2) - v_z o) / v_z d) (((1 # 2) - v_z o) / v_z d))).
  pose proof (Q.le_min_r (Qmin (Qmax ((- (1 # 2) - v_x o) / v_x d) (((1 # 2) - v_x o) / v_x d))
                               (Qmax ((- (1 # 2) - v_y o) / v_y d) (((1 # 2) - v_y o) / v_y d)))
                         (Qmax ((- (1 # 2) - v_z o) / v_z d) (((1 # 2) - v_z o) / v_z d))).
  pose proof (Q.le_min_l (Qmax ((- (1 # 2) - v_x o) / v_x d) (((1 # 2) - v_x o) / v_x d))
                         (Qmax ((- (1 # 2) - v_y o) / v_y d) (((1 # 2) - v_y o) / v_y d))).
  pose proof (Q.le_min_r (Qmax ((- (1 # 2) - v_x o) / v_x d) (((1 # 2) - v_x o) / v_x d))
                         (Qmax ((- (1 # 2) - v_y o) / v_y d) (((1 # 2) - v_y o) / v_y d))).
  pose proof (slab_axis (v_x o) (v_x d) t Hx ltac:(lra) ltac:(lra)).
  pose proof (slab_axis (v_y o) (v_y d) t Hy ltac:(lra) ltac:(lra)).
  pose proof (slab_axis (v_z o) (v_z d) t Hz ltac:(lra) ltac:(lra)).
  repeat split; lra.
Qed.

Section Samples.
Variables (U : uniforms) (tex : sampler2D) (lighting : Q → Q → Q → Q).
Variables (rayOrigin rayDir : vec3) (tNear tFar : Q).
Hypothesis Hslab : slab rayOrigin rayDir = Some (tNear, tFar).

Lemma march_body_near_cube st st' :
  tNear <= m_tNear st → Forall near_cube (m_samples st) →
  march_body U tex lighting rayOrigin rayDir tFar st = Some st' →
  tNear <= m_tNear st' ∧ Forall near_cube (m_samples st').
Proof.
  intros Ht Hs. unfold march_body.
  destruct (leb tFar (m_tNear st)) eqn:Hbrk; [done|].
  assert (m_tNear st < tFar) as Hlt.
  { apply Qnot_le_lt. intros Hle. apply leb_le in Hle. congruence. }
  destruct (leb (95 # 100) (c_a (m_colorAccum st))); [done|]. cbn [orb].
  pose proof (slab_inside rayOrigin rayDir tNear tFar (m_tNear st) Hslab Ht ltac:(lra))
    as (Hpx & Hpy & Hpz).
  cbn zeta in Hpx, Hpy, Hpz.
  set (volCoord := add3 (add3 rayOrigin (scale3 rayDir (m_tNear st))) (splat3 (1 # 2))) in *.
  clearbody volCoord. unfold stepSize.
  destruct (ltb _ _); intros [= <-]; cbn [m_tNear m_samples];
    (split; [lra|]); apply Forall_app; (split; [done|]);
    repeat first [apply Forall_nil_2 | apply Forall_cons_2];
    unfold near_cube; cbn; lra.
Qed.

Lemma march_near_cube n st :
  tNear <= m_tNear st → Forall near_cube (m_samples st) →
  Forall near_cube (m_samples (march U tex lighting n rayOrigin rayDir tFar st)).
Proof.
  revert st. induction n as [|n IH]; intros st Ht Hs; [exact Hs|]. cbn [march].
  destruct (march_body U tex lighting rayOrigin rayDir tFar st) as [st'|] eqn:Hb; [|exact Hs].
  destruct (march_body_near_cube st st' Ht Hs Hb). by apply IH.
Qed.

End Samples.

(** For a ray with no zero direction component, the slab test yields an
    entry and an exit parameter, and every position at which the
    integrator then calls sampleVolume lies within 0.01 (the gradient
    offset) of the unit cube of volume coordinates: the march only visits
    parameters between the entry and the exit point. *)
Theorem shade_samples_near_cube U tex lighting (rayOrigin rayDir : vec3) :
  ¬ v_x rayDir == 0 → ¬ v_y rayDir == 0 → ¬ v_z rayDir == 0 →
  ∃ tNear tFar,
    slab rayOrigin rayDir = Some (tNear, tFar) ∧
    Forall near_cube (shade U tex lighting rayOrigin rayDir tNear tFar).2.
Proof.
  intros Hx Hy Hz.
  destruct (slab_defined rayOrigin rayDir Hx Hy Hz) as (tNear & tFar & Hslab).
  exists tNear, tFar. split; [done|]. unfold shade.
  destruct (ltb _ _ || ltb _ _); [constructor|]. cbn [snd].
  apply (march_near_cube U tex lighting rayOrigin rayDir tNear tFar Hslab);
    [|constructor]. cbn [m_tNear]. apply Q.le_max_r.
Qed.

Lemma shade_samples_near_cube_witness :
  let ray := pixel_ray demo_uniforms (Vec2 (1 # 2) (1 # 2)) in
  ∃ tNear tFar,
    slab ray.1 ray.2 = Some (tNear, tFar) ∧
    Forall near_cube (shade demo_uniforms demo_texture demo_lighting ray.1 ray.2 tNear tFar).2.
Proof.
  intros ray. apply shade_samples_near_cube; intros H; vm_compute in H; discriminate H.
Defined.

End RayBoxSpec.

(* ===================================================================== *)
(** ** Properties of the atlas texture: upload, filtering and what a
       sample is drawn from *)
(* ===================================================================== *)

Module TextureSpec.
Import Atlas AtlasSpec Shader ShaderSpec ShaderFacts Texture Settings.
Local Open Scope Q_scope.
#[local] Existing Instances floor_proper mix_proper.

(** *** The upload *)

Lemma row_stride_spec width :
  (width ≤ row_stride width)%nat ∧ (row_stride width = width ↔ width mod 4 = 0)%nat.
Proof.
  unfold row_stride.
  pose proof (Nat.div_mod (width + 3) 4 ltac:(lia)) as H1.
  pose proof (Nat.mod_upper_bound (width + 3) 4 ltac:(lia)) as H2.
  pose proof (Nat.div_mod width 4 ltac:(lia)) as H3.
  pose proof (Nat.mod_upper_bound width 4 ltac:(lia)) as H4.
  split; [lia|]. split; intros H; [|].
  - assert (width / 4 = (width + 3) / 4)%nat as E by lia. lia.
  - assert ((width + 3) / 4 = width / 4)%nat as E by lia. lia.
Qed.

Lemma texImage2D_Some max_texture_size width height pixels :
  List.length pixels = (width * height)%nat →
  is_Some (texImage2D max_texture_size width height pixels)
  ↔ uploads max_texture_size width height.
Proof.
  intros Hlen. unfold texImage2D, uploads.
  destruct (row_stride_spec width) as [Hge Hal].
  destruct (Nat.leb_spec width max_texture_size) as [Hw|Hw]; cbn [andb];
    [|split; [by intros [? [=]]|lia]].
  destruct (Nat.leb_spec height max_texture_size) as [Hh|Hh]; cbn [andb];
    [|split; [by intros [? [=]]|lia]].
  rewrite Hlen.
  destruct (Nat.leb_spec (required_size width height) (width * height)) as [Hr|Hr].
  - split; [intros _|by eexists]. split; [done|]. split; [done|].
    destruct height as [|h']; [left; lia|]. cbn [required_size] in Hr.
    destruct h' as [|h'']; [left; lia|]. right. apply Hal. nia.
  - split; [by intros [? [=]]|]. intros (_ & _ & [H1|H4]); exfalso.
    + destruct height as [|[|h']]; cbn [required_size] in Hr; lia.
    + apply Hal in H4. destruct height as [|h']; cbn [required_size] in Hr; [lia|].
      rewrite H4 in Hr. nia.
Qed.

(** An upload that goes through defines the image of the bytes handed
    over, row by row. *)
Lemma texImage2D_image max_texture_size width height pixels img :
  List.length pixels = (width * height)%nat →
  texImage2D max_texture_size width height pixels = Some img →
  i_width img = width ∧ i_height img = height ∧
  ∀ i j, (i < width)%nat → (j < height)%nat →
    i_texel img i j = inject_Z (default 0%Z (pixels !! (j * width + i)%nat)) / 255.
Proof.
  intros Hlen Himg.
  assert (uploads max_texture_size width height) as (_ & _ & Hal).
  { apply (texImage2D_Some _ _ _ pixels Hlen). by rewrite Himg. }
  unfold texImage2D in Himg. destruct (_ && _); [|done].
  injection Himg as <-. cbn [i_width i_height i_texel].
  split; [done|]. split; [done|]. intros i j Hi Hj.
  destruct Hal as [H1|H4].
  - assert (j = 0)%nat as -> by lia. done.
  - apply (row_stride_spec width) in H4. by rewrite H4.
Qed.

(** *** Filtering inside a window of an image *)

Lemma edge_inside size (i : Z) : (0 <= i < Z.of_nat size)%Z → edge size i = Z.to_nat i.
Proof. intros H. unfold edge. f_equal. lia. Qed.

Lemma Qfloor_shift (t : Q) (c : nat) : Qfloor (t + iz c) = (Qfloor t + Z.of_nat c)%Z.
Proof.
  apply Qfloor_unique.
  - rewrite inject_Z_plus. pose proof (Qfloor_le t). lra.
  - rewrite !inject_Z_plus. pose proof (Qlt_floor t) as H.
    rewrite inject_Z_plus in H. lra.
Qed.

Lemma Qfloor_range (t : Q) (n : nat) : 0 <= t → t < iz n → (0 <= Qfloor t < Z.of_nat n)%Z.
Proof.
  intros H0 H1. split.
  - rewrite <- (Qfloor_Z 0). by apply Qfloor_resp_le.
  - pose proof (Qfloor_le t) as Hle. rewrite Zlt_Qlt. lra.
Qed.

(** One axis of NEAREST: a coordinate in a window of [n] texels that
    starts at texel [c] of an axis of [N] texels. *)
Lemma axis_nearest (N n c : nat) (T t : Q) :
  (c + n ≤ N)%nat → T == t + iz c → 0 <= t → t < iz n →
  edge N (Qfloor T) = (c + edge n (Qfloor t))%nat ∧ (edge n (Qfloor t) < n)%nat.
Proof.
  intros Hc HT H0 H1.
  assert (Qfloor T = (Qfloor t + Z.of_nat c)%Z) as ->
    by (etrans; [apply Qfloor_comp, HT|apply Qfloor_shift]).
  pose proof (Qfloor_range t n H0 H1) as Hr.
  rewrite !edge_inside by lia. lia.
Qed.

(** One axis of LINEAR, for a coordinate between the centres of the first
    and the last texel of the window: the lower texel lies in the window,
    and so does the upper one unless its weight is 0. *)
Lemma axis_linear (N n c : nat) (T t : Q) :
  (c + n ≤ N)%nat → T == t + iz c → 1 # 2 <= t → t <= iz n - (1 # 2) →
  let I0 := Qfloor (T - (1 # 2)) in
  let i0 := Qfloor (t - (1 # 2)) in
  T - (1 # 2) - inject_Z I0 == t - (1 # 2) - inject_Z i0 ∧
  edge N I0 = (c + edge n i0)%nat ∧ (edge n i0 < n)%nat ∧
  (t - (1 # 2) - inject_Z i0 == 0 ∨
   edge N (I0 + 1) = (c + edge n (i0 + 1))%nat ∧ (edge n (i0 + 1) < n)%nat).
Proof.
  intros Hc HT H0 H1. cbv zeta.
  assert (T - (1 # 2) == t - (1 # 2) + iz c) as HT' by (rewrite HT; ring).
  assert (0 < n)%nat as Hn.
  { destruct n; [|lia]. change (iz 0) with 0 in H1. lra. }
  assert (t - (1 # 2) < iz n) as H1' by lra.
  pose proof (Qfloor_range (t - (1 # 2)) n ltac:(lra) H1') as Hr.
  assert (Qfloor (T - (1 # 2)) = (Qfloor (t - (1 # 2)) + Z.of_nat c)%Z) as ->
    by (etrans; [apply Qfloor_comp, HT'|apply Qfloor_shift]).
  set (i0 := Qfloor (t - (1 # 2))) in *.
  split; [rewrite inject_Z_plus; lra|].
  split; [rewrite !edge_inside by lia; lia|].
  split; [rewrite edge_inside by lia; lia|].
  destruct (Z.eq_dec i0 (Z.of_nat n - 1)%Z) as [Elast|Hnot].
  - left. pose proof (Qfloor_le (t - (1 # 2))) as Hle. fold i0 in Hle.
    assert (inject_Z i0 == iz n - 1) as E.
    { rewrite Elast. unfold Z.sub. rewrite inject_Z_plus. reflexivity. }
    lra.
  - right. rewrite !edge_inside by lia. lia.
Qed.

Lemma bilinear_eq (a b F00 F10 F01 F11 f00 f10 f01 f11 : Q) :
  F00 == f00 → (a == 0 ∨ F10 == f10) → (b == 0 ∨ F01 == f01) →
  (a == 0 ∨ b == 0 ∨ F11 == f11) →
  (1 - a) * (1 - b) * F00 + a * (1 - b) * F10 + (1 - a) * b * F01 + a * b * F11
  == (1 - a) * (1 - b) * f00 + a * (1 - b) * f10 + (1 - a) * b * f01 + a * b * f11.
Proof.
  intros E00 [A|E10] [B|E01] [A'|[B'|E11]];
    rewrite ?E00, ?E10, ?E01, ?E11;
    try (rewrite A); try (rewrite B); try (rewrite A'); try (rewrite B'); ring.
Qed.

Section Window.
Variables (big small : image) (cx cy : nat) (uv p : vec2).
Hypothesis Hcx : (cx + i_width small ≤ i_width big)%nat.
Hypothesis Hcy : (cy + i_height small ≤ i_height big)%nat.
Hypothesis Htexel :
  ∀ i j, (i < i_width small)%nat → (j < i_height small)%nat →
    i_texel big (cx + i) (cy + j) == i_texel small i j.
Hypothesis Hx : v2_x uv * iz (i_width big) == v2_x p * iz (i_width small) + iz cx.
Hypothesis Hy : v2_y uv * iz (i_height big) == v2_y p * iz (i_height small) + iz cy.

Lemma nearest_window :
  0 <= v2_x p * iz (i_width small) → v2_x p * iz (i_width small) < iz (i_width small) →
  0 <= v2_y p * iz (i_height small) → v2_y p * iz (i_height small) < iz (i_height small) →
  nearest big uv == nearest small p.
Proof.
  intros Hx0 Hx1 Hy0 Hy1. unfold nearest, fetch.
  destruct (axis_nearest _ _ _ _ _ Hcx Hx Hx0 Hx1) as [-> ?].
  destruct (axis_nearest _ _ _ _ _ Hcy Hy Hy0 Hy1) as [-> ?].
  by apply Htexel.
Qed.

Lemma linear_window :
  between_centres (i_width small) (i_height small) (v2_x p) (v2_y p) →
  linear big uv == linear small p.
Proof.
  intros [[Hx0 Hx1] [Hy0 Hy1]]. unfold linear, fetch. cbv zeta.
  destruct (axis_linear _ _ _ _ _ Hcx Hx Hx0 Hx1) as (Ea & Ei0 & Hi0 & Hi1).
  destruct (axis_linear _ _ _ _ _ Hcy Hy Hy0 Hy1) as (Eb & Ej0 & Hj0 & Hj1).
  cbv zeta in Ea, Ei0, Hi0, Hi1, Eb, Ej0, Hj0, Hj1.
  rewrite Ea, Eb, Ei0, Ej0.
  apply bilinear_eq.
  - by apply Htexel.
  - destruct Hi1 as [A|[-> ?]]; [by left|right; by apply Htexel].
  - destruct Hj1 as [B|[-> ?]]; [by left|right; by apply Htexel].
  - destruct Hi1 as [A|[-> ?]]; [by left|].
    destruct Hj1 as [B|[-> ?]]; [right; by left|right; right; by apply Htexel].
Qed.

End Window.

(** *** The texels of the atlas *)

Section AtlasTexels.
Variables (vd : list Q) (width height depth max_texture_size : nat) (img : image).

Local Abbreviation s := (ceil_sqrt depth).
Local Abbreviation rows := (ceil_div depth (ceil_sqrt depth)).
Local Abbreviation v := (VolumeData vd (width, height, depth)).

Hypothesis Hvol : is_volume v.
Hypothesis Himg :
  texImage2D max_texture_size (s * width) (rows * height) (loadVolume v).1 = Some img.

Lemma atlas_size : i_width img = (s * width)%nat ∧ i_height img = (rows * height)%nat.
Proof.
  destruct (texImage2D_image _ _ _ _ _ (packed_length vd width height depth) Himg)
    as (Hw & Hh & _). done.
Qed.

(** The texel of a voxel is the voxel. *)
Lemma atlas_texel k x y :
  (k < depth)%nat → (x < width)%nat → (y < height)%nat →
  i_texel img (k mod s * width + x) (k / s * height + y) = luminance v x y k.
Proof.
  intros Hk Hx Hy.
  destruct (texImage2D_image _ _ _ _ _ (packed_length vd width height depth) Himg)
    as (_ & _ & Htex).
  destruct (atlas_pixel_bound width height depth x y k Hx Hy Hk) as [H1 H2].
  cbn [atlas_pixel fst snd] in H1, H2.
  rewrite Htex by done.
  pose proof (packed_voxel vd width height depth x y k Hx Hy Hk) as Hp.
  unfold texel, atlas_pixel in Hp. cbn [fst snd] in Hp.
  rewrite Hp. cbn [default from_option]. unfold id.
  destruct (voxel_is_byte vd width height depth x y k Hvol Hx Hy Hk) as (b & Hb & Hv).
  unfold luminance. rewrite Hv. cbn [default from_option]. unfold id.
  by rewrite js_round_inject_Z, clamp255_id.
Qed.




Lemma tile_fits t :
  (t < s * rows)%nat →
  (t mod s * width + width ≤ s * width)%nat ∧ (t / s * height + height ≤ rows * height)%nat.
Proof.
  intros Ht.
  assert (0 < s)%nat as Hs by lia.
  pose proof (Nat.mod_upper_bound t s ltac:(lia)) as Hm.
  assert (t / s < rows)%nat as Hd by (apply Nat.Div0.div_lt_upper_bound; lia).
  split; nia.
Qed.

Lemma slice_in_grid k : (k < depth)%nat → (k < s * rows)%nat.
Proof.
  intros Hk. assert (0 < s)%nat as Hs by (apply ceil_sqrt_pos; lia).
  pose proof (ceil_div_covers depth s Hs). lia.
Qed.

(** Under LINEAR, a coordinate at least half a texel inside the tile of
    slice [k] is filtered from the texels of that slice alone. *)
Lemma slice_linear k uv p :
  (k < depth)%nat →
  v2_x uv * iz (s * width) == v2_x p * iz width + iz (k mod s * width) →
  v2_y uv * iz (rows * height) == v2_y p * iz height + iz (k / s * height) →
  between_centres width height (v2_x p) (v2_y p) →
  linear img uv == linear (slice_image v k) p.
Proof.
  intros Hk Hx Hy Hb. destruct atlas_size as [Ew Eh].
  destruct (tile_fits k (slice_in_grid k Hk)) as [Hfx Hfy].
  apply (linear_window img (slice_image v k) (k mod s * width) (k / s * height));
    change (i_width (slice_image v k)) with width;
    change (i_height (slice_image v k)) with height;
    rewrite ?Ew, ?Eh; try done.
  intros i j Hi Hj. by rewrite atlas_texel.
Qed.





End AtlasTexels.

(** *** The texture units after loadVolume *)

Section Units.
Variables (vd : list Q) (width height depth max_texture_size : nat).

Local Abbreviation s := (ceil_sqrt depth).
Local Abbreviation rows := (ceil_div depth (ceil_sqrt depth)).
Local Abbreviation v := (VolumeData vd (width, height, depth)).

Lemma units_unfold :
  raycaster_unit max_texture_size v
  = texture2D linear (texImage2D max_texture_size (s * width) (rows * height) (loadVolume v).1)
  ∧ nearest_unit max_texture_size v
  = texture2D nearest (texImage2D max_texture_size (s * width) (rows * height) (loadVolume v).1).
Proof. split; reflexivity. Qed.

Lemma units_uploaded :
  uploads max_texture_size (s * width) (rows * height) →
  ∃ img,
    texImage2D max_texture_size (s * width) (rows * height) (loadVolume v).1 = Some img ∧
    raycaster_unit max_texture_size v = linear img ∧
    nearest_unit max_texture_size v = nearest img.
Proof.
  intros Hup.
  apply (texImage2D_Some _ _ _ (loadVolume v).1 (packed_length vd width height depth))
    in Hup as [img Himg].
  exists img. split; [done|]. destruct units_unfold as [-> ->]. by rewrite Himg.
Qed.


(** *** The coordinate the shaders compute for a tile *)

Lemma tile_uv U (k : nat) (idx px py : Q) :
  layout_ok U width height depth →
  (0 < width)%nat → (0 < height)%nat → (0 < depth)%nat →
  idx == iz k →
  (px * (v_x (u_volumeSize U) / u_textureWidth U) + v2_x (tile_offset U idx)) * iz (s * width)
    == px * iz width + iz (k mod s * width) ∧
  (py * (v_y (u_volumeSize U) / u_textureHeight U) + v2_y (tile_offset U idx))
    * iz (rows * height)
    == py * iz height + iz (k / s * height).
Proof.
  intros (Htw & Hth & _ & Hvs) Hw Hh Hd Hidx.
  assert (0 < s)%nat as Hs by (by apply ceil_sqrt_pos).
  assert (0 < rows)%nat as Hr by (pose proof (ceil_div_covers depth s Hs); nia).
  destruct (tile_row_col s width k idx Hs Hw Hidx) as [Hrow Hcol].
  pose proof (iz_pos _ Hw) as Hwq. pose proof (iz_pos _ Hh) as Hhq.
  pose proof (iz_pos _ Hs) as Hsq. pose proof (iz_pos _ Hr) as Hrq.
  unfold tile_offset. rewrite Htw, Hth, Hvs. cbn [v_x v_y v2_x v2_y].
  split.
  - rewrite Hcol, !iz_mul. field. split; lra.
  - rewrite Hrow, !iz_mul. field. split; lra.
Qed.

(** *** sampleVolume on the texture of VolumeRaycaster *)

Section Raycaster.
Variable U : uniforms.
Hypothesis Hlayout : layout_ok U width height depth.
Hypothesis Hvol : is_volume v.
Hypothesis Hw : (0 < width)%nat.
Hypothesis Hh : (0 < height)%nat.
Hypothesis Hd : (0 < depth)%nat.
Hypothesis Hup : uploads max_texture_size (s * width) (rows * height).

Lemma sampleVolume_linear (pos : vec3) :
  let p := Vec2 (clamp (v_x pos) (1 # 1000) (999 # 1000))
                (clamp (v_y pos) (1 # 1000) (999 # 1000)) in
  let zc := clamp (v_z pos) (1 # 1000) (999 # 1000) * iz depth in
  between_centres width height (v2_x p) (v2_y p) →
  ∃ k : nat,
    (k < depth)%nat ∧ iz k <= zc ∧ zc < iz k + 1 ∧
    (zc == iz k ∨ S k = depth →
     sampleVolume U (raycaster_unit max_texture_size v) pos == linear (slice_image v k) p) ∧
    (iz k < zc → (S k < depth)%nat →
     sampleVolume U (raycaster_unit max_texture_size v) pos
     == linear (slice_image v k) p * (1 - (zc - iz k))
        + linear (slice_image v (S k)) p * (zc - iz k)).
Proof.
  intros p zc Hb. destruct pos as [x y z]. cbn [v_x v_y v_z] in *.
  destruct units_uploaded as (img & Himg & -> & _); [done|].
  pose proof (iz_pos depth Hd) as Hdq.
  pose proof (clamp_bounds z (1 # 1000) (999 # 1000) ltac:(lra)) as Hz.
  assert (slice_coord U (Vec3 x y z) = zc) as Hsc
    by apply (slice_coord_eq U width height depth Hlayout).
  assert (0 <= zc ∧ zc < iz depth) as [Hz0 Hz1]
    by (subst zc; generalize dependent (clamp z (1 # 1000) (999 # 1000)); intros; split; nra).
  pose proof (Qfloor_range zc depth Hz0 Hz1) as Hfl.
  assert (floor zc = iz (Z.to_nat (Qfloor zc))) as Hidx
    by (unfold floor; by rewrite Z2Nat.id by lia).
  pose proof (Qfloor_le zc) as Hlo. pose proof (Qlt_floor zc) as Hhi.
  rewrite inject_Z_plus in Hhi. change (inject_Z 1) with 1 in Hhi.
  fold (floor zc) in Hlo, Hhi. rewrite Hidx in Hlo, Hhi.
  set (k := Z.to_nat (Qfloor zc)) in *.
  assert (k < depth)%nat as Hk by lia.
  exists k. split; [done|]. split; [done|]. split; [done|].
  rewrite sampleVolume_fetches.
  destruct (tile_uv U k (floor (slice_coord U (Vec3 x y z))) (v2_x p) (v2_y p)
              Hlayout Hw Hh Hd) as [Ex Ey]; [by rewrite Hsc, Hidx|].
  assert (linear img (first_uv U (Vec3 x y z)) == linear (slice_image v k) p) as E1
    by (by apply (slice_linear vd width height depth max_texture_size img Hvol Himg k)).
  assert (fract (slice_coord U (Vec3 x y z)) == zc - iz k) as Efr
    by (unfold fract; by rewrite Hsc, Hidx).
  destruct Hlayout as (_ & _ & Hsl & _).
  destruct (blends U (Vec3 x y z)) eqn:Hbl.
  - apply andb_true_iff in Hbl as [Hf Hlast].
    apply ltb_lt in Hf, Hlast. rewrite Efr in Hf. rewrite Hsc, Hidx, Hsl in Hlast.
    assert (S k < depth)%nat as Hk1.
    { assert (iz k + 1 < iz depth) as Hlt by lra.
      change 1 with (inject_Z 1) in Hlt. rewrite <- inject_Z_plus, <- Zlt_Qlt in Hlt. lia. }
    split; [intros [Hzero|Hend]; [lra|lia]|]. intros _ _.
    destruct (tile_uv U (S k) (floor (slice_coord U (Vec3 x y z)) + 1) (v2_x p) (v2_y p)
                Hlayout Hw Hh Hd) as [Ex' Ey'].
    { rewrite Hsc, Hidx, Nat2Z.inj_succ. unfold Z.succ. by rewrite inject_Z_plus. }
    assert (linear img (next_uv U (Vec3 x y z)) == linear (slice_image v (S k)) p) as E2.
    { apply (slice_linear vd width height depth max_texture_size img Hvol Himg (S k));
        [done| | |done].
      - rewrite <- Ex'. unfold next_uv, first_uv, p. cbn [v2_x v2_y v_x v_y clamp3]. ring.
      - rewrite <- Ey'. unfold next_uv, first_uv, p. cbn [v2_x v2_y v_x v_y clamp3]. ring. }
    rewrite E1, E2, Efr. unfold mix. reflexivity.
  - split; [by intros _|]. intros Hf Hk1. exfalso.
    apply andb_false_iff in Hbl as [Hbl|Hbl]; apply not_true_iff_false in Hbl;
      apply Hbl, ltb_lt.
    + rewrite Efr. lra.
    + rewrite Hsc, Hidx, Hsl.
      assert (iz (S k) < iz depth) as Hlt by (rewrite <- Zlt_Qlt; lia).
      rewrite Nat2Z.inj_succ in Hlt. unfold Z.succ in Hlt. rewrite inject_Z_plus in Hlt.
      change (inject_Z 1) with 1 in Hlt. lra.
Qed.

End Raycaster.
End Units.

(** *** Auxiliary facts *)

Lemma linear_centre (img : image) (p : vec2) (x y : nat) :
  (x < i_width img)%nat → (y < i_height img)%nat →
  v2_x p * iz (i_width img) == iz x + (1 # 2) →
  v2_y p * iz (i_height img) == iz y + (1 # 2) →
  linear img p == i_texel img x y.
Proof.
  intros Hx Hy Ex Ey. unfold linear, fetch. cbv zeta.
  assert (Qfloor (v2_x p * iz (i_width img) - (1 # 2)) = Z.of_nat x) as Fx.
  { etrans; [apply Qfloor_comp|apply Qfloor_Z]. rewrite Ex. ring. }
  assert (Qfloor (v2_y p * iz (i_height img) - (1 # 2)) = Z.of_nat y) as Fy.
  { etrans; [apply Qfloor_comp|apply Qfloor_Z]. rewrite Ey. ring. }
  rewrite Fx, Fy, (edge_inside _ (Z.of_nat x)), (edge_inside _ (Z.of_nat y)) by lia.
  rewrite !Nat2Z.id.
  assert (v2_x p * iz (i_width img) - (1 # 2) - iz x == 0) as -> by (rewrite Ex; ring).
  assert (v2_y p * iz (i_height img) - (1 # 2) - iz y == 0) as -> by (rewrite Ey; ring).
  ring.
Qed.

(** The centre of a cell, as a fraction of the extent, is not moved by the
    clamp of sampleVolume when the extent is at most 500 cells. *)
Lemma centre_inside (x w : nat) :
  (x < w)%nat → (w ≤ 500)%nat →
  1 # 1000 <= (iz x + (1 # 2)) / iz w <= 999 # 1000.
Proof.
  intros Hx Hw.
  pose proof (iz_pos w ltac:(lia)) as Hwq.
  pose proof (iz_le (S x) w ltac:(lia)) as Hx1.
  pose proof (iz_le w 500 Hw) as Hw5. change (iz 500) with 500 in Hw5.
  pose proof (iz_le 0 x ltac:(lia)) as Hx0. change (iz 0) with 0 in Hx0.
  rewrite Nat2Z.inj_succ in Hx1. unfold Z.succ in Hx1. rewrite inject_Z_plus in Hx1.
  change (inject_Z 1) with 1 in Hx1.
  split.
  - apply Qle_shift_div_l; [done|]. hide_iz. lra.
  - apply Qle_shift_div_r; [done|]. hide_iz. lra.
Qed.

Lemma iz_lt_inv a b : iz a < iz b → (a < b)%nat.
Proof. intros H. rewrite <- Zlt_Qlt in H. lia. Qed.

Lemma iz_S n : iz (S n) == iz n + 1.
Proof. rewrite Nat2Z.inj_succ. unfold Z.succ. by rewrite inject_Z_plus. Qed.

Lemma is_volume_bytes (l : list Z) dims :
  List.length l = (dims.1.1 * dims.1.2 * dims.2)%nat →
  Forall (λ b, 0 ≤ b ≤ 255)%Z l →
  is_volume (VolumeData (inject_Z <$> l) dims).
Proof.
  intros Hlen Hall. destruct dims as [[w h] d]. split; cbn [data].
  - by rewrite length_fmap.
  - apply Forall_fmap. eapply Forall_impl; [exact Hall|]. intros b Hb. by exists b.
Qed.

(** *** The claims *)




(** *** What a sample is made of *)

(** sampleVolume never reads outside the stack, and reads at most two
    slices.  For a Volume whose atlas has been uploaded, the uniforms
    render sets, and any position whose clamped (x, y) lies at least half
    a texel inside the slice: the slice index k = floor(zc), with zc the
    clamped z times depth, is below depth; when zc is an integer or k is
    the last slice, the sample is slice k filtered bilinearly from its own
    voxels; otherwise k + 1 is a slice too and the sample is the blend of
    the two, with weight zc - k. *)
Theorem sampleVolume_slices U (vd : list Q) (width height depth max_texture_size : nat)
    (pos : vec3) :
  let v := VolumeData vd (width, height, depth) in
  let p := Vec2 (clamp (v_x pos) (1 # 1000) (999 # 1000))
                (clamp (v_y pos) (1 # 1000) (999 # 1000)) in
  let zc := clamp (v_z pos) (1 # 1000) (999 # 1000) * iz depth in
  layout_ok U width height depth →
  is_volume v →
  (0 < width)%nat → (0 < height)%nat → (0 < depth)%nat →
  uploads max_texture_size (ceil_sqrt depth * width) (ceil_div depth (ceil_sqrt depth) * height) →
  between_centres width height (v2_x p) (v2_y p) →
  ∃ k : nat,
    (k < depth)%nat ∧ iz k <= zc ∧ zc < iz k + 1 ∧
    (zc == iz k ∨ S k = depth →
     sampleVolume U (raycaster_unit max_texture_size v) pos == linear (slice_image v k) p) ∧
    (iz k < zc → (S k < depth)%nat →
     sampleVolume U (raycaster_unit max_texture_size v) pos
     == linear (slice_image v k) p * (1 - (zc - iz k))
        + linear (slice_image v (S k)) p * (zc - iz k)).
Proof.
  intros v p zc Hlayout Hvol Hw Hh Hd Hup Hb.
  by apply (sampleVolume_linear vd width height depth max_texture_size U).
Qed.

(** The three slices holding 10, 20 and 30, half-way up the stack: slice
    1 blended with slice 2. *)
Lemma sampleVolume_slices_witness :
  let v := three_slices 10 20 30 in
  let p := Vec2 (clamp (1 # 4) (1 # 1000) (999 # 1000)) (clamp (1 # 2) (1 # 1000) (999 # 1000)) in
  let zc := clamp (1 # 2) (1 # 1000) (999 # 1000) * iz 3 in
  ∃ k : nat,
    (k < 3)%nat ∧ iz k <= zc ∧ zc < iz k + 1 ∧
    (zc == iz k ∨ S k = 3%nat →
     sampleVolume (init_uniforms (loadVolume v).2) (raycaster_unit 4096 v)
       (Vec3 (1 # 4) (1 # 2) (1 # 2)) == linear (slice_image v k) p) ∧
    (iz k < zc → (S k < 3)%nat →
     sampleVolume (init_uniforms (loadVolume v).2) (raycaster_unit 4096 v)
       (Vec3 (1 # 4) (1 # 2) (1 # 2))
     == linear (slice_image v k) p * (1 - (zc - iz k))
        + linear (slice_image v (S k)) p * (zc - iz k)).
Proof.
  intros v p zc.
  apply (sampleVolume_slices (init_uniforms (loadVolume v).2)
           (inject_Z <$> [10; 10; 20; 20; 30; 30]%Z) 2 1 3 4096 (Vec3 (1 # 4) (1 # 2) (1 # 2))).
  - repeat split.
  - apply is_volume_bytes; [reflexivity|]. repeat constructor; lia.
  - lia.
  - lia.
  - lia.
  - change (uploads 4096 4 2). repeat split; [lia..|]. by right.
  - repeat split; vm_compute; discriminate.
Defined.

(** The data path from the volume to the shader is lossless at voxel
    centres: after loadVolume, an upload that goes through, and render,
    sampleVolume at the centre of voxel (x, y, z), z >= 1, on its slice
    plane returns that voxel's byte as a luminance, b / 255, for volumes
    of at most 500 x 500 x 1000 voxels. *)
Theorem sample_recovers_voxel (vd : list Q) (width height depth max_texture_size x y z : nat)
    (threshold opacity windowLevel windowWidth zoom cosX sinX cosY sinY : Q) :
  let v := VolumeData vd (width, height, depth) in
  let U := render_uniforms (loadVolume v).2 threshold opacity windowLevel windowWidth
                           zoom cosX sinX cosY sinY in
  is_volume v →
  (width ≤ 500)%nat → (height ≤ 500)%nat → (depth ≤ 1000)%nat →
  (x < width)%nat → (y < height)%nat → (1 ≤ z)%nat → (z < depth)%nat →
  uploads max_texture_size (ceil_sqrt depth * width) (ceil_div depth (ceil_sqrt depth) * height) →
  ∃ b : Z,
    voxel v x y z = Some (inject_Z b) ∧
    sampleVolume U (raycaster_unit max_texture_size v)
      (Vec3 ((iz x + (1 # 2)) / iz width) ((iz y + (1 # 2)) / iz height) (iz z / iz depth))
    == inject_Z b / 255.
Proof.
  intros v U Hvol Hw Hh Hd Hx Hy Hz1 Hz Hup.
  assert (layout_ok U width height depth) as Hlayout by (by repeat split).
  destruct (voxel_is_byte vd width height depth x y z Hvol Hx Hy Hz) as (b & Hb & Hv).
  exists b. split; [exact Hv|].
  pose proof (iz_pos depth ltac:(lia)) as Hdq.
  pose proof (iz_pos width ltac:(lia)) as Hwq. pose proof (iz_pos height ltac:(lia)) as Hhq.
  pose proof (iz_le 1 z Hz1) as Hz1q. change (iz 1) with 1 in Hz1q.
  pose proof (iz_le (S z) depth ltac:(lia)) as Hzq. rewrite iz_S in Hzq.
  pose proof (iz_le depth 1000 Hd) as Hd1000. change (iz 1000) with 1000 in Hd1000.
  pose proof (iz_le (S x) width ltac:(lia)) as Hxq. rewrite iz_S in Hxq.
  pose proof (iz_le (S y) height ltac:(lia)) as Hyq. rewrite iz_S in Hyq.
  pose proof (iz_le 0 x ltac:(lia)) as Hx0. change (iz 0) with 0 in Hx0.
  pose proof (iz_le 0 y ltac:(lia)) as Hy0. change (iz 0) with 0 in Hy0.
  pose proof (clamp_inside _ _ _ (centre_inside x width Hx Hw)) as Ecx.
  pose proof (clamp_inside _ _ _ (centre_inside y height Hy Hh)) as Ecy.
  assert (clamp (iz z / iz depth) (1 # 1000) (999 # 1000) * iz depth == iz z) as Ecz.
  { rewrite clamp_inside; [field; lra|].
    split; [apply Qle_shift_div_l | apply Qle_shift_div_r]; try done; hide_iz; lra. }
  set (pos := Vec3 _ _ _).
  assert (v2_x (Vec2 (clamp (v_x pos) (1 # 1000) (999 # 1000))
                     (clamp (v_y pos) (1 # 1000) (999 # 1000))) * iz width
          == iz x + (1 # 2)) as Epx.
  { subst pos. cbn [v2_x v_x]. rewrite Ecx. field. lra. }
  assert (v2_y (Vec2 (clamp (v_x pos) (1 # 1000) (999 # 1000))
                     (clamp (v_y pos) (1 # 1000) (999 # 1000))) * iz height
          == iz y + (1 # 2)) as Epy.
  { subst pos. cbn [v2_y v_y]. rewrite Ecy. field. lra. }
  destruct (sampleVolume_linear vd width height depth max_texture_size U Hlayout Hvol
              ltac:(lia) ltac:(lia) ltac:(lia) Hup pos) as (k & Hk & Hlo & Hhi & Hone & _).
  { split; rewrite ?Epx, ?Epy; split; lra. }
  subst pos. cbn [v_x v_y v_z] in *. rewrite Ecz in Hlo, Hhi.
  assert (k = z) as ->.
  { assert (iz k < iz (S z)) as H1 by (rewrite iz_S; lra).
    assert (iz z < iz (S k)) as H2 by (rewrite iz_S; lra).
    apply iz_lt_inv in H1, H2. lia. }
  etrans; [apply Hone; left; exact Ecz|].
  etrans; [apply (linear_centre _ _ x y); [done|done|exact Epx|exact Epy]|].
  cbn [slice_image dimensions i_texel]. unfold luminance. rewrite Hv. reflexivity.
Qed.

(** The three slices holding 10, 20 and 30: the sample at the centre of
    the second voxel of the last slice is 30 / 255. *)
Lemma sample_recovers_voxel_witness :
  let v := three_slices 10 20 30 in
  ∃ b : Z,
    voxel v 1 0 2 = Some (inject_Z b) ∧
    sampleVolume (render_uniforms (loadVolume v).2 0 1 (1 # 2) 1 1 1 0 1 0)
                 (raycaster_unit 4096 v)
                 (Vec3 ((iz 1 + (1 # 2)) / iz 2) ((iz 0 + (1 # 2)) / iz 1) (iz 2 / iz 3))
    == inject_Z b / 255.
Proof.
  intros v.
  apply (sample_recovers_voxel (inject_Z <$> [10; 10; 20; 20; 30; 30]%Z) 2 1 3 4096 1 0 2).
  - apply is_volume_bytes; [reflexivity|]. repeat constructor; lia.
  - lia.
  - lia.
  - lia.
  - lia.
  - lia.
  - lia.
  - lia.
  - change (uploads 4096 4 2). repeat split; [lia..|]. by right.
Defined.

(** *** The upload of the atlas *)


(** The depth-5 volume of single-voxel slices: its atlas is 3 x 2, the
    upload is rejected, and the texture reads 0 where slice 4 holds 50. *)
Lemma depth_5_rejected :
  let v := VolumeData (inject_Z <$> [10; 20; 30; 40; 50]%Z) (1, 1, 5)%nat in
  texImage2D 4096 3 2 (loadVolume v).1 = None ∧
  voxel v 0 0 4 = Some 50 ∧
  sampleVolume (init_uniforms (loadVolume v).2) (raycaster_unit 4096 v)
    (Vec3 (1 # 2) (1 # 2) (4 # 5)) == 0.
Proof. cbv zeta. split; [reflexivity|]. split; [reflexivity|]. vm_compute. reflexivity. Qed.



(** *** The range of the texture *)

Lemma texel_range max_texture_size width height pixels img :
  texImage2D max_texture_size width height pixels = Some img →
  Forall (λ b, (0 <= b <= 255)%Z) pixels →
  ∀ i j, 0 <= i_texel img i j <= 1.
Proof.
  intros Himg Hall i j. unfold texImage2D in Himg. destruct (_ && _); [|done].
  injection Himg as <-. cbn [i_texel].
  assert (0 <= default 0 (pixels !! (j * row_stride width + i)%nat) <= 255)%Z as [H0 H1].
  { destruct (pixels !! _) as [b|] eqn:Hb; cbn; [|lia].
    by apply (Forall_lookup_1 _ _ _ _ Hall Hb). }
  rewrite Zle_Qle in H0, H1. change (inject_Z 0) with 0 in H0.
  change (inject_Z 255) with 255 in H1.
  split; [apply Qle_shift_div_l | apply Qle_shift_div_r]; lra.
Qed.

Lemma linear_range (img : image) (lo hi : Q) (uv : vec2) :
  (∀ i j, lo <= i_texel img i j <= hi) → lo <= linear img uv <= hi.
Proof.
  intros Hr. unfold linear, fetch. cbv zeta.
  set (u := v2_x uv * iz (i_width img) - (1 # 2)).
  set (w := v2_y uv * iz (i_height img) - (1 # 2)).
  pose proof (fract_bounds u) as [Ha0 Ha1]. pose proof (fract_bounds w) as [Hb0 Hb1].
  unfold fract, floor in Ha0, Ha1, Hb0, Hb1.
  generalize dependent (u - inject_Z (Qfloor u)). intros a Ha0 Ha1.
  generalize dependent (w - inject_Z (Qfloor w)). intros b Hb0 Hb1.
  pose proof (Hr (edge (i_width img) (Qfloor u)) (edge (i_height img) (Qfloor w))) as H00.
  pose proof (Hr (edge (i_width img) (Qfloor u + 1)) (edge (i_height img) (Qfloor w))) as H10.
  pose proof (Hr (edge (i_width img) (Qfloor u)) (edge (i_height img) (Qfloor w + 1))) as H01.
  pose proof (Hr (edge (i_width img) (Qfloor u + 1)) (edge (i_height img) (Qfloor w + 1)))
    as H11.
  generalize dependent (i_texel img (edge (i_width img) (Qfloor u))
                          (edge (i_height img) (Qfloor w))). intros f00 H00.
  generalize dependent (i_texel img (edge (i_width img) (Qfloor u + 1))
                          (edge (i_height img) (Qfloor w))). intros f10 H10.
  generalize dependent (i_texel img (edge (i_width img) (Qfloor u))
                          (edge (i_height img) (Qfloor w + 1))). intros f01 H01.
  generalize dependent (i_texel img (edge (i_width img) (Qfloor u + 1))
                          (edge (i_height img) (Qfloor w + 1))). intros f11 H11.
  pose proof (mix_between f00 f10 a lo hi H00 H10 ltac:(lra)) as Hm0.
  pose proof (mix_between f01 f11 a lo hi H01 H11 ltac:(lra)) as Hm1.
  pose proof (mix_between _ _ b lo hi Hm0 Hm1 ltac:(lra)) as Hm.
  unfold mix in Hm.
  assert ((1 - a) * (1 - b) * f00 + a * (1 - b) * f10 + (1 - a) * b * f01 + a * b * f11
          == (f00 * (1 - a) + f10 * a) * (1 - b) + (f01 * (1 - a) + f11 * a) * b) as ->
    by ring.
  exact Hm.
Qed.

(** Whatever the volume and whether or not the upload went through, the
    texture yields luminances between 0 and 1. *)
Lemma units_range (v : volumeData) (max_texture_size : nat) (uv : vec2) :
  0 <= raycaster_unit max_texture_size v uv <= 1 ∧
  0 <= nearest_unit max_texture_size v uv <= 1.
Proof.
  destruct v as [vd [[width height] depth]].
  pose proof (packed_range vd width height depth) as Hall.
  unfold raycaster_unit, nearest_unit.
  destruct (texImage2D _ _ _ _) as [img|] eqn:Himg; cbn [texture2D]; [|split; split; discriminate].
  pose proof (texel_range _ _ _ _ _ Himg Hall) as Hr.
  split; [by apply linear_range|]. unfold nearest, fetch. apply Hr.
Qed.

(** *** The two wordings of CLAMP_TO_EDGE *)

(** One axis of LINEAR: the two texels and their weights, by either
    wording. *)
Lemma axis_es2 (g : nat → Q) (size : nat) (u : Q) :
  (0 < size)%nat →
  let a := u - (1 # 2) - inject_Z (Qfloor (u - (1 # 2))) in
  let u' := clamp_to_edge size u - (1 # 2) in
  let a' := u' - inject_Z (Qfloor u') in
  (1 - a) * g (edge size (Qfloor (u - (1 # 2)))) + a * g (edge size (Qfloor (u - (1 # 2)) + 1))
  == (1 - a') * g (Z.to_nat (Qfloor u')) + a' * g (Z.to_nat (Qfloor u' + 1)).
Proof.
  intros Hn. cbv zeta. unfold clamp_to_edge.
  pose proof (iz_le 1 size Hn) as Hq. change (iz 1) with 1 in Hq.
  pose proof (Qfloor_le (u - (1 # 2))) as Hlo. pose proof (Qlt_floor (u - (1 # 2))) as Hhi.
  rewrite inject_Z_plus in Hhi. change (inject_Z 1) with 1 in Hhi.
  destruct (Qlt_le_dec u (1 # 2)) as [Hlow|Hmid].
  - assert (Qmax (1 # 2) (Qmin (iz size - (1 # 2)) u) - (1 # 2) == 0) as E.
    { rewrite Q.max_l; [ring|]. eapply Qle_trans; [apply Q.le_min_r|lra]. }
    assert (Qfloor (Qmax (1 # 2) (Qmin (iz size - (1 # 2)) u) - (1 # 2)) = 0%Z) as F
      by (etrans; [apply Qfloor_comp, E|reflexivity]).
    rewrite F, E.
    assert (Qfloor (u - (1 # 2)) < 0)%Z as Hneg.
    { rewrite Zlt_Qlt. change (inject_Z 0) with 0. lra. }
    assert (edge size (Qfloor (u - (1 # 2))) = 0%nat) as -> by (unfold edge; lia).
    assert (edge size (Qfloor (u - (1 # 2)) + 1) = 0%nat) as -> by (unfold edge; lia).
    change (Z.to_nat 0) with 0%nat. change (inject_Z 0) with 0. ring.
  - destruct (Qlt_le_dec (iz size - (1 # 2)) u) as [Hhigh|Hin].
    + assert (Qmax (1 # 2) (Qmin (iz size - (1 # 2)) u) - (1 # 2) == iz (size - 1)) as E.
      { rewrite Q.min_l by lra. rewrite Q.max_r by lra. rewrite iz_pred by done. ring. }
      assert (Qfloor (Qmax (1 # 2) (Qmin (iz size - (1 # 2)) u) - (1 # 2))
              = Z.of_nat (size - 1)) as F
        by (etrans; [apply Qfloor_comp, E|apply Qfloor_Z]).
      rewrite F, E.
      assert (Z.of_nat size - 1 ≤ Qfloor (u - (1 # 2)))%Z as Hbig.
      { assert (inject_Z (Z.of_nat size - 1) < inject_Z (Qfloor (u - (1 # 2)) + 1)) as H.
        { unfold Z.sub. rewrite !inject_Z_plus. change (inject_Z (- (1))) with (- (1)).
          change (inject_Z 1) with 1. lra. }
        rewrite <- Zlt_Qlt in H. lia. }
      assert (edge size (Qfloor (u - (1 # 2))) = (size - 1)%nat) as -> by (unfold edge; lia).
      assert (edge size (Qfloor (u - (1 # 2)) + 1) = (size - 1)%nat) as ->
        by (unfold edge; lia).
      rewrite Nat2Z.id. ring.
    + assert (Qmax (1 # 2) (Qmin (iz size - (1 # 2)) u) - (1 # 2) == u - (1 # 2)) as E.
      { rewrite Q.min_r by lra. rewrite Q.max_r by lra. reflexivity. }
      assert (Qfloor (Qmax (1 # 2) (Qmin (iz size - (1 # 2)) u) - (1 # 2))
              = Qfloor (u - (1 # 2))) as F by apply Qfloor_comp, E.
      rewrite F, E.
      pose proof (Qfloor_range (u - (1 # 2)) size ltac:(lra) ltac:(lra)) as Hr.
      rewrite (edge_inside size (Qfloor (u - (1 # 2)))) by lia.
      destruct (Z.eq_dec (Qfloor (u - (1 # 2))) (Z.of_nat size - 1)%Z) as [Elast|Hnot].
      * assert (u - (1 # 2) - inject_Z (Qfloor (u - (1 # 2))) == 0) as ->.
        { rewrite Elast. unfold Z.sub. rewrite inject_Z_plus.
          change (inject_Z (- (1))) with (- (1)).
          rewrite Elast in Hlo. unfold Z.sub in Hlo. rewrite inject_Z_plus in Hlo.
          change (inject_Z (- (1))) with (- (1)) in Hlo. lra. }
        ring.
      * rewrite edge_inside by lia. reflexivity.
Qed.

Lemma axis_nearest_es2 (size : nat) (u : Q) :
  (0 < size)%nat → edge size (Qfloor u) = Z.to_nat (Qfloor (clamp_to_edge size u)).
Proof.
  intros Hn. unfold clamp_to_edge.
  pose proof (iz_le 1 size Hn) as Hq. change (iz 1) with 1 in Hq.
  pose proof (Qfloor_le u) as Hlo. pose proof (Qlt_floor u) as Hhi.
  rewrite inject_Z_plus in Hhi. change (inject_Z 1) with 1 in Hhi.
  destruct (Qlt_le_dec u (1 # 2)) as [Hlow|Hmid].
  - assert (Qfloor (Qmax (1 # 2) (Qmin (iz size - (1 # 2)) u)) = 0%Z) as ->.
    { assert (Qmax (1 # 2) (Qmin (iz size - (1 # 2)) u) == 1 # 2) as E.
      { rewrite Q.max_l; [reflexivity|]. eapply Qle_trans; [apply Q.le_min_r|lra]. }
      etrans; [apply Qfloor_comp, E|reflexivity]. }
    assert (Qfloor u < 1)%Z as Hneg.
    { rewrite Zlt_Qlt. change (inject_Z 1) with 1. lra. }
    unfold edge. lia.
  - destruct (Qlt_le_dec (iz size - (1 # 2)) u) as [Hhigh|Hin].
    + assert (Qfloor (Qmax (1 # 2) (Qmin (iz size - (1 # 2)) u)) = Z.of_nat (size - 1)) as ->.
      { apply Qfloor_unique.
        - rewrite Q.min_l by lra. rewrite Q.max_r by lra. rewrite iz_pred by done. lra.
        - rewrite Q.min_l by lra. rewrite Q.max_r by lra. rewrite inject_Z_plus.
          rewrite iz_pred by done. change (inject_Z 1) with 1. lra. }
      assert (Z.of_nat size - 1 ≤ Qfloor u)%Z as Hbig.
      { assert (inject_Z (Z.of_nat size - 1) < inject_Z (Qfloor u + 1)) as H.
        { unfold Z.sub. rewrite !inject_Z_plus. change (inject_Z (- (1))) with (- (1)).
          change (inject_Z 1) with 1. lra. }
        rewrite <- Zlt_Qlt in H. lia. }
      unfold edge. lia.
    + assert (Qfloor (Qmax (1 # 2) (Qmin (iz size - (1 # 2)) u)) = Qfloor u) as ->.
      { apply Qfloor_comp. rewrite Q.min_r by lra. rewrite Q.max_r by lra. reflexivity. }
      pose proof (Qfloor_range u size ltac:(lra) ltac:(lra)) as Hr.
      by rewrite edge_inside by lia.
Qed.

(** Moving the texels chosen to the edge and clamping the coordinate
    before they are chosen give the same texture values. *)
Lemma filters_es2 (img : image) (uv : vec2) :
  (0 < i_width img)%nat → (0 < i_height img)%nat →
  nearest img uv = nearest_es2 img uv ∧ linear img uv == linear_es2 img uv.
Proof.
  intros Hw Hh. split.
  - unfold nearest, nearest_es2, fetch. cbv zeta.
    by rewrite (axis_nearest_es2 _ _ Hw), (axis_nearest_es2 _ _ Hh).
  - unfold linear, linear_es2, fetch. cbv zeta.
    set (u := v2_x uv * iz (i_width img)). set (w := v2_y uv * iz (i_height img)).
    pose proof (λ j, axis_es2 (λ i, i_texel img i j) (i_width img) u Hw) as Hx.
    cbv zeta beta in Hx.
    set (a := u - (1 # 2) - inject_Z (Qfloor (u - (1 # 2)))) in *.
    set (i0 := edge (i_width img) (Qfloor (u - (1 # 2)))) in *.
    set (i1 := edge (i_width img) (Qfloor (u - (1 # 2)) + 1)) in *.
    set (row := λ j, (1 - a) * i_texel img i0 j + a * i_texel img i1 j).
    pose proof (axis_es2 row (i_height img) w Hh) as Hy. cbv zeta in Hy.
    set (b := w - (1 # 2) - inject_Z (Qfloor (w - (1 # 2)))) in *.
    etrans; [|etrans; [exact Hy|]].
    + subst row. cbn beta. ring.
    + subst row. cbn beta. rewrite !Hx. ring.
Qed.

End TextureSpec.

(* ===================================================================== *)
(** ** Properties of the fragment shader of VolumeRenderer *)
(* ===================================================================== *)

Module RendererSpec.
Import Shader ShaderSpec ShaderFacts Renderer.
Local Open Scope Q_scope.

Section Facts.
Variables (U : uniforms) (tex : sampler2D) (lighting : vec3 → Q).

(** *** The number of samples *)

Lemma march_samples n v_texCoord i c s :
  (List.length (march U tex lighting n v_texCoord i c s).2
   ≤ List.length s + (101 - i))%nat.
Proof.
  revert i c s. induction n as [|n IH]; intros i c s; cbn [march]; [cbn; lia|].
  cbv zeta.
  destruct (out_of_bounds _) eqn:Hout; [cbn; lia|].
  assert (i < 101)%nat as Hi.
  { destruct (Nat.lt_ge_cases i 101) as [|Hge]; [done|]. exfalso.
    unfold out_of_bounds in Hout.
    apply orb_false_iff in Hout as [_ Hz]. cbn [v_z add3 scale3] in Hz.
    apply not_true_iff_false in Hz. apply Hz, ltb_lt. unfold stepSize.
    assert (101 <= iz i) by (change 101 with (inject_Z 101); rewrite <- Zle_Qle; lia).
    hide_iz. lra. }
  repeat match goal with
         | |- context [if ?b then _ else _] => destruct b
         end; cbn [snd];
    try (etrans; [apply IH|]); rewrite ?length_app; cbn [List.length]; lia.
Qed.

(** *** Accumulated alpha *)

Hypothesis Htex : ∀ uv, 0 <= tex uv <= 1.
Hypothesis Hth : 0 <= u_threshold U <= 255.
Hypothesis Hop : 0 <= u_opacity U <= 1.

Lemma march_alpha n v_texCoord i c s :
  0 <= c_a c <= 1 →
  c_a c <= c_a (march U tex lighting n v_texCoord i c s).1 <= 1.
Proof.
  revert i c s. induction n as [|n IH]; intros i c s Hc; cbn [march]; [cbn; lra|].
  cbv zeta.
  destruct (out_of_bounds _); [cbn; lra|].
  match goal with
  | |- context [ltb _ (sampleVolume U tex ?p)] =>
      pose proof (sampleVolume_between U tex p 0 1 Htex) as Hd;
      generalize dependent (sampleVolume U tex p)
  end.
  intros d Hd. destruct (ltb (u_threshold U / 255) d) eqn:Hlt; [|by apply IH].
  apply ltb_lt in Hlt.
  set (θ := u_threshold U / 255) in *.
  assert (0 <= θ) as Hθ by (subst θ; apply Qle_shift_div_l; lra).
  assert (0 < 1 - θ) as Hpos by lra.
  set (I := (d - θ) / (1 - θ)).
  assert (0 <= I <= 1) as HI.
  { subst I. split; [apply Qle_shift_div_l | apply Qle_shift_div_r]; lra. }
  match goal with
  | |- context [lighting ?p] => generalize (lighting p)
  end.
  intros l. cbn [c_r c_g c_b c_a add4 scale4].
  assert (0 <= I * u_opacity U <= 1) as Hp by nra.
  generalize dependent (I * u_opacity U). intros p Hp.
  assert (0 <= p * I <= 1) as Hq by nra.
  generalize dependent (p * I). intros q Hq.
  assert (c_a c <= c_a c + (1 - c_a c) * q <= 1) as Hstep by nra.
  destruct (ltb (95 # 100) _); [cbn; lra|].
  match goal with
  | |- context [march _ _ _ _ _ _ ?c' ?s'] =>
      pose proof (IH (S i) c' s') as H
  end.
  change (c_a (add4 _ _)) with (c_a c + (1 - c_a c) * q) in H.
  specialize (H ltac:(lra)). lra.
Qed.

Lemma main_unfold v_texCoord :
  main U tex lighting v_texCoord
  = (clamp4 (march U tex lighting 200 v_texCoord 0 (splat4 0) []).1 0 1,
     (march U tex lighting 200 v_texCoord 0 (splat4 0) []).2).
Proof. reflexivity. Qed.

End Facts.

(** Whatever the inputs, a fragment takes at most 101 samples of the
    volume: of the 200 iterations of the loop, the one with i = 101 steps
    past z = 1 and breaks. *)
Theorem main_samples U tex lighting (v_texCoord : vec2) :
  (List.length (main U tex lighting v_texCoord).2 ≤ 101)%nat.
Proof.
  pose proof (march_samples U tex lighting 200 v_texCoord 0 (splat4 0) []) as H.
  rewrite main_unfold.
  generalize dependent (march U tex lighting 200 v_texCoord 0 (splat4 0) []).
  intros r H. cbn [snd List.length] in *. lia.
Qed.

(** With texture values in [0,1] (what a LUMINANCE byte texture yields), a
    threshold in [0,255] and opacity in [0,1], the alpha accumulated by the
    loop never decreases over further iterations and stays within [0,1],
    so that the final clamp leaves it as it is.  At threshold 255 the
    division by [1.0 - u_threshold / 255.0] is never reached. *)
Theorem main_alpha U tex lighting (v_texCoord : vec2) (n : nat) :
  let alpha k := c_a (march U tex lighting k v_texCoord 0 (splat4 0) []).1 in
  (∀ uv, 0 <= tex uv <= 1) →
  0 <= u_threshold U <= 255 →
  0 <= u_opacity U <= 1 →
  0 <= alpha n ∧ alpha n <= 1 ∧
  c_a (main U tex lighting v_texCoord).1 == alpha 200%nat.
Proof.
  intros alpha Htex Hth Hop. subst alpha. cbn beta.
  pose proof (march_alpha U tex lighting Htex Hth Hop n v_texCoord 0 (splat4 0) []
                ltac:(cbn; lra)) as Hn.
  pose proof (march_alpha U tex lighting Htex Hth Hop 200 v_texCoord 0 (splat4 0) []
                ltac:(cbn; lra)) as H200.
  rewrite main_unfold.
  generalize dependent (march U tex lighting n v_texCoord 0 (splat4 0) []).
  generalize dependent (march U tex lighting 200 v_texCoord 0 (splat4 0) []).
  intros r200 H200 rn Hn. cbn [fst clamp4 c_a splat4] in *.
  split; [lra|]. split; [lra|]. apply clamp_inside. lra.
Qed.

(** The example texture at the centre of the image: the alpha after three
    iterations of the loop. *)
Lemma main_alpha_witness :
  let alpha k :=
    c_a (march demo_uniforms demo_texture (λ _, 1) k (Vec2 (1 # 2) (1 # 2)) 0
               (splat4 0) []).1 in
  0 <= alpha 3%nat ∧ alpha 3%nat <= 1 ∧
  c_a (main demo_uniforms demo_texture (λ _, 1) (Vec2 (1 # 2) (1 # 2))).1 == alpha 200%nat.
Proof.
  apply (main_alpha demo_uniforms demo_texture (λ _, 1) (Vec2 (1 # 2) (1 # 2)) 3).
  - intros uv. unfold demo_texture. destruct (leb (v2_x uv) (1 # 2)); split; discriminate.
  - split; discriminate.
  - split; discriminate.
Defined.

End RendererSpec.

(* ===================================================================== *)
(** ** The window transform against the texture's range *)
(* ===================================================================== *)

Module WindowSpec.
Import Shader ShaderSpec ShaderFacts Settings.
Local Open Scope Q_scope.

(** The windowed density of a sample that is at most 1. *)
Lemma windowed_below (density level width threshold : Q) :
  density <= 1 → 0 < width → 0 <= threshold →
  (1 - (level - width * (1 # 2))) * 255 <= threshold * width →
  clamp ((density - (level - width * (1 # 2)))
         / (level + width * (1 # 2) - (level - width * (1 # 2)))) 0 1
  <= threshold / 255.
Proof.
  intros Hd Hw Hth Hwin.
  assert (0 <= threshold / 255) as H0 by (apply Qle_shift_div_l; lra).
  unfold clamp. eapply Qle_trans; [apply Q.le_min_l|]. apply Q.max_lub; [|done].
  apply Qle_shift_div_r; [lra|].
  assert (threshold / 255 * (level + width * (1 # 2) - (level - width * (1 # 2)))
          == threshold * width / 255) as -> by (field; lra).
  apply Qle_shift_div_l; lra.
Qed.

Section Hidden.
Variables (U : uniforms) (tex : sampler2D) (lighting : Q → Q → Q → Q).
Variables (rayOrigin rayDir : vec3) (tFar : Q).
Hypothesis Htex : ∀ uv, 0 <= tex uv <= 1.
Hypothesis Hw : 0 < u_windowWidth U.
Hypothesis Hth : 0 <= u_threshold U.
Hypothesis Hwin :
  (1 - (u_windowLevel U - u_windowWidth U * (1 # 2))) * 255
  <= u_threshold U * u_windowWidth U.

Lemma march_body_hidden st st' :
  march_body U tex lighting rayOrigin rayDir tFar st = Some st' →
  m_colorAccum st' = m_colorAccum st.
Proof.
  unfold march_body.
  destruct (leb tFar (m_tNear st) || leb (95 # 100) (c_a (m_colorAccum st))); [done|].
  match goal with
  | |- context [ltb _ (clamp ((sampleVolume U tex ?p - _) / _) 0 1)] =>
      pose proof (windowed_below (sampleVolume U tex p) (u_windowLevel U)
                    (u_windowWidth U) (u_threshold U)
                    (proj2 (sampleVolume_between U tex p 0 1 Htex)) Hw Hth Hwin) as Hn
  end.
  destruct (ltb _ _) eqn:Hlt; [|by intros [= <-]].
  apply ltb_lt in Hlt. lra.
Qed.

Lemma march_hidden n st :
  m_colorAccum (march U tex lighting n rayOrigin rayDir tFar st) = m_colorAccum st.
Proof.
  revert st. induction n as [|n IH]; intros st; [done|]. cbn [march].
  destruct (march_body U tex lighting rayOrigin rayDir tFar st) as [st'|] eqn:Hb; [|done].
  rewrite IH. by apply march_body_hidden.
Qed.

End Hidden.

(** A window that lies above the texture's range hides the volume.  The
    texture yields luminances in [0,1], while the window level and width
    are compared with them as they are: when the whole of [0,1] maps below
    the threshold, that is (1 - windowMin) / windowWidth <= threshold / 255,
    no sample passes and every ray of the volume ends fully transparent,
    whatever the volume holds. *)
Theorem window_hides_volume U tex lighting (rayOrigin rayDir : vec3) (tNear tFar : Q) :
  (∀ uv, 0 <= tex uv <= 1) →
  0 < u_windowWidth U →
  0 <= u_threshold U →
  (1 - (u_windowLevel U - u_windowWidth U * (1 # 2))) * 255
    <= u_threshold U * u_windowWidth U →
  (shade U tex lighting rayOrigin rayDir tNear tFar).1 = splat4 0.
Proof.
  intros Htex Hw Hth Hwin. unfold shade.
  destruct (ltb tFar tNear || ltb tFar 0); [done|]. cbn [fst].
  rewrite (march_hidden U tex lighting rayOrigin rayDir tFar Htex Hw Hth Hwin).
  reflexivity.
Qed.

(** The settings a new VolumeRaycaster starts with (threshold 100, window
    level 128, width 256) are such a window: with them the three slices
    holding 10, 20 and 30 are invisible along the ray through the image
    centre. *)
Lemma window_hides_volume_witness :
  let v := Texture.three_slices 10 20 30 in
  let U := init_uniforms (Atlas.loadVolume v).2 in
  (shade U (Texture.raycaster_unit 4096 v) demo_lighting
         (pixel_ray U (Vec2 (1 # 2) (1 # 2))).1
         (pixel_ray U (Vec2 (1 # 2) (1 # 2))).2 (3 # 2) (5 # 2)).1 = splat4 0.
Proof.
  intros v U. apply window_hides_volume.
  - intros uv. apply TextureSpec.units_range.
  - reflexivity.
  - discriminate.
  - discriminate.
Defined.

End WindowSpec.

(* ===================================================================== *)
(** ** Properties of the slice views *)
(* ===================================================================== *)

Module SliceViewSpec.
Import Atlas AtlasSpec Shader ShaderSpec ShaderFacts Texture TextureSpec.
Local Open Scope Q_scope.
#[local] Existing Instances floor_proper mix_proper.

(** The windowed density of a sample that is at most 1, when the window
    maps 1 below the threshold. *)
Lemma windowed_strictly_below (density level width threshold : Q) :
  density <= 1 → 0 < width → 0 < threshold →
  (1 - (level - width * (1 # 2))) * 255 < threshold * width →
  clamp ((density - (level - width * (1 # 2)))
         / (level + width * (1 # 2) - (level - width * (1 # 2)))) 0 1
  < threshold / 255.
Proof.
  intros Hd Hw Hth Hwin.
  assert (0 < threshold / 255) as H0 by (apply Qlt_shift_div_l; lra).
  unfold clamp. eapply Qle_lt_trans; [apply Q.le_min_l|]. apply Q.max_lub_lt; [|done].
  apply Qlt_shift_div_r; [lra|].
  assert (threshold / 255 * (level + width * (1 # 2) - (level - width * (1 # 2)))
          == threshold * width / 255) as -> by (field; lra).
  apply Qlt_shift_div_l; lra.
Qed.

(** *** SimpleSliceRenderer *)


(** With a window above the texture's range the slice view is black: when
    the whole of [0,1] maps below the threshold, every fragment of a loaded
    volume is (0, 0, 0, 1), whatever the volume holds. *)
Theorem slice_view_hidden U (currentSlice : Q) (tex : sampler2D)
    (pattern : vec2 → vec4) (v_texCoord : vec2) :
  0 < u_slices U →
  (∀ uv, 0 <= tex uv <= 1) →
  0 < u_windowWidth U →
  0 < u_threshold U →
  (1 - (u_windowLevel U - u_windowWidth U * (1 # 2))) * 255
    < u_threshold U * u_windowWidth U →
  (SimpleSliceRenderer.main U currentSlice tex pattern v_texCoord).1 = Vec4 0 0 0 1.
Proof.
  intros Hsl Htex Hw Hth Hwin. unfold SimpleSliceRenderer.main.
  assert (leb (u_slices U) 0 = false) as ->.
  { apply not_true_iff_false. rewrite leb_le. lra. }
  cbv zeta. cbn [fst].
  match goal with
  | |- context [ltb (clamp ((tex ?uv - _) / _) 0 1) _] =>
      pose proof (windowed_strictly_below (tex uv) (u_windowLevel U) (u_windowWidth U)
                    (u_threshold U) (proj2 (Htex uv)) Hw Hth Hwin) as Hn
  end.
  apply ltb_lt in Hn. by rewrite Hn.
Qed.

(** The settings a new SimpleSliceRenderer starts with (threshold 100,
    window level 128, width 256) are such a window. *)
Lemma slice_view_hidden_witness :
  (SimpleSliceRenderer.main (Uniforms 2 1 2 100 (8 # 10) 128 256 (Vec3 1 1 2) 1 1 0 1 0)
     SimpleSliceRenderer.init_currentSlice demo_texture demo_pattern (Vec2 (1 # 2) (1 # 2))).1
  = Vec4 0 0 0 1.
Proof.
  apply slice_view_hidden.
  - reflexivity.
  - intros uv. unfold demo_texture. destruct (leb (v2_x uv) (1 # 2)); split; discriminate.
  - reflexivity.
  - reflexivity.
  - reflexivity.
Defined.





(** The same view, computed: at currentSlice = 1 the fragment at the
    centre shows voxel (1, 0) of slice 2, which holds 31. *)
Lemma slice_view_at_one :
  let v := VolumeData (inject_Z <$> [10; 11; 20; 21; 30; 31; 40; 41]%Z) (2, 1, 4)%nat in
  let cs := Nat.iter 10 (λ c, SimpleSliceRenderer.wheel c (- 1))
                     SimpleSliceRenderer.init_currentSlice in
  cs == 1 ∧ voxel v 1 0 2 = Some 31 ∧
  ∃ uv,
    (SimpleSliceRenderer.main (Settings.init_uniforms (loadVolume v).2) cs
       (nearest_unit 4096 v) demo_pattern (Vec2 (1 # 2) (1 # 2))).2 = [uv] ∧
    nearest_unit 4096 v uv == 31 # 255.
Proof.
  cbv zeta. split; [vm_compute; reflexivity|]. split; [reflexivity|].
  eexists. split; [reflexivity|]. vm_compute. reflexivity.
Qed.

(** *** SimpleVolumeRenderer *)

Lemma perform_volumeTexture r c :
  SimpleVolumeRenderer.volumeTexture (SimpleVolumeRenderer.perform r c)
  = SimpleVolumeRenderer.volumeTexture r.
Proof. by destruct c. Qed.

Lemma calls_volumeTexture calls r :
  SimpleVolumeRenderer.volumeTexture (foldl SimpleVolumeRenderer.perform r calls)
  = SimpleVolumeRenderer.volumeTexture r.
Proof.
  revert r. induction calls as [|c calls IH]; intros r; [done|].
  cbn [foldl]. by rewrite IH, perform_volumeTexture.
Qed.

(** SimpleVolumeRenderer never shows a volume.  init sets
    [this.volumeTexture = null] after setupTextures has created the
    texture, and no method assigns it again, so after any sequence of
    loadVolume and setter calls render takes the branch that sets
    u_slices to 0: every fragment is the test pattern, and the texture is
    not read. *)
Theorem center_view_pattern (calls : list SimpleVolumeRenderer.call) (tex : sampler2D)
    (pattern : vec2 → vec4) (v_texCoord : vec2) :
  SimpleVolumeRenderer.main
    (SimpleVolumeRenderer.render (foldl SimpleVolumeRenderer.perform SimpleVolumeRenderer.init calls))
    tex pattern v_texCoord
  = (pattern v_texCoord, []).
Proof.
  pose proof (calls_volumeTexture calls SimpleVolumeRenderer.init) as H.
  unfold SimpleVolumeRenderer.render. rewrite H. reflexivity.
Qed.

(** *** BasicVolumeRenderer *)




End SliceViewSpec.
